(** * Quint: effect unification, effect inference and evaluator built-ins

    A shallow embedding of three source files of the repository:
    - the evaluator's built-in operators ([builtinLambda], [getListElem]),
    - the effect unifier ([unify], [unifyConcrete], [unifyVariables],
      [tryToUnpack], [simplifyArrowEffect], [hashVariables], ...),
    - the effect inferrer ([EffectInferrer]: [exitName], [exitApp],
      [exitLambda], ...).

    Conventions.  A sweet-monads [Either<E, A>] is the sum [E + A]
    ([inl] is [left], [inr] is [right]).  A JavaScript exception is the
    [Threw] outcome.  Recursion that is not structural takes a fuel argument
    and answers [None] when the fuel runs out. *)

From stdpp Require Import gmap strings list pretty.
From Stdlib Require Import ZArith Lia.

Set Warnings "-register-all".

Open Scope string_scope.
Open Scope list_scope.
Open Scope Z_scope.

(** ** Either and exceptions *)

Definition Either (E A : Type) : Type := (E + A)%type.

Definition chain {E A B} (x : Either E A) (f : A -> Either E B) : Either E B :=
  match x with
  | inl e => inl e
  | inr a => f a
  end.

Definition mapRight {E A B} (f : A -> B) (x : Either E A) : Either E B :=
  match x with
  | inl e => inl e
  | inr a => inr (f a)
  end.

Definition mapLeft {E F A} (f : E -> F) (x : Either E A) : Either F A :=
  match x with
  | inl e => inl (f e)
  | inr a => inr a
  end.

Definition isRight {E A} (x : Either E A) : bool :=
  match x with inl _ => false | inr _ => true end.

(** [mergeInMany]: all the rights, in order, when there is no left;
    otherwise all the lefts, in order. *)
Fixpoint mergeInMany {E A} (xs : list (Either E A)) : Either (list E) (list A) :=
  match xs with
  | [] => inr []
  | x :: rest =>
      match x, mergeInMany rest with
      | inr a, inr l => inr (a :: l)
      | inr _, inl es => inl es
      | inl e, inr _ => inl [e]
      | inl e, inl es => inl (e :: es)
      end
  end.

(** A call either throws a JavaScript exception or returns. *)
Inductive outcome (A : Type) : Type :=
| Threw (msg : string)
| Returned (a : A).
Arguments Threw {A} msg.
Arguments Returned {A} a.

Definition obind {A B} (x : outcome A) (f : A -> outcome B) : outcome B :=
  match x with
  | Threw m => Threw m
  | Returned a => f a
  end.

(** * Evaluator built-ins *)

Module Builtins.

Record QuintError := mkQuintError { code : string; message : string }.

(** Modelled from the spec: the runtime value class is not among the
    sources; the built-ins below use it through [toInt] and [toList]
    only, which throw on a value of another shape.  Tuples and lists share
    one representation. *)
Inductive RuntimeValue : Type :=
| RvBool (b : bool)
| RvInt (i : Z)
| RvStr (s : string)
| RvList (l : list RuntimeValue).

Definition toInt (v : RuntimeValue) : outcome Z :=
  match v with
  | RvInt i => Returned i
  | _ => Threw "Expected an integer value"
  end.

Definition toList (v : RuntimeValue) : outcome (list RuntimeValue) :=
  match v with
  | RvList l => Returned l
  | _ => Threw "Expected a list value"
  end.

(** [args[i]], whose use throws a TypeError when the argument is absent. *)
Definition arg (args : list RuntimeValue) (i : nat) : outcome RuntimeValue :=
  match args !! i with
  | Some v => Returned v
  | None => Threw "TypeError: Cannot read properties of undefined"
  end.

(** ** JavaScript numbers holding integers

    [Number(b)] of a bigint [b] is the nearest IEEE-754 double, ties to
    even.  Doubles with an integer value are kept as that integer in [Z].
    (Beyond the double range JavaScript answers [Infinity], which compares
    above every list size just as the large integer kept here.) *)
Definition roundToDouble (z : Z) : Z :=
  let a := Z.abs z in
  if a <? 2 ^ 53 then z
  else
    let k := Z.log2 a - 52 in
    let q := a / 2 ^ k in
    let r := a mod 2 ^ k in
    let half := 2 ^ (k - 1) in
    let q' := if (half <? r) || ((r =? half) && Z.odd q) then q + 1 else q in
    Z.sgn z * (q' * 2 ^ k).

Definition Number (b : Z) : Z := roundToDouble b.

(** Subtraction of two integer-valued doubles. *)
Definition numSub (x y : Z) : Z := roundToDouble (x - y).

Section Evaluator.

(** [Number.prototype.toString] of the JavaScript runtime, used in messages
    only. *)
Variable numberToString : Z -> string.

(** Access a list via an index.  The elements are objects, hence truthy. *)
Definition getListElem (list : list RuntimeValue) (idx : Z)
  : Either QuintError RuntimeValue :=
  if (0 <=? idx) && (idx <? Z.of_nat (length list)) then
    match list !! Z.to_nat idx with
    | Some elem => inr elem
    | None =>
        inl (mkQuintError "QNT510" ("Out of bounds, nth(" +:+ numberToString idx +:+ ")"))
    end
  else inl (mkQuintError "QNT510" ("Out of bounds, nth(" +:+ numberToString idx +:+ ")")).

(** The strict built-in operators on integers and lists. *)
Definition builtinLambda (op : string) (args : list RuntimeValue)
  : outcome (Either QuintError RuntimeValue) :=
  let int (i : nat) := obind (arg args i) toInt in
  let lst (i : nat) := obind (arg args i) toList in
  if String.eqb op "iadd" then
    obind (int 0%nat) (fun a => obind (int 1%nat) (fun b => Returned (inr (RvInt (a + b)))))
  else if String.eqb op "isub" then
    obind (int 0%nat) (fun a => obind (int 1%nat) (fun b => Returned (inr (RvInt (a - b)))))
  else if String.eqb op "imul" then
    obind (int 0%nat) (fun a => obind (int 1%nat) (fun b => Returned (inr (RvInt (a * b)))))
  else if String.eqb op "idiv" then
    obind (int 1%nat) (fun divisor =>
      if divisor =? 0 then Returned (inl (mkQuintError "QNT503" "Division by zero"))
      else obind (int 0%nat) (fun a => Returned (inr (RvInt (Z.quot a divisor)))))
  else if String.eqb op "ipow" then
    obind (int 0%nat) (fun base =>
    obind (int 1%nat) (fun exp =>
      if (base =? 0) && (exp =? 0) then
        Returned (inl (mkQuintError "QNT503" "0^0 is undefined"))
      else if exp <? 0 then
        Returned (inl (mkQuintError "QNT503" "i^j is undefined for j < 0"))
      else Returned (inr (RvInt (base ^ exp)))))
  else if String.eqb op "iuminus" then
    obind (int 0%nat) (fun a => Returned (inr (RvInt (- a))))
  else if String.eqb op "ilt" then
    obind (int 0%nat) (fun a => obind (int 1%nat) (fun b => Returned (inr (RvBool (a <? b)))))
  else if String.eqb op "ilte" then
    obind (int 0%nat) (fun a => obind (int 1%nat) (fun b => Returned (inr (RvBool (a <=? b)))))
  else if String.eqb op "igt" then
    obind (int 0%nat) (fun a => obind (int 1%nat) (fun b => Returned (inr (RvBool (b <? a)))))
  else if String.eqb op "igte" then
    obind (int 0%nat) (fun a => obind (int 1%nat) (fun b => Returned (inr (RvBool (b <=? a)))))
  else if String.eqb op "item" then
    (* tuples are 1-indexed *)
    obind (lst 0%nat) (fun l =>
    obind (int 1%nat) (fun i => Returned (getListElem l (numSub (Number i) 1))))
  else if String.eqb op "nth" then
    obind (lst 0%nat) (fun l =>
    obind (int 1%nat) (fun i => Returned (getListElem l (Number i))))
  else if String.eqb op "head" then
    obind (lst 0%nat) (fun l =>
      match l with
      | [] => Returned (inl (mkQuintError "QNT505" "Called 'head' on an empty list"))
      | x :: _ => Returned (inr x)
      end)
  else if String.eqb op "tail" then
    obind (lst 0%nat) (fun l =>
      match l with
      | [] => Returned (inl (mkQuintError "QNT505" "Called 'tail' on an empty list"))
      | _ :: rest => Returned (inr (RvList rest))
      end)
  else if String.eqb op "length" then
    obind (lst 0%nat) (fun l => Returned (inr (RvInt (Z.of_nat (length l)))))
  else Returned (inl (mkQuintError "QNT000" ("Unknown builtin " +:+ op))).

End Evaluator.

End Builtins.

(** * Effects and their unification *)

(** ** The effect algebra *)

Inductive ComponentKind : Type := Read | Update | Temporal.

Record StateVariable := mkStateVariable { name : string; reference : Z }.

(** The variables an effect acts upon: a list of state variables, a
    quantification over them, or a combination to be computed as a union. *)
Inductive Variables : Type :=
| VConcrete (vars : list StateVariable)
| VQuantified (qname : string) (qreference : option Z)
| VUnion (members : list Variables).

Record EffectComponent := mkComponent { kind : ComponentKind; variables : Variables }.

Inductive Effect : Type :=
| EConcrete (components : list EffectComponent)
| EArrow (params : list Effect) (result : Effect)
| EQuantified (ename : string).

(** A quantified name refers either to an effect or to variables. *)
Inductive NameKind : Type := NameEffect | NameVariable.

Record Name := mkName { nameKind : NameKind; nameOf : string }.

Definition emptyVariables : Variables := VConcrete [].

(** A substitution binds an effect name to an effect or a variables name to
    variables. *)
Inductive Substitution : Type :=
| SubEffect (bound : string) (value : Effect)
| SubVariable (bound : string) (value : Variables).

Definition Substitutions : Type := list Substitution.

(** Error trees: [{ location, message?, children }]. *)
Inductive ErrorTree : Type :=
| mkErrorTree (location : string) (message : option string) (children : list ErrorTree).

(** [Error = ErrorTree | ErrorTree[]]. *)
Inductive Error : Type :=
| ErrOne (tree : ErrorTree)
| ErrMany (trees : list ErrorTree).

(** ** Equality tests *)

Definition ComponentKind_eqb (k1 k2 : ComponentKind) : bool :=
  match k1, k2 with
  | Read, Read | Update, Update | Temporal, Temporal => true
  | _, _ => false
  end.

Definition NameKind_eqb (k1 k2 : NameKind) : bool :=
  match k1, k2 with
  | NameEffect, NameEffect | NameVariable, NameVariable => true
  | _, _ => false
  end.

Definition StateVariable_eqb (a b : StateVariable) : bool :=
  String.eqb (name a) (name b) && (reference a =? reference b).

Definition option_Z_eqb (a b : option Z) : bool :=
  match a, b with
  | Some x, Some y => x =? y
  | None, None => true
  | _, _ => false
  end.

Section ListEqb.
Context {A : Type} (eqb : A -> A -> bool).

Fixpoint list_eqb (l1 l2 : list A) : bool :=
  match l1, l2 with
  | [], [] => true
  | x :: r1, y :: r2 => eqb x y && list_eqb r1 r2
  | _, _ => false
  end.

End ListEqb.

(** Deep equality of variables, as lodash's [isEqual] decides it. *)
Fixpoint Variables_eqb (v1 v2 : Variables) {struct v1} : bool :=
  match v1, v2 with
  | VConcrete a, VConcrete b => list_eqb StateVariable_eqb a b
  | VQuantified n r, VQuantified m s => String.eqb n m && option_Z_eqb r s
  | VUnion a, VUnion b =>
      (fix go (l1 l2 : list Variables) {struct l1} : bool :=
         match l1, l2 with
         | [], [] => true
         | x :: r1, y :: r2 => Variables_eqb x y && go r1 r2
         | _, _ => false
         end) a b
  | _, _ => false
  end.

Definition isEqual : Variables -> Variables -> bool := Variables_eqb.

(** ** Strings *)

(** [Array.prototype.join]. *)
Fixpoint join (sep : string) (l : list string) : string :=
  match l with
  | [] => ""
  | x :: rest =>
      match rest with
      | [] => x
      | _ :: _ => x +:+ sep +:+ join sep rest
      end
  end.

(** The decimal form of an array length. *)
Definition lengthToString (n : nat) : string := pretty n.

Definition kindToString (k : ComponentKind) : string :=
  match k with
  | Read => "read"
  | Update => "update"
  | Temporal => "temporal"
  end.

(** ** Modules of the repository used by the unifier but not among the
    sources: they are interfaces here. *)

(** [./printing]. *)
Class Printing := {
  effectToString : Effect -> string;
  effectComponentToString : EffectComponent -> string;
  variablesToString : Variables -> string
}.

(** [./simplification]. *)
Class Simplification := {
  simplify : Effect -> Effect;
  flattenUnions : Variables -> Variables
}.

(** [./substitutions]. *)
Class SubstitutionOps := {
  applySubstitution : Substitutions -> Effect -> Either ErrorTree Effect;
  applySubstitutionToVariables : Substitutions -> Variables -> Variables;
  compose : Substitutions -> Substitutions -> Either Error Substitutions
}.

(** [../errorTree]. *)
Class ErrorTrees := {
  buildErrorLeaf : string -> string -> ErrorTree;
  buildErrorTree : string -> Error -> ErrorTree;
  errorTreeToString : ErrorTree -> string
}.

(** ** Results of fuelled functions: [None] when the fuel ran out *)

Definition Fuelled (A : Type) : Type := option A.

Definition fchain {E A B} (x : Fuelled (Either E A)) (f : A -> Fuelled (Either E B))
  : Fuelled (Either E B) :=
  match x with
  | None => None
  | Some (inl e) => Some (inl e)
  | Some (inr a) => f a
  end.

Definition fmapLeft {E F A} (f : E -> F) (x : Fuelled (Either E A)) : Fuelled (Either F A) :=
  option_map (mapLeft f) x.

Fixpoint allSome {A} (xs : list (option A)) : option (list A) :=
  match xs with
  | [] => Some []
  | None :: _ => None
  | Some x :: rest => option_map (cons x) (allSome rest)
  end.

Section Unifier.

Context `{!Printing, !Simplification, !SubstitutionOps, !ErrorTrees}.

(** ** Names *)

Fixpoint variablesNames (variables : Variables) : list Name :=
  match variables with
  | VConcrete _ => []
  | VQuantified n _ => [mkName NameVariable n]
  | VUnion vs => flat_map variablesNames vs
  end.

(** All names that occur in an effect. *)
Fixpoint effectNames (effect : Effect) : list Name :=
  match effect with
  | EConcrete components => flat_map (fun c => variablesNames (variables c)) components
  | EArrow params result => flat_map effectNames params ++ effectNames result
  | EQuantified n => [mkName NameEffect n]
  end.

Definition isName (k : NameKind) (s : string) (n : Name) : bool :=
  NameKind_eqb (nameKind n) k && String.eqb (nameOf n) s.

(** ** Binding, with the occurs check *)

Definition bindEffect (name : string) (effect : Effect) : Either string Substitutions :=
  if existsb (isName NameEffect name) (effectNames effect) then
    inl ("Can't bind " +:+ name +:+ " to " +:+ effectToString effect +:+ ": cyclical binding")
  else inr [SubEffect name effect].

Definition bindVariables (name : string) (variables : Variables)
  : Either string Substitutions :=
  if existsb (isName NameVariable name) (variablesNames variables) then
    inl ("Can't bind " +:+ name +:+ " to " +:+ variablesToString variables +:+ ": cyclical binding")
  else inr [SubVariable name variables].

(** ** Unification of variables *)

(** [isEqual(new Set(a), new Set(b))] on names. *)
Definition sameNameSet (a b : list string) : bool :=
  forallb (fun x => existsb (String.eqb x) b) a &&
  forallb (fun x => existsb (String.eqb x) a) b.

Definition unionsNotImplemented (location : string) : ErrorTree :=
  mkErrorTree location (Some "Unification for unions of variables is not implemented") [].

Fixpoint unifyVariables (fuel : nat) (va vb : Variables)
  : Fuelled (Either ErrorTree Substitutions) :=
  match fuel with
  | O => None
  | S fuel' =>
      let v1 := flattenUnions va in
      let v2 := flattenUnions vb in
      let location :=
        "Trying to unify variables [" +:+ variablesToString v1 +:+ "] and ["
          +:+ variablesToString v2 +:+ "]" in
      match v1, v2 with
      | VConcrete vars1, VConcrete vars2 =>
          (* Both state *)
          if sameNameSet (map name vars1) (map name vars2) then Some (inr [])
          else Some (inl (mkErrorTree location
                 (Some ("Expected variables [" +:+ join "," (map name vars1) +:+ "] and ["
                          +:+ join "," (map name vars2) +:+ "] to be the same")) []))
      | VQuantified n1 _, VQuantified n2 _ =>
          if String.eqb n1 n2 then Some (inr [])
          else Some (mapLeft (buildErrorLeaf location) (bindVariables n1 v2))
      | VQuantified n1 _, _ =>
          Some (mapLeft (buildErrorLeaf location) (bindVariables n1 v2))
      | _, VQuantified n2 _ =>
          Some (mapLeft (buildErrorLeaf location) (bindVariables n2 v1))
      | VUnion members1, VConcrete _ =>
          if isEqual v1 v2 then Some (inr [])
          else
            option_map
              (fun results =>
                 mapLeft (fun errs => buildErrorTree location (ErrMany errs))
                   (mapRight (@concat Substitution) (mergeInMany results)))
              (allSome (map (fun v => unifyVariables fuel' v v2) members1))
      | VConcrete _, VUnion _ =>
          if isEqual v1 v2 then Some (inr [])
          else unifyVariables fuel' v2 v1
      | VUnion _, VUnion _ =>
          if isEqual v1 v2 then Some (inr [])
          else
            (* At least one of the variables is a union *)
            Some (inl (unionsNotImplemented location))
      end
  end.

(** ** Unification of concrete effects *)

Definition areCompatible (c1 c2 : EffectComponent) : bool :=
  existsb (fun kinds =>
             existsb (ComponentKind_eqb (kind c1)) kinds &&
             existsb (ComponentKind_eqb (kind c2)) kinds)
    [[Read; Update]; [Read; Temporal]].

Definition isDominant (c1 c2 : EffectComponent) : bool :=
  ComponentKind_eqb (kind c1) Update && ComponentKind_eqb (kind c2) Temporal.

Definition cantUnifyComponents (location : string) (c1 c2 : EffectComponent) : Error :=
  ErrOne (mkErrorTree location
    (Some ("Can't unify " +:+ kindToString (kind c1) +:+ " " +:+ effectComponentToString c1
             +:+ " and " +:+ kindToString (kind c2) +:+ " " +:+ effectComponentToString c2))
    []).

(** What one pair of components adds, under the substitutions found so
    far. *)
Definition unifyComponents (fuel : nat) (location : string) (subs : Substitutions)
    (ca cb : EffectComponent) : Fuelled (Either Error Substitutions) :=
  let c1 := mkComponent (kind ca) (applySubstitutionToVariables subs (variables ca)) in
  let c2 := mkComponent (kind cb) (applySubstitutionToVariables subs (variables cb)) in
  if ComponentKind_eqb (kind c1) (kind c2) then
    fmapLeft ErrOne (unifyVariables fuel (variables c1) (variables c2))
  else if areCompatible c1 c2 then Some (inr [])
  else if isDominant c1 c2 then
    (* The dominated component has to be nullified *)
    fmapLeft ErrOne (unifyVariables fuel (VConcrete []) (variables c2))
  else if isDominant c2 c1 then
    (* The dominated component has to be nullified *)
    fmapLeft ErrOne (unifyVariables fuel (variables c1) (VConcrete []))
  else Some (inl (cantUnifyComponents location c1 c2)).

(** One step of the inner [reduce]. *)
Definition unifyComponentsStep (fuel : nat) (location : string) (ca : EffectComponent)
    (innerResult : Fuelled (Either Error Substitutions)) (cb : EffectComponent)
  : Fuelled (Either Error Substitutions) :=
  fchain (fchain innerResult (fun subs => unifyComponents fuel location subs ca cb))
    (fun s => fchain innerResult (fun s2 => Some (compose s2 s))).

Definition hasKind (k : ComponentKind) (components : list EffectComponent) : bool :=
  existsb (fun c => ComponentKind_eqb (kind c) k) components.

(** Components of a kind the other effect lacks have to be nullified. *)
Definition nullifyMissing (fuel : nat) (flip : bool)
    (mine others : list EffectComponent) : Fuelled (Either Error Substitutions) :=
  fold_left
    (fun result c2 =>
       fchain result (fun subs =>
         if negb (hasKind (kind c2) others) then
           let newSubs :=
             if flip then unifyVariables fuel (VConcrete []) (variables c2)
             else unifyVariables fuel (variables c2) (VConcrete []) in
           fchain (fmapLeft ErrOne newSubs) (fun s => Some (compose subs s))
         else Some (inr subs)))
    mine (Some (inr [])).

Definition unifyConcrete (fuel : nat) (location : string)
    (e1 e2 : list EffectComponent) : Fuelled (Either Error Substitutions) :=
  let generalResult :=
    fold_left
      (fun result ca => fold_left (unifyComponentsStep fuel location ca) e2 result)
      e1 (Some (inr [])) in
  let e1Result := nullifyMissing fuel false e1 e2 in
  let e2Result := nullifyMissing fuel true e2 e1 in
  match generalResult, e1Result, e2Result with
  | Some general, Some r1, Some r2 =>
      Some (chain (chain r1 (fun s1 => chain r2 (fun s2 => compose s1 s2)))
              (fun s1 => chain general (fun s2 => compose s1 s2)))
  | _, _, _ => None
  end.

(** ** Unpacking one tuple into several arguments *)

(** [variablesByComponentKind]: a Map, its keys in insertion order. *)
Fixpoint pushByKind (k : ComponentKind) (v : Variables)
    (m : list (ComponentKind * list Variables)) : list (ComponentKind * list Variables) :=
  match m with
  | [] => [(k, [v])]
  | (k', vs) :: rest =>
      if ComponentKind_eqb k' k then (k', vs ++ [v]) :: rest
      else (k', vs) :: pushByKind k v rest
  end.

(** The [forEach] over the longer list: the components of its concrete
    effects are collected; the [return left(...)] for another effect is the
    callback's result, which [forEach] drops. *)
Definition collectByKind (effects : list Effect) : list (ComponentKind * list Variables) :=
  fold_left
    (fun m e =>
       match e with
       | EConcrete components =>
           fold_left (fun m c => pushByKind (kind c) (variables c) m) components m
       | _ => m
       end)
    effects [].

Definition unpackedEffect (effects : list Effect) : Effect :=
  EConcrete (map (fun '(k, vs) => mkComponent k (VUnion vs)) (collectByKind effects)).

Definition tryToUnpack (location : string) (effects1 effects2 : list Effect)
  : Either ErrorTree (list Effect * list Effect) :=
  (* Ensure that effects1 is always the smallest *)
  let '(effects1, effects2) :=
    if (length effects2 <? length effects1)%nat then (effects2, effects1)
    else (effects1, effects2) in
  (* We only handle unpacking 1 tuple into N args *)
  if negb (length effects1 =? 1)%nat then
    inl (buildErrorLeaf location
           ("Expected " +:+ lengthToString (length effects2) +:+ " arguments, got "
              +:+ lengthToString (length effects1)))
  else inr (effects1, [simplify (unpackedEffect effects2)]).

(** ** Arrows of the form [(Read[v0, ..., vn]) => Read[v0, ..., vn]] *)

Fixpoint hashVariables (va : Variables) : Variables :=
  match va with
  | VConcrete _ => va
  | VQuantified _ _ => va
  | VUnion vs =>
      let nested := map hashVariables vs in
      let '(name, variables) :=
        fold_left
          (fun '(name, variables) v =>
             match v with
             | VQuantified n _ => (name ++ [n], variables)
             | _ => (name, variables ++ [v])
             end)
          nested ([], []) in
      match name, variables with
      | [], [] => emptyVariables
      | [], _ :: _ => VUnion variables
      | _ :: _, [] => VQuantified (join "#" name) None
      | _ :: _, _ :: _ => VUnion (VQuantified (join "#" name) None :: variables)
      end
  end.

Record ArrowEffect := mkArrow { arrowParams : list Effect; arrowResult : Effect }.

Definition hashedComponents (components : list EffectComponent) : list EffectComponent :=
  map (fun c => mkComponent (kind c) (hashVariables (variables c))) components.

Definition hashBindings (components : list EffectComponent) : Substitutions :=
  flat_map
    (fun c => map (fun n => SubVariable (nameOf n) (hashVariables (variables c)))
                (variablesNames (variables c)))
    components.

Definition simplifyArrowEffect (params : list Effect) (result : Effect)
  : ArrowEffect * Substitutions :=
  match params with
  | [EConcrete components as effect] =>
      if String.eqb (effectToString effect) (effectToString result) then
        (mkArrow [EConcrete (hashedComponents components)] result, hashBindings components)
      else (mkArrow params result, [])
  | _ => (mkArrow params result, [])
  end.

(** ** Unification of effects *)

Section UnifyStep.

(** [unify] at the recursive calls. *)
Variable unify : Effect -> Effect -> Fuelled (Either ErrorTree Substitutions).

Definition applySubstitutionsAndUnify (subs : Substitutions) (e1 e2 : Effect)
  : Fuelled (Either Error Substitutions) :=
  match mergeInMany [applySubstitution subs e1; applySubstitution subs e2] with
  | inl errs => Some (inl (ErrMany errs))
  | inr [e1'; e2'] =>
      fchain (fmapLeft ErrOne (unify e1' e2')) (fun newSubstitutions =>
        Some (compose newSubstitutions subs))
  | inr _ => None
  end.

Definition unifyArrows (location : string) (p1 : list Effect) (r1 : Effect)
    (p2 : list Effect) (r2 : Effect) : Fuelled (Either ErrorTree Substitutions) :=
  let params :=
    if (length p1 =? length p2)%nat then inr (p1, p2)
    else tryToUnpack location p1 p2 in
  match params with
  | inl err => Some (inl err)
  | inr (p1, p2) =>
      let '(arrow1, subs1) := simplifyArrowEffect p1 r1 in
      let '(arrow2, subs2) := simplifyArrowEffect p2 r2 in
      let subs := compose subs1 subs2 in
      fmapLeft (buildErrorTree location)
        (fchain
           (fold_left
              (fun result '(e, e') =>
                 fchain result (fun subs => applySubstitutionsAndUnify subs e e'))
              (zip (arrowParams arrow1) (arrowParams arrow2)) (Some subs))
           (fun subs =>
              applySubstitutionsAndUnify subs (arrowResult arrow1) (arrowResult arrow2)))
  end.

End UnifyStep.

Definition cantUnifyDifferent (location : string) : ErrorTree :=
  mkErrorTree location (Some "Can't unify different types of effects") [].

(** Unifies two effects by matching effect types and unifying their
    variables. *)
Fixpoint unify (fuel : nat) (ea eb : Effect) : Fuelled (Either ErrorTree Substitutions) :=
  match fuel with
  | O => None
  | S fuel' =>
      let location :=
        "Trying to unify " +:+ effectToString ea +:+ " and " +:+ effectToString eb in
      let e1 := simplify ea in
      let e2 := simplify eb in
      if String.eqb (effectToString e1) (effectToString e2) then Some (inr [])
      else
        match e1, e2 with
        | EArrow p1 r1, EArrow p2 r2 => unifyArrows (unify fuel') location p1 r1 p2 r2
        | EConcrete c1, EConcrete c2 =>
            fmapLeft (buildErrorTree location) (unifyConcrete fuel' location c1 c2)
        | EQuantified n1, _ =>
            Some (mapLeft (buildErrorLeaf location) (bindEffect n1 e2))
        | _, EQuantified n2 =>
            Some (mapLeft (buildErrorLeaf location) (bindEffect n2 e1))
        | _, _ => Some (inl (cantUnifyDifferent location))
        end
  end.

End Unifier.

(** * The interfaces, modelled from the spec

    The general facts below hold for every implementation of the four
    interfaces; the definitions of this part give one, so that the unifier
    and the inferrer can be run on concrete effects. *)

Module SpecModel.

(** ** Printing *)

Fixpoint insertSorted (s : string) (l : list string) : list string :=
  match l with
  | [] => [s]
  | x :: rest => if String.leb s x then s :: l else x :: insertSorted s rest
  end.

Definition sortStrings (l : list string) : list string :=
  fold_right insertSorted [] l.

Fixpoint stateNamesOf (v : Variables) : list string :=
  match v with
  | VConcrete vars => map name vars
  | VQuantified _ _ => []
  | VUnion vs => flat_map stateNamesOf vs
  end.

Fixpoint quantifiedNamesOf (v : Variables) : list string :=
  match v with
  | VConcrete _ => []
  | VQuantified n _ => [n]
  | VUnion vs => flat_map quantifiedNamesOf vs
  end.

(** Modelled from the spec: the printing module is not among the sources.
    Variable names come in a fixed order, state variables
    lexicographically, then quantified names lexicographically. *)
Definition variablesToString (v : Variables) : string :=
  join ", "
    (map (fun n => "'" +:+ n +:+ "'") (sortStrings (stateNamesOf v))
       ++ sortStrings (quantifiedNamesOf v)).

Definition displayName (k : ComponentKind) : string :=
  match k with
  | Read => "Read"
  | Update => "Update"
  | Temporal => "Temporal"
  end.

Definition effectComponentToString (c : EffectComponent) : string :=
  displayName (kind c) +:+ "[" +:+ variablesToString (variables c) +:+ "]".

Definition ofKind (k : ComponentKind) (cs : list EffectComponent) : list EffectComponent :=
  List.filter (fun c => ComponentKind_eqb (kind c) k) cs.

(** Modelled from the spec: component kinds are printed in the fixed order
    Read, Update, Temporal. *)
Fixpoint effectToString (e : Effect) : string :=
  match e with
  | EConcrete cs =>
      match (ofKind Read cs ++ ofKind Update cs ++ ofKind Temporal cs)%list with
      | [] => "Pure"
      | ordered => join " & " (map effectComponentToString ordered)
      end
  | EArrow ps r => "(" +:+ join ", " (map effectToString ps) +:+ ") => " +:+ effectToString r
  | EQuantified n => n
  end.

(** ** Simplification *)

Fixpoint dedupVariables (l : list Variables) : list Variables :=
  match l with
  | [] => []
  | x :: rest =>
      x :: List.filter (fun y => negb (Variables_eqb x y)) (dedupVariables rest)
  end.

(** Modelled from the spec: [flatten_unions] collapses nested unions,
    removes duplicates by structural equality, drops empty concrete members
    and unwraps singletons; an empty union becomes the empty variables. *)
Fixpoint flattenUnions (v : Variables) : Variables :=
  match v with
  | VUnion vs =>
      let members :=
        flat_map
          (fun m =>
             match flattenUnions m with
             | VUnion ms => ms
             | VConcrete [] => []
             | x => [x]
             end)
          vs in
      match dedupVariables members with
      | [] => VConcrete []
      | [x] => x
      | ms => VUnion ms
      end
  | _ => v
  end.

Definition mergeComponents (cs : list EffectComponent) : list EffectComponent :=
  map (fun '(k, vs) => mkComponent k (flattenUnions (VUnion vs)))
    (fold_left (fun m c => pushByKind (kind c) (variables c) m) cs []).

(** Modelled from the spec: components of the same kind are merged by
    uniting their variables; the parameters and the result of an arrow are
    simplified independently. *)
Fixpoint simplify (e : Effect) : Effect :=
  match e with
  | EConcrete cs => EConcrete (mergeComponents cs)
  | EArrow ps r => EArrow (map simplify ps) (simplify r)
  | EQuantified _ => e
  end.

(** ** Substitutions *)

Fixpoint substVariables (b : Substitution) (v : Variables) : Variables :=
  match v with
  | VConcrete _ => v
  | VQuantified n _ =>
      match b with
      | SubVariable n' value => if String.eqb n' n then value else v
      | SubEffect _ _ => v
      end
  | VUnion vs => VUnion (map (substVariables b) vs)
  end.

Fixpoint substEffect (b : Substitution) (e : Effect) : Effect :=
  match e with
  | EConcrete cs =>
      EConcrete (map (fun c => mkComponent (kind c) (substVariables b (variables c))) cs)
  | EArrow ps r => EArrow (map (substEffect b) ps) (substEffect b r)
  | EQuantified n =>
      match b with
      | SubEffect n' value => if String.eqb n' n then value else e
      | SubVariable _ _ => e
      end
  end.

(** Modelled from the spec: the bindings are applied in order, later
    bindings seeing the results of earlier ones. *)
Definition applySubstitutionToVariables (subs : Substitutions) (v : Variables) : Variables :=
  fold_left (fun v b => substVariables b v) subs v.

Definition applySubstitution (subs : Substitutions) (e : Effect) : Either ErrorTree Effect :=
  inr (fold_left (fun e b => substEffect b e) subs e).

Definition EffectComponent_eqb (c1 c2 : EffectComponent) : bool :=
  ComponentKind_eqb (kind c1) (kind c2) && Variables_eqb (variables c1) (variables c2).

Fixpoint Effect_eqb (e1 e2 : Effect) {struct e1} : bool :=
  match e1, e2 with
  | EConcrete a, EConcrete b => list_eqb EffectComponent_eqb a b
  | EArrow p1 r1, EArrow p2 r2 =>
      (fix go (l1 l2 : list Effect) {struct l1} : bool :=
         match l1, l2 with
         | [], [] => true
         | x :: t1, y :: t2 => Effect_eqb x y && go t1 t2
         | _, _ => false
         end) p1 p2
      && Effect_eqb r1 r2
  | EQuantified n, EQuantified m => String.eqb n m
  | _, _ => false
  end.

Definition sameKey (b1 b2 : Substitution) : bool :=
  match b1, b2 with
  | SubEffect n _, SubEffect m _ => String.eqb n m
  | SubVariable n _, SubVariable m _ => String.eqb n m
  | _, _ => false
  end.

Definition sameValue (b1 b2 : Substitution) : bool :=
  match b1, b2 with
  | SubEffect _ v, SubEffect _ w => Effect_eqb v w
  | SubVariable _ v, SubVariable _ w => Variables_eqb v w
  | _, _ => false
  end.

Definition substBinding (subs : Substitutions) (b : Substitution) : Substitution :=
  match b with
  | SubEffect n v => SubEffect n (fold_left (fun e b => substEffect b e) subs v)
  | SubVariable n v => SubVariable n (applySubstitutionToVariables subs v)
  end.

Fixpoint dedupBindings (l : Substitutions) : Substitutions :=
  match l with
  | [] => []
  | b :: rest => b :: List.filter (fun b' => negb (sameKey b b')) (dedupBindings rest)
  end.

Fixpoint consistent (l : Substitutions) : bool :=
  match l with
  | [] => true
  | b :: rest =>
      forallb (fun b' => negb (sameKey b b') || sameValue b b') rest && consistent rest
  end.

(** Modelled from the spec: [compose s1 s2] applies [s1] to every value of
    [s2] and appends the result to [s1], one binding per kind and name, the
    first occurrence winning; it fails when a name would be bound again to
    another value. *)
Definition compose (s1 s2 : Substitutions) : Either Error Substitutions :=
  let all := s1 ++ map (substBinding s1) s2 in
  if consistent all then inr (dedupBindings all)
  else inl (ErrOne (mkErrorTree "Composing substitutions"
              (Some "A name is bound to two different values") [])).

(** ** Error trees *)

(** Modelled from the spec: an error is [{ location, message, children }];
    a tree wraps child errors in a context frame. *)
Definition buildErrorLeaf (location message : string) : ErrorTree :=
  mkErrorTree location (Some message) [].

Definition buildErrorTree (location : string) (err : Error) : ErrorTree :=
  match err with
  | ErrOne tree => mkErrorTree location None [tree]
  | ErrMany trees => mkErrorTree location None trees
  end.


(** Modelled from the spec: the printed output is the flattened tree. *)
Fixpoint errorTreeToString (t : ErrorTree) : string :=
  match t with
  | mkErrorTree location message children =>
      join "; "
        ((location +:+ match message with Some m => ": " +:+ m | None => "" end)
           :: map errorTreeToString children)
  end.

Definition printing : Printing :=
  Build_Printing effectToString effectComponentToString variablesToString.

Definition simplification : Simplification :=
  Build_Simplification simplify flattenUnions.

Definition substitutionOps : SubstitutionOps :=
  Build_SubstitutionOps applySubstitution applySubstitutionToVariables compose.

Definition errorTrees : ErrorTrees :=
  Build_ErrorTrees buildErrorLeaf buildErrorTree errorTreeToString.

End SpecModel.

(** * Effect inference *)

(** ** The intermediate representation *)

Inductive QuintEx : Type :=
| QuintName (id : Z) (name : string)
| QuintBool (id : Z) (value : bool)
| QuintInt (id : Z) (value : Z)
| QuintStr (id : Z) (value : string)
| QuintApp (id : Z) (opcode : string) (args : list QuintEx)
| QuintLambda (id : Z) (params : list string) (expr : QuintEx)
| QuintLet (id : Z) (opdef : QuintOpDef) (expr : QuintEx)
with QuintOpDef : Type :=
| mkOpDef (id : Z) (name : string) (expr : QuintEx).

Inductive QuintDef : Type :=
| DefOp (def : QuintOpDef)
| DefConst (id : Z) (name : string)
| DefVar (id : Z) (name : string)
| DefTypeDef (id : Z) (name : string)
| DefAssume (id : Z) (name : string) (assumption : QuintEx)
| DefImport (id : Z) (path : string)
| DefInstance (id : Z) (name : string) (overrides : list (string * QuintEx))
| DefModule (id : Z) (module : QuintModule)
with QuintModule : Type :=
| mkModule (name : string) (defs : list QuintDef) (id : Z).

Definition exprId (e : QuintEx) : Z :=
  match e with
  | QuintName id _ | QuintBool id _ | QuintInt id _ | QuintStr id _
  | QuintApp id _ _ | QuintLambda id _ _ | QuintLet id _ _ => id
  end.

Definition moduleName (m : QuintModule) : string :=
  match m with mkModule name _ _ => name end.

Definition moduleDefs (m : QuintModule) : list QuintDef :=
  match m with mkModule _ defs _ => defs end.

Definition moduleId (m : QuintModule) : Z :=
  match m with mkModule _ _ id => id end.

Module Inferrer.

(** ** Schemes

    The inferrer belongs to a later revision of the effects than the unifier
    above: quantified effects are called variables there, and variables
    entities.  The data is the same. *)

Record EffectScheme := mkScheme {
  effect : Effect;
  effectVariables : list string;   (* a Set, in insertion order *)
  entityVariables : list string    (* a Set, in insertion order *)
}.

(** Modelled from the spec: [toScheme] is not among the sources; the scheme
    of an effect that quantifies nothing has empty quantifier sets. *)
Definition toScheme (e : Effect) : EffectScheme := mkScheme e [] [].

(** [new Set(l)]: the elements of [l] in the order of their first
    occurrence. *)
Definition newSet (l : list string) : list string :=
  fold_left (fun s x => if existsb (String.eqb x) s then s else s ++ [x]) l [].

Definition namesOfKind (k : NameKind) (e : Effect) : list string :=
  map nameOf (List.filter (fun n => NameKind_eqb (nameKind n) k) (effectNames e)).

(** Modelled from the spec: in this revision [effectNames] answers the set
    of the effect names and the set of the entity names of an effect; they
    are the names the earlier [effectNames] lists, by kind. *)
Definition effectNamesSets (e : Effect) : list string * list string :=
  (newSet (namesOfKind NameEffect e), newSet (namesOfKind NameVariable e)).

(** ** What the inferrer consumes *)

Inductive DefinitionKind : Type :=
| KindParam | KindConst | KindVar | KindVal | KindDef | KindOther.

(** An entry of the lookup table; a reference may be absent. *)
Record ValueDefinition := mkValueDefinition {
  defKind : DefinitionKind;
  defReference : option Z
}.

Inductive ScopeTree : Type :=
| mkScopeTree (value : Z) (children : list ScopeTree).

(** The lookup facility, the built-in signatures, the fresh variable
    generator, the printer of expressions and [unify] of this revision:
    none is among the sources. *)
Class InferrerEnv := {
  LookupTable : Type;
  newTable : LookupTable;
  lookupValue : LookupTable -> ScopeTree -> string -> Z -> option ValueDefinition;
  treeFromModule : QuintModule -> ScopeTree;
  getSignatures : string -> option (nat -> EffectScheme);
  FreshVarGenerator : Type;
  newFreshVarGenerator : FreshVarGenerator;
  freshVar : string -> FreshVarGenerator -> string * FreshVarGenerator;
  expressionToString : QuintEx -> string;
  unify : Effect -> Effect -> Either ErrorTree Substitutions
}.

Section EffectInferrer.

Context `{!Printing, !SubstitutionOps, !ErrorTrees, !InferrerEnv}.

(** The tables by module, given to the constructor. *)
Variable lookupTable : string -> option LookupTable.

(** ** The state of an [EffectInferrer] *)

Record InferState := mkInferState {
  effects : gmap Z EffectScheme;
  errors : gmap Z ErrorTree;
  substitutions : Substitutions;
  freshVarGenerator : FreshVarGenerator;
  location : string;
  currentModule : option QuintModule;
  currentTable : option LookupTable;   (* absent after a failed [get] *)
  currentScopeTree : ScopeTree;
  moduleStack : list QuintModule
}.

Definition initialState : InferState :=
  mkInferState ∅ ∅ [] newFreshVarGenerator "" None (Some newTable)
    (mkScopeTree 0 []) [].

Definition setEffects (f : gmap Z EffectScheme -> gmap Z EffectScheme) (st : InferState) :=
  mkInferState (f (effects st)) (errors st) (substitutions st) (freshVarGenerator st)
    (location st) (currentModule st) (currentTable st) (currentScopeTree st) (moduleStack st).

Definition setErrors (f : gmap Z ErrorTree -> gmap Z ErrorTree) (st : InferState) :=
  mkInferState (effects st) (f (errors st)) (substitutions st) (freshVarGenerator st)
    (location st) (currentModule st) (currentTable st) (currentScopeTree st) (moduleStack st).

Definition setSubstitutions (s : Substitutions) (st : InferState) :=
  mkInferState (effects st) (errors st) s (freshVarGenerator st)
    (location st) (currentModule st) (currentTable st) (currentScopeTree st) (moduleStack st).

Definition setFreshVarGenerator (g : FreshVarGenerator) (st : InferState) :=
  mkInferState (effects st) (errors st) (substitutions st) g
    (location st) (currentModule st) (currentTable st) (currentScopeTree st) (moduleStack st).

Definition setLocation (l : string) (st : InferState) :=
  mkInferState (effects st) (errors st) (substitutions st) (freshVarGenerator st)
    l (currentModule st) (currentTable st) (currentScopeTree st) (moduleStack st).

Definition setModules (stack : list QuintModule) (current : option QuintModule)
    (table : option LookupTable) (tree : ScopeTree) (st : InferState) :=
  mkInferState (effects st) (errors st) (substitutions st) (freshVarGenerator st)
    (location st) current table tree stack.

(** ** Methods: a state transformer that may throw *)

Definition Infer (A : Type) : Type := InferState -> outcome (A * InferState).

Definition pure {A} (a : A) : Infer A := fun st => Returned (a, st).

Definition bind {A B} (m : Infer A) (k : A -> Infer B) : Infer B :=
  fun st =>
    match m st with
    | Threw msg => Threw msg
    | Returned (a, st') => k a st'
    end.

Definition throw {A} (msg : string) : Infer A := fun _ => Threw msg.

Definition gets {A} (f : InferState -> A) : Infer A := fun st => Returned (f st, st).

Definition modify (f : InferState -> InferState) : Infer unit :=
  fun st => Returned (tt, f st).

Notation "'let*' x := m 'in' k" := (bind m (fun x => k))
  (at level 10, x pattern, m at level 100, k at level 200).

Fixpoint forEach {A} (f : A -> Infer unit) (l : list A) : Infer unit :=
  match l with
  | [] => pure tt
  | x :: rest => let* _ := f x in forEach f rest
  end.

Fixpoint mapInfer {A B} (f : A -> Infer B) (l : list A) : Infer (list B) :=
  match l with
  | [] => pure []
  | x :: rest => let* y := f x in let* ys := mapInfer f rest in pure (y :: ys)
  end.

(** [0n] and [undefined] are falsy. *)
Definition truthy (reference : option Z) : option Z :=
  match reference with
  | Some r => if r =? 0 then None else Some r
  | None => None
  end.

Definition bigintToString (z : Z) : string := pretty z.

Definition addToResults (exprId : Z) (result : Either Error EffectScheme) : Infer unit :=
  let* location := gets location in
  match result with
  | inl err => modify (setErrors (insert exprId (buildErrorTree location err)))
  | inr r => modify (setEffects (insert exprId r))
  end.

Definition fetchResult (id : Z) : Infer (Either ErrorTree EffectScheme) :=
  let* successfulResult := gets (fun st => effects st !! id) in
  let* failedResult := gets (fun st => errors st !! id) in
  let* location := gets location in
  match failedResult, successfulResult with
  | Some failed, _ => pure (inl failed)
  | None, Some successful => pure (inr successful)
  | None, None =>
      throw ("Couldn't find any result for id " +:+ bigintToString id +:+ " while " +:+ location)
  end.

Definition nextFreshVar (prefix : string) : Infer string :=
  let* g := gets freshVarGenerator in
  let '(v, g') := freshVar prefix g in
  let* _ := modify (setFreshVarGenerator g') in
  pure v.

Definition instantiate (effectSubs entitySubs : Substitutions) (scheme : EffectScheme)
  : Infer Effect :=
  match chain (compose effectSubs entitySubs)
          (fun s => mapLeft ErrOne (applySubstitution s (effect scheme))) with
  | inl err =>
      throw ("Error applying fresh names substitution: "
               +:+ errorTreeToString (buildErrorTree "" err) +:+ " ")
  | inr value => pure value
  end.

Definition newInstance (scheme : EffectScheme) : Infer Effect :=
  let* effectSubs :=
    mapInfer (fun name => let* v := nextFreshVar "e" in pure (SubEffect name (EQuantified v)))
      (effectVariables scheme) in
  let* entitySubs :=
    mapInfer (fun name => let* v := nextFreshVar "v" in
                          pure (SubVariable name (VQuantified v None)))
      (entityVariables scheme) in
  instantiate effectSubs entitySubs scheme.

(** [newInstance] passed as a callback, as [exitLambda] does with
    [.map(this.newInstance)]: the method is called without its object, so
    [this.freshVarGenerator] throws as soon as there is a name to refresh. *)
Definition newInstanceUnbound (scheme : EffectScheme) : Infer Effect :=
  match effectVariables scheme, entityVariables scheme with
  | [], [] => instantiate [] [] scheme
  | _, _ => throw "TypeError: Cannot read properties of undefined (reading 'freshVarGenerator')"
  end.

Definition lookupCurrent (name : string) (scope : Z) : Infer (option ValueDefinition) :=
  let* table := gets currentTable in
  let* tree := gets currentScopeTree in
  match table with
  | Some t => pure (lookupValue t tree name scope)
  | None => throw "TypeError: Cannot read properties of undefined"
  end.

Definition parameterEffect (name : string) (reference : Z) : Effect :=
  EQuantified ("e_" +:+ name +:+ "_" +:+ bigintToString reference).

Definition fetchSignature (opcode : string) (scope : Z) (arity : nat)
  : Infer (Either ErrorTree Effect) :=
  (* Assumes a valid number of arguments *)
  if String.eqb opcode "_" then
    let* v := nextFreshVar "_e" in pure (inr (EQuantified v))
  else
    match getSignatures opcode with
    | Some signatureFunction =>
        let* e := newInstance (signatureFunction arity) in pure (inr e)
    | None =>
        let* def := lookupCurrent opcode scope in
        let* location := gets location in
        match def with
        | None =>
            pure (inl (buildErrorLeaf location ("Signature not found for name: " +:+ opcode)))
        | Some def =>
            match truthy (defReference def) with
            | None =>
                pure (inl (buildErrorLeaf location
                             ("Signature not found for name: " +:+ opcode)))
            | Some id =>
                match defKind def with
                | KindParam => pure (inr (parameterEffect opcode id))
                | _ =>
                    let* r := fetchResult id in
                    match r with
                    | inl err => pure (inl err)
                    | inr e => let* e' := newInstance e in pure (inr e')
                    end
                end
            end
        end
    end.

Definition errorsPresent : Infer bool :=
  gets (fun st => negb (size (errors st) =? 0)%nat).

Definition pureEffect : Effect := EConcrete [].

(** ** The visitor's callbacks *)

Definition enterModuleDef (module : QuintModule) : Infer unit :=
  modify (fun st =>
    let stack := moduleStack st ++ [module] in
    setModules stack (Some module) (lookupTable (moduleName module))
      (treeFromModule module) st).

Definition exitModuleDef : Infer unit :=
  modify (fun st =>
    let stack := removelast (moduleStack st) in
    match last stack with
    | Some current =>
        setModules stack (Some current) (lookupTable (moduleName current))
          (treeFromModule current) st
    | None => setModules stack (currentModule st) (currentTable st) (currentScopeTree st) st
    end).

Definition enterExpr (e : QuintEx) : Infer unit :=
  modify (setLocation ("Inferring effect for " +:+ expressionToString e)).

Definition exitName (id : Z) (name : string) : Infer unit :=
  let* failed := errorsPresent in
  if failed then
    (* Don't try to infer application if there are errors with the args *)
    pure tt
  else
    let* def := lookupCurrent name id in
    let* location := gets location in
    match def with
    | None =>
        addToResults id
          (inl (ErrOne (buildErrorLeaf location
                          ("Couldn't find " +:+ name +:+ " in the lookup table"))))
    | Some def =>
        match defKind def with
        | KindParam =>
            match truthy (defReference def) with
            | Some reference =>
                addToResults id (inr (toScheme (parameterEffect name reference)))
            | None =>
                addToResults id
                  (inl (ErrOne (buildErrorLeaf location
                     ("Couldn't find an effect for lambda parameter named " +:+ name
                        +:+ " in context."))))
            end
        | KindConst => addToResults id (inr (toScheme pureEffect))
        | KindVar =>
            addToResults id
              (inr (toScheme
                      (EConcrete [mkComponent Read (VConcrete [mkStateVariable name id])])))
        | KindVal | KindDef =>
            let* _ :=
              match truthy (defReference def) with
              | Some reference =>
                  let* r := fetchResult reference in
                  addToResults id (mapLeft ErrOne r)
              | None => pure tt
              end in
            let* signature := fetchSignature name id 2 in
            match signature with
            | inl _ => pure tt
            | inr effect => addToResults id (inr (toScheme effect))
            end
        | KindOther => pure tt
        end
    end.

(** The arguments' entries are refreshed under the new substitutions. *)
Definition refreshArguments (s : Substitutions) (effects : list Effect) (ids : list Z)
  : Infer unit :=
  forEach
    (fun '(effect, id) =>
       if id =? 0 then throw "Invalid arrays"
       else
         addToResults id (mapLeft ErrOne (mapRight toScheme (applySubstitution s effect))))
    (zip effects ids).

Definition exitApp (id : Z) (opcode : string) (args : list QuintEx) (expr : QuintEx)
  : Infer unit :=
  let* failed := errorsPresent in
  if failed then
    (* Don't try to infer application if there are errors with the args *)
    pure tt
  else
    let* _ :=
      modify (setLocation ("Trying to infer effect for operator application in "
                             +:+ expressionToString expr)) in
    let* location := gets location in
    let* fetched :=
      mapInfer
        (fun a =>
           let* r := fetchResult (exprId a) in
           match r with
           | inl err => pure (inl err)
           | inr e => let* e' := newInstance e in pure (inr e')
           end)
        args in
    let paramsResult := mergeInMany fetched in
    let* v := nextFreshVar "e" in
    let resultEffect := EQuantified v in
    let arrowEffect := mapRight (fun params => EArrow params resultEffect) paramsResult in
    let* signature := fetchSignature opcode id (length args) in
    match mapLeft (fun err => buildErrorTree location (ErrOne err)) signature with
    | inl err => addToResults id (inl (ErrOne err))
    | inr signature =>
        let substitution :=
          chain (mapLeft ErrMany arrowEffect)
            (fun effect => mapLeft ErrOne (unify signature effect)) in
        let* current := gets substitutions in
        match chain substitution (fun s => compose current s) with
        | inl err => addToResults id (inl err)
        | inr s =>
            let* _ := modify (setSubstitutions s) in
            let* _ :=
              match paramsResult with
              | inr effects => refreshArguments s effects (map exprId args)
              | inl _ => pure tt
              end in
            match applySubstitution s resultEffect with
            | inl err => addToResults id (inl (ErrOne err))
            | inr effect => addToResults id (inr (toScheme effect))
            end
        end
    end.

(** Literals are always Pure. *)
Definition exitLiteral (id : Z) : Infer unit :=
  addToResults id (inr (toScheme pureEffect)).

Definition exitOpDef (id : Z) (body : QuintEx) : Infer unit :=
  let* failed := errorsPresent in
  if failed then
    (* Don't try to infer let if there are errors with the defined expression *)
    pure tt
  else
    let* result := fetchResult (exprId body) in
    (* Set the expression effect as the definition effect *)
    addToResults id (mapLeft ErrOne result).

Definition exitLet (id : Z) (body : QuintEx) : Infer unit :=
  let* failed := errorsPresent in
  if failed then pure tt
  else
    let* e := fetchResult (exprId body) in
    addToResults id (mapLeft ErrOne e).

(** The names of the parameters of an arrow: the sets built by the
    [reduce] over [effect.params]. *)
Definition nonFreeNames (params : list Effect) : list string * list string :=
  fold_left
    (fun names p =>
       let '(effectVariables, entityVariables) := effectNamesSets p in
       (newSet (fst names ++ effectVariables), newSet (snd names ++ entityVariables)))
    params ([], []).

(** The effect of one parameter of a lambda, under the substitutions found
    so far. *)
Definition lambdaParam (body : QuintEx) (p : string) : Infer (Either ErrorTree Effect) :=
  let* signature := fetchSignature p (exprId body) 2 in
  let* current := gets substitutions in
  pure (chain signature (fun e => applySubstitution current e)).

Definition exitLambda (id : Z) (params : list string) (body : QuintEx) : Infer unit :=
  let* failed := errorsPresent in
  if failed then pure tt
  else
    let* exprResult := fetchResult (exprId body) in
    let* fetched := mapInfer (lambdaParam body) params in
    let arrowScheme :=
      chain (mapLeft ErrOne exprResult) (fun resultEffect =>
        mapRight
          (fun ps => mkScheme (EArrow ps (effect resultEffect))
                       (effectVariables resultEffect) (entityVariables resultEffect))
          (mapLeft ErrMany (mergeInMany fetched))) in
    match arrowScheme with
    | inl err => addToResults id (inl err)
    | inr scheme =>
        let* instance := newInstanceUnbound scheme in
        let* current := gets substitutions in
        match applySubstitution current instance with
        | inl err => addToResults id (inl (ErrOne err))
        | inr (EArrow ps r as effect) =>
            let '(effectVariables, entityVariables) := nonFreeNames ps in
            addToResults id (inr (mkScheme effect effectVariables entityVariables))
        | inr effect =>
            (* Impossible *)
            throw ("Arrow effect after substitution should be an arrow: "
                     +:+ effectToString effect)
        end
    end.

(** ** The walk

    Modelled from the spec: the driver of the visitor is not among the
    sources.  It visits the tree in strict post-order, calling the callback
    of each node kind; a module, the root included, is entered and left as
    a module definition. *)
Fixpoint walkExpression (e : QuintEx) : Infer unit :=
  let* _ := enterExpr e in
  match e with
  | QuintName id name => exitName id name
  | QuintBool id _ | QuintInt id _ | QuintStr id _ => exitLiteral id
  | QuintApp id opcode args =>
      let* _ := forEach walkExpression args in
      exitApp id opcode args e
  | QuintLambda id params body =>
      let* _ := walkExpression body in
      exitLambda id params body
  | QuintLet id (mkOpDef defId _ defBody) body =>
      let* _ := walkExpression defBody in
      let* _ := exitOpDef defId defBody in
      let* _ := walkExpression body in
      exitLet id body
  end.

Fixpoint walkDefinition (d : QuintDef) : Infer unit :=
  match d with
  | DefOp (mkOpDef id _ body) =>
      let* _ := walkExpression body in
      exitOpDef id body
  | DefAssume _ _ assumption => walkExpression assumption
  | DefInstance _ _ overrides => forEach (fun o => walkExpression (snd o)) overrides
  | DefModule _ (mkModule name defs mid) =>
      let* _ := enterModuleDef (mkModule name defs mid) in
      let* _ := forEach walkDefinition defs in
      exitModuleDef
  | DefConst _ _ | DefVar _ _ | DefTypeDef _ _ | DefImport _ _ => pure tt
  end.

Definition walkModule (module : QuintModule) : Infer unit :=
  walkDefinition (DefModule (moduleId module) module).

(** Infers an effect for every expression in a module: the errors and the
    effects by expression id. *)
Definition inferEffects (module : QuintModule)
  : outcome (gmap Z ErrorTree * gmap Z EffectScheme) :=
  match walkModule module initialState with
  | Threw msg => Threw msg
  | Returned (_, st) => Returned (errors st, effects st)
  end.

(** ** Notions used to state the facts *)

(** Between two states nothing was inferred but literals: the errors, the
    substitutions and the generator are the same, and an entry of the
    effects is either the same or the scheme of a literal. *)
Definition onlyLiterals (st st' : InferState) : Prop :=
  errors st' = errors st /\
  substitutions st' = substitutions st /\
  freshVarGenerator st' = freshVarGenerator st /\
  forall i, effects st' !! i = effects st !! i \/
            effects st' !! i = Some (toScheme pureEffect).

(** A step that returns and infers literals only, after an error. *)
Definition skipped {A} (st : InferState) (m : A -> Infer unit) (x : A) : Prop :=
  exists st', m x st = Returned (tt, st') /\ onlyLiterals st st'.

(** The state after the generator alone has changed. *)
Definition sameButGenerator (st st' : InferState) : Prop :=
  st' = setFreshVarGenerator (freshVarGenerator st') st.

End EffectInferrer.

End Inferrer.

(** * Notions used to state the facts *)

(** The components of the concrete effects of a list, in order. *)
Definition concreteComponents (effects : list Effect) : list EffectComponent :=
  flat_map (fun e => match e with EConcrete cs => cs | _ => [] end) effects.

Definition isConcrete (e : Effect) : bool :=
  match e with EConcrete _ => true | _ => false end.

(** The variables of the components of one kind, in order. *)
Definition variablesOfKind (k : ComponentKind) (cs : list EffectComponent) : list Variables :=
  map variables (List.filter (fun c => ComponentKind_eqb (kind c) k) cs).

Definition componentsOfKind (k : ComponentKind) (cs : list EffectComponent)
  : list EffectComponent :=
  List.filter (fun c => ComponentKind_eqb (kind c) k) cs.

(** The quantified names of variables, in order of occurrence. *)
Definition quantifiedNames (v : Variables) : list string :=
  map nameOf (variablesNames v).

(** Variables made of quantified names only: a quantified variable, or a
    non-empty union of such. *)
Fixpoint onlyQuantified (v : Variables) : bool :=
  match v with
  | VConcrete _ => false
  | VQuantified _ _ => true
  | VUnion ms =>
      match ms with
      | [] => false
      | _ :: _ => forallb onlyQuantified ms
      end
  end.

(** The members of a flat union: quantified variables and sets of state
    variables. *)
Definition isLeaf (v : Variables) : bool :=
  match v with VUnion _ => false | _ => true end.

Definition isQuantified (v : Variables) : bool :=
  match v with VQuantified _ _ => true | _ => false end.

(** The members of a union that are not quantified variables. *)
Definition otherMembers (ms : list Variables) : list Variables :=
  List.filter (fun v => negb (isQuantified v)) ms.

Definition quantifiedMembers (ms : list Variables) : list string :=
  flat_map (fun v => match v with VQuantified n _ => [n] | _ => [] end) ms.


(** The Map of [tryToUnpack] after the components [cs], starting from [m]. *)
Definition groupByKind (cs : list EffectComponent)
    (m : list (ComponentKind * list Variables)) : list (ComponentKind * list Variables) :=
  fold_left (fun m c => pushByKind (kind c) (variables c) m) cs m.

Definition entriesOfKind (k : ComponentKind) (m : list (ComponentKind * list Variables))
  : list (ComponentKind * list Variables) :=
  List.filter (fun p => ComponentKind_eqb (fst p) k) m.

(** The state variables and the quantified variables of the examples. *)
Definition varX : StateVariable := mkStateVariable "x" 1.
Definition varY : StateVariable := mkStateVariable "y" 2.
Definition q (n : string) : Variables := VQuantified n None.

(** * What the inferrer consumes, modelled from the spec *)

Module InferrerModel.

(** Modelled from the spec: the lookup facility answers the binding kind
    and the defining id of a name.  This table holds one entry per name,
    visible from every scope. *)
Definition LookupTable : Type := list (string * Inferrer.ValueDefinition).

Fixpoint lookupValue (table : LookupTable) (tree : Inferrer.ScopeTree) (name : string)
    (scope : Z) : option Inferrer.ValueDefinition :=
  match table with
  | [] => None
  | (n, def) :: rest =>
      if String.eqb n name then Some def else lookupValue rest tree name scope
  end.

Definition treeFromModule (m : QuintModule) : Inferrer.ScopeTree :=
  Inferrer.mkScopeTree (moduleId m) [].

(** Modelled from the spec: fresh names use a monotonically increasing
    counter. *)
Definition freshVar (prefix : string) (counter : nat) : string * nat :=
  (prefix +:+ pretty counter, S counter).

Fixpoint expressionToString (e : QuintEx) : string :=
  match e with
  | QuintName _ name => name
  | QuintBool _ b => if b then "true" else "false"
  | QuintInt _ i => pretty i
  | QuintStr _ s => s
  | QuintApp _ opcode args => opcode +:+ "(" +:+ join ", " (map expressionToString args) +:+ ")"
  | QuintLambda _ params body =>
      "(" +:+ join ", " params +:+ " => " +:+ expressionToString body +:+ ")"
  | QuintLet _ (mkOpDef _ name defBody) body =>
      "val " +:+ name +:+ " = " +:+ expressionToString defBody +:+ " { "
        +:+ expressionToString body +:+ " }"
  end.

(** The unifier above, with the fuel it needs on the effects of the
    examples. *)
Definition unify (a b : Effect) : Either ErrorTree Substitutions :=
  match @unify SpecModel.printing SpecModel.simplification SpecModel.substitutionOps
          SpecModel.errorTrees 64 a b with
  | Some r => r
  | None => inl (mkErrorTree "unify" (Some "out of fuel") [])
  end.

(** No built-in signature: the operators of the examples are resolved
    through the lookup table. *)
Definition env : Inferrer.InferrerEnv :=
  Inferrer.Build_InferrerEnv LookupTable [] lookupValue treeFromModule (fun _ => None)
    nat 0%nat freshVar expressionToString unify.

Definition inferEffects (tables : string -> option LookupTable) (module : QuintModule)
  : outcome (gmap Z ErrorTree * gmap Z Inferrer.EffectScheme) :=
  @Inferrer.inferEffects SpecModel.printing SpecModel.substitutionOps SpecModel.errorTrees
    env tables module.

(** Two definitions whose bodies name nothing that is defined:
    [val a = x] and [val b = y]. *)
Definition twoUnknownNames : QuintModule :=
  mkModule "M"
    [DefOp (mkOpDef 2 "a" (QuintName 1 "x")); DefOp (mkOpDef 4 "b" (QuintName 3 "y"))] 5.

Definition secondUnknownName : QuintModule :=
  mkModule "M" [DefOp (mkOpDef 4 "b" (QuintName 3 "y"))] 5.

Definition noTable : string -> option LookupTable := fun _ => Some [].

(** [def f(p) = p] and [val c = f(1)]. *)
Definition identityModule : QuintModule :=
  mkModule "M"
    [DefOp (mkOpDef 3 "f" (QuintLambda 2 ["p"] (QuintName 1 "p")));
     DefOp (mkOpDef 6 "c" (QuintApp 5 "f" [QuintInt 4 1]))] 7.

Definition identityTable : string -> option LookupTable :=
  fun _ => Some [("p", Inferrer.mkValueDefinition Inferrer.KindParam (Some 1));
                 ("f", Inferrer.mkValueDefinition Inferrer.KindDef (Some 3))].

(** The state in which the lambda of [identityModule] is left: its body has
    been walked. *)
Definition stateBeforeLambda : @Inferrer.InferState env :=
  match
    @Inferrer.bind env _ _
      (@Inferrer.enterModuleDef env identityTable identityModule)
      (fun _ => @Inferrer.walkExpression SpecModel.printing SpecModel.substitutionOps
                  SpecModel.errorTrees env (QuintName 1 "p"))
      (@Inferrer.initialState env)
  with
  | Returned (_, st) => st
  | Threw _ => @Inferrer.initialState env
  end.

Definition stateAfterLambda : @Inferrer.InferState env :=
  match
    @Inferrer.exitLambda SpecModel.printing SpecModel.substitutionOps SpecModel.errorTrees
      env 2 ["p"] (QuintName 1 "p") stateBeforeLambda
  with
  | Returned (_, st) => st
  | Threw _ => stateBeforeLambda
  end.

(** The state in which the second definition of [twoUnknownNames] is
    reached: the first one has been walked. *)
Definition stateAfterFirstError : @Inferrer.InferState env :=
  match
    @Inferrer.bind env _ _
      (@Inferrer.enterModuleDef env noTable twoUnknownNames)
      (fun _ => @Inferrer.walkDefinition SpecModel.printing SpecModel.substitutionOps
                  SpecModel.errorTrees env noTable
                  (DefOp (mkOpDef 2 "a" (QuintName 1 "x"))))
      (@Inferrer.initialState env)
  with
  | Returned (_, st) => st
  | Threw _ => @Inferrer.initialState env
  end.

End InferrerModel.

(** * The interaction table of the kinds, in the spec's words *)

Section InteractionTable.

Context `{!SubstitutionOps}.


End InteractionTable.

(** * A lambda whose body is a lambda *)

Module NestedLambda.

(** [def g(p) = (q) => q]. *)
Definition innerLambda : QuintEx := QuintLambda 2 ["q"] (QuintName 1 "q").

Definition outerLambda : QuintEx := QuintLambda 3 ["p"] innerLambda.

Definition nestedModule : QuintModule :=
  mkModule "M" [DefOp (mkOpDef 4 "g" outerLambda)] 5.

Definition nestedTable : string -> option InferrerModel.LookupTable :=
  fun _ => Some [("q", Inferrer.mkValueDefinition Inferrer.KindParam (Some 1));
                 ("p", Inferrer.mkValueDefinition Inferrer.KindParam (Some 3));
                 ("g", Inferrer.mkValueDefinition Inferrer.KindDef (Some 4))].

(** The state in which the outer lambda is left: its body, the inner
    lambda, has been walked. *)
Definition stateBeforeOuterLambda : @Inferrer.InferState InferrerModel.env :=
  match
    @Inferrer.bind InferrerModel.env _ _
      (@Inferrer.enterModuleDef InferrerModel.env nestedTable nestedModule)
      (fun _ => @Inferrer.walkExpression SpecModel.printing SpecModel.substitutionOps
                  SpecModel.errorTrees InferrerModel.env innerLambda)
      (@Inferrer.initialState InferrerModel.env)
  with
  | Returned (_, st) => st
  | Threw _ => @Inferrer.initialState InferrerModel.env
  end.

End NestedLambda.

(** * More of the evaluator built-ins *)

Module Evaluator.

Import Builtins.

(** Like [toInt] and [toList]: throws on a value of another shape. *)
Definition toBool (v : RuntimeValue) : outcome bool :=
  match v with
  | RvBool b => Returned b
  | _ => Threw "Expected a Boolean value"
  end.

Section Strict.

Variable numberToString : Z -> string.

(** Further cases of the [switch] of [builtinLambda], each given the values
    that [toInt] and [toList] take out of its arguments.  [list.set] and
    [list.slice] are those of an immutable list, used within its bounds. *)

(** ['imod']: the remainder of bigints, which throws on a zero divisor. *)
Definition imod (a b : Z) : outcome (Either QuintError RuntimeValue) :=
  if b =? 0 then Threw "RangeError: Division by zero"
  else Returned (inr (RvInt (Z.rem a b))).

(** ['replaceAt']. *)
Definition replaceAt (list : list RuntimeValue) (i : Z) (v : RuntimeValue)
  : Either QuintError RuntimeValue :=
  let idx := Number i in
  if (idx <? 0) || (Z.of_nat (length list) <=? idx) then
    inl (mkQuintError "QNT510" ("Out of bounds, replaceAt(" +:+ numberToString idx +:+ ")"))
  else inr (RvList (<[Z.to_nat idx := v]> list)).

(** ['slice']. *)
Definition slice (list : list RuntimeValue) (s e : Z) : Either QuintError RuntimeValue :=
  let start := Number s in
  let end_ := Number e in
  if (start <? 0) || (end_ <? start) || (Z.of_nat (length list) <? end_) then
    inl (mkQuintError "QNT506"
           ("slice(..., " +:+ numberToString start +:+ ", " +:+ numberToString end_
              +:+ ") applied to a list of size "
              +:+ numberToString (Z.of_nat (length list))))
  else
    inr (RvList (take (Z.to_nat end_ - Z.to_nat start) (drop (Z.to_nat start) list))).

End Strict.

(** ** Folds *)

Inductive FoldOrder : Type := Fwd | Rev.

(** The lambda of a fold: an argument list to an error or a value; it may
    throw. *)
Definition FoldLambda : Type := list RuntimeValue -> outcome (Either QuintError RuntimeValue).

(** [acc.chain(accValue => ...)] inside the reducer. *)
Definition foldReducer (order : FoldOrder) (lambda : FoldLambda)
    (acc : outcome (Either QuintError RuntimeValue)) (val : RuntimeValue)
  : outcome (Either QuintError RuntimeValue) :=
  obind acc (fun acc =>
    match acc with
    | inl err => Returned (inl err)
    | inr accValue =>
        match order with
        | Fwd => lambda [accValue; val]
        | Rev => lambda [val; accValue]
        end
    end).

(** [reduce] from the left, [reduceRight] from the right. *)
Definition applyFold (order : FoldOrder) (iterable : list RuntimeValue)
    (initial : RuntimeValue) (lambda : FoldLambda)
  : outcome (Either QuintError RuntimeValue) :=
  match order with
  | Fwd => fold_left (foldReducer order lambda) iterable (Returned (inr initial))
  | Rev => fold_left (foldReducer order lambda) (rev iterable) (Returned (inr initial))
  end.




(** ['select'], given the list and the lambda of the arguments; the lambda
    is taken as a function of its argument. *)
Definition select (list : list RuntimeValue)
    (lam : RuntimeValue -> outcome (Either QuintError RuntimeValue))
  : outcome (Either QuintError RuntimeValue) :=
  let reducer : FoldLambda := fun args =>
    match args with
    | [acc; arg] =>
        obind (lam arg) (fun r =>
          match r with
          | inl err => Returned (inl err)
          | inr condition =>
              obind (toBool condition) (fun b =>
                if b then obind (toList acc) (fun l => Returned (inr (RvList (l ++ [arg]))))
                else Returned (inr acc))
          end)
    | _ => Threw "TypeError: Cannot read properties of undefined"
    end in
  applyFold Fwd list (RvList []) reducer.

(** ** Lazy operators *)

Section Lazy.

(** The evaluation context, and [ctx.shift()]: neither is among the
    sources. *)
Variable Context : Type.
Variable shift : Context -> Context.

(** An evaluation takes the context as it is and leaves it changed; it may
    throw. *)
Definition Evaluation (A : Type) : Type := Context -> outcome (A * Context).

Definition EvalFunction : Type := Evaluation (Either QuintError RuntimeValue).

Definition evalPure {A} (a : A) : Evaluation A := fun ctx => Returned (a, ctx).

Definition evalThrow {A} (msg : string) : Evaluation A := fun _ => Threw msg.

Definition evalBind {A B} (m : Evaluation A) (k : A -> Evaluation B) : Evaluation B :=
  fun ctx =>
    match m ctx with
    | Threw msg => Threw msg
    | Returned (a, ctx') => k a ctx'
    end.

(** [toBool] of a value within an evaluation. *)
Definition evalBool (v : RuntimeValue) : Evaluation bool :=
  fun ctx =>
    match toBool v with
    | Threw msg => Threw msg
    | Returned b => Returned (b, ctx)
    end.

(** [args[i]]: calling an absent argument throws. *)
Definition evalArg (args : list EvalFunction) (i : nat) : EvalFunction :=
  match args !! i with
  | Some f => f
  | None => evalThrow "TypeError: args[i] is not a function"
  end.

(** [m.chain(k)] on the result of an evaluation. *)
Definition evalChain (m : EvalFunction) (k : RuntimeValue -> EvalFunction) : EvalFunction :=
  evalBind m (fun r =>
    match r with
    | inl err => evalPure (inl err)
    | inr v => k v
    end).

(** The reducers of ['and'] and ['or']: the next argument is evaluated
    while the accumulated value is [continue]. *)
Definition lazyReducer (continue : bool) (acc : EvalFunction) (arg : EvalFunction)
  : EvalFunction :=
  evalChain acc (fun accValue =>
    evalBind (evalBool accValue) (fun b =>
      if Bool.eqb b continue then arg else evalPure (inr accValue))).

(** The lazy operators that touch the context through their arguments and
    [shift] only; [None] for the others of [lazyOps] (['actionAny'],
    ['actionAll'], ['matchVariant'], ['oneOf']), which are left out. *)
Definition lazyBuiltinLambda (op : string) : option (list EvalFunction -> EvalFunction) :=
  if String.eqb op "and" then
    Some (fun args => fold_left (lazyReducer true) args (evalPure (inr (RvBool true))))
  else if String.eqb op "or" then
    Some (fun args => fold_left (lazyReducer false) args (evalPure (inr (RvBool false))))
  else if String.eqb op "implies" then
    Some (fun args =>
      evalChain (evalArg args 0) (fun l =>
        evalBind (evalBool l) (fun b =>
          if negb b then evalPure (inr (RvBool true)) else evalArg args 1)))
  else if String.eqb op "ite" then
    Some (fun args =>
      evalChain (evalArg args 0) (fun condition =>
        evalBind (evalBool condition) (fun b =>
          if b then evalArg args 1 else evalArg args 2)))
  else if String.eqb op "then" then
    Some (fun args =>
      evalChain (evalArg args 0) (fun firstResult =>
        evalBind (evalBool firstResult) (fun b =>
          if negb b then
            evalPure (inl (mkQuintError "QNT513"
                             "Cannot continue in A.then(B), A evaluates to 'false'"))
          else fun ctx => evalArg args 1 (shift ctx))))
  else if existsb (String.eqb op) ["actionAny"; "actionAll"; "matchVariant"; "oneOf"] then
    None
  else Some (fun _ => evalPure (inl (mkQuintError "QNT000" "Unknown stateful op"))).

(** The evaluations of a list, one after the other from a context, all
    returning [v]: the context they leave. *)
Fixpoint allReturn (v : RuntimeValue) (args : list EvalFunction) (ctx ctx' : Context)
  : Prop :=
  match args with
  | [] => ctx' = ctx
  | f :: rest => exists mid, f ctx = Returned (inr v, mid) /\ allReturn v rest mid ctx'
  end.

End Lazy.

(** ** Arguments of the examples *)


Definition greaterThanOne (v : RuntimeValue) : bool :=
  match v with
  | RvInt n => 1 <? n
  | _ => false
  end.

(** An argument that answers [v]; the context counts the evaluations. *)
Definition tick (v : bool) : EvalFunction nat :=
  fun n => Returned (inr (RvBool v), S n).

End Evaluator.

(** * What the inferrer keeps between two states *)

Section InferrerInvariants.

Import Inferrer.

Context `{!Printing, !SubstitutionOps, !ErrorTrees, !InferrerEnv}.

Variable lookupTable : string -> option LookupTable.

(** The results at the ids outside [touched] are the same in both states. *)
Definition sameOutside (touched : Z -> Prop) (st st' : InferState) : Prop :=
  forall j, ~ touched j ->
    effects st' !! j = effects st !! j /\ errors st' !! j = errors st !! j.

(** An id that has an effect, or an error, still has one. *)
Definition keepsResults (st st' : InferState) : Prop :=
  (forall j, is_Some (effects st !! j) -> is_Some (effects st' !! j)) /\
  (forall j, is_Some (errors st !! j) -> is_Some (errors st' !! j)).

(** The module, its table, its scope tree and the stack are the same. *)
Definition sameModules (st st' : InferState) : Prop :=
  moduleStack st' = moduleStack st /\
  currentModule st' = currentModule st /\
  currentTable st' = currentTable st /\
  currentScopeTree st' = currentScopeTree st.

(** What a callback of an expression may do: write at the ids of
    [touched], without dropping a result, and leave the modules alone. *)
Definition writesAt (touched : Z -> Prop) (st st' : InferState) : Prop :=
  sameOutside touched st st' /\ keepsResults st st' /\ sameModules st st'.

(** Every run of [m] that returns relates the two states by [R]. *)
Definition respects {A} (R : InferState -> InferState -> Prop) (m : Infer A) : Prop :=
  forall st a st', m st = Returned (a, st') -> R st st'.

(** There is an effect or an error for the id. *)
Definition hasResult (st : InferState) (id : Z) : Prop :=
  is_Some (effects st !! id) \/ is_Some (errors st !! id).

(** Every run of [m] that returns leaves a result for the id. *)
Definition records (id : Z) (m : Infer unit) : Prop :=
  forall st st', m st = Returned (tt, st') -> hasResult st' id.

(** The current module is the top of the stack, with its table and its
    scope tree, as [updateCurrentModule] sets them. *)
Definition inModule (st : InferState) : Prop :=
  match last (moduleStack st) with
  | Some m =>
      currentModule st = Some m /\
      currentTable st = lookupTable (moduleName m) /\
      currentScopeTree st = treeFromModule m
  | None => True
  end.

(** The ids of the nodes of an expression, definitions included. *)
Fixpoint nodeIds (e : QuintEx) : list Z :=
  match e with
  | QuintName id _ | QuintBool id _ | QuintInt id _ | QuintStr id _ => [id]
  | QuintApp id _ args => id :: concat (map nodeIds args)
  | QuintLambda id _ body => id :: nodeIds body
  | QuintLet id (mkOpDef defId _ defBody) body =>
      id :: defId :: nodeIds defBody ++ nodeIds body
  end.

End InferrerInvariants.

(** * Runs of the inferrer on the examples *)

Module InferrerRuns.

Definition run {A} (m : @Inferrer.Infer InferrerModel.env A)
    (st : @Inferrer.InferState InferrerModel.env) : @Inferrer.InferState InferrerModel.env :=
  match m st with
  | Returned (_, st') => st'
  | Threw _ => st
  end.

(** Inside the module of [def f(p) = p]. *)
Definition stateInModule : @Inferrer.InferState InferrerModel.env :=
  run (@Inferrer.enterModuleDef InferrerModel.env InferrerModel.identityTable
         InferrerModel.identityModule)
    (@Inferrer.initialState InferrerModel.env).

(** [(p) => p], the body of [f]. *)
Definition identityLambda : QuintEx := QuintLambda 2 ["p"] (QuintName 1 "p").

Definition stateAfterIdentityLambda : @Inferrer.InferState InferrerModel.env :=
  run (@Inferrer.walkExpression SpecModel.printing SpecModel.substitutionOps
         SpecModel.errorTrees InferrerModel.env identityLambda)
    stateInModule.

(** A module nested in that of [f]: [module N { val k = 1 }]. *)
Definition nestedModule : QuintDef :=
  DefModule 10 (mkModule "N" [DefOp (mkOpDef 9 "k" (QuintInt 8 1))] 10).

Definition stateAfterNestedModule : @Inferrer.InferState InferrerModel.env :=
  run (@Inferrer.walkDefinition SpecModel.printing SpecModel.substitutionOps
         SpecModel.errorTrees InferrerModel.env InferrerModel.identityTable nestedModule)
    stateInModule.

End InferrerRuns.
(** * Facts about the evaluator built-ins *)

Section BuiltinFacts.

Import Builtins.

Variable numberToString : Z -> string.

(** Integers in the safe range are doubles. *)
Lemma roundToDouble_safe (z : Z) : Z.abs z < 2 ^ 53 -> roundToDouble z = z.
Proof.
  intros Hz. unfold roundToDouble.
  destruct (Z.ltb_spec (Z.abs z) (2 ^ 53)) as [_ | Hge]; [reflexivity | lia].
Qed.

(** The significand kept by the rounding has 53 bits. *)
Lemma significand_lower (a : Z) :
  2 ^ 53 <= a ->
  1 <= Z.log2 a - 52 /\ 2 ^ 52 <= a / 2 ^ (Z.log2 a - 52).
Proof.
  intros Ha.
  assert (Hlog : 53 <= Z.log2 a).
  { change 53 with (Z.log2 (2 ^ 53)). apply Z.log2_le_mono. exact Ha. }
  split; [lia |].
  assert (Hpos : 0 < a) by lia.
  destruct (Z.log2_spec a Hpos) as [Hlow _].
  replace (Z.log2 a) with (52 + (Z.log2 a - 52)) in Hlow at 1 by lia.
  rewrite Z.pow_add_r in Hlow by lia.
  apply Z.div_le_lower_bound; [apply Z.pow_pos_nonneg; lia | lia].
Qed.

Lemma rounded_significand (a k q r : Z) (b : bool) :
  1 <= k -> 2 ^ 52 <= q -> 2 ^ 53 <= (if b then q + 1 else q) * 2 ^ k.
Proof.
  intros Hk Hq.
  assert (H2 : 2 ^ 1 <= 2 ^ k) by (apply Z.pow_le_mono_r; lia).
  change (2 ^ 53) with (2 ^ 52 * 2 ^ 1).
  destruct b; apply Z.mul_le_mono_nonneg; lia.
Qed.

(** Rounding never brings a large integer back into the safe range. *)
Lemma roundToDouble_large (z : Z) : 2 ^ 53 <= z -> 2 ^ 53 <= roundToDouble z.
Proof.
  intros Hz. unfold roundToDouble.
  destruct (Z.ltb_spec (Z.abs z) (2 ^ 53)) as [Hlt | _]; [lia |].
  rewrite (Z.abs_eq z) by lia.
  destruct (significand_lower z Hz) as [Hk Hq].
  rewrite (Z.sgn_pos z) by lia. rewrite Z.mul_1_l.
  apply (rounded_significand z); assumption.
Qed.

Lemma roundToDouble_negative (z : Z) : z < 0 -> roundToDouble z < 0.
Proof.
  intros Hz. unfold roundToDouble.
  destruct (Z.ltb_spec (Z.abs z) (2 ^ 53)) as [Hlt | Hge]; [lia |].
  rewrite (Z.abs_neq z) in * by lia.
  destruct (significand_lower (- z) Hge) as [Hk Hq].
  rewrite (Z.sgn_neg z) by lia.
  pose proof (rounded_significand (- z) _ _ 0
    ((2 ^ (Z.log2 (- z) - 52 - 1) <? (- z) mod 2 ^ (Z.log2 (- z) - 52))
     || (((- z) mod 2 ^ (Z.log2 (- z) - 52) =? 2 ^ (Z.log2 (- z) - 52 - 1))
         && Z.odd (- z / 2 ^ (Z.log2 (- z) - 52)))) Hk Hq) as Hbig.
  lia.
Qed.

(** The index test of [getListElem], for an index that is in range. *)
Lemma getListElem_in_range (l : list RuntimeValue) (idx : Z) (x : RuntimeValue) :
  0 <= idx -> l !! Z.to_nat idx = Some x ->
  getListElem numberToString l idx = inr x.
Proof.
  intros Hidx Hx. unfold getListElem.
  apply lookup_lt_Some in Hx as Hlt.
  destruct (Z.leb_spec 0 idx); [| lia].
  destruct (Z.ltb_spec idx (Z.of_nat (length l))); [| lia].
  simpl. rewrite Hx. reflexivity.
Qed.

Lemma getListElem_out_of_range (l : list RuntimeValue) (idx : Z) :
  idx < 0 \/ Z.of_nat (length l) <= idx ->
  getListElem numberToString l idx =
    inl (mkQuintError "QNT510" ("Out of bounds, nth(" +:+ numberToString idx +:+ ")")).
Proof.
  intros Hout. unfold getListElem.
  destruct (Z.leb_spec 0 idx); destruct (Z.ltb_spec idx (Z.of_nat (length l)));
    simpl; try reflexivity; lia.
Qed.

(** Whatever the list and the index, [getListElem] answers the element or
    the QNT510 error. *)
Lemma getListElem_total (l : list RuntimeValue) (idx : Z) :
  (exists x, getListElem numberToString l idx = inr x) \/
  (exists msg, getListElem numberToString l idx = inl (mkQuintError "QNT510" msg)).
Proof.
  unfold getListElem.
  destruct ((0 <=? idx) && (idx <? Z.of_nat (length l))); [| right; eauto].
  destruct (l !! Z.to_nat idx); [left | right]; eauto.
Qed.

(** C9. ['ipow'] applied to integers [b] and [e] answers an error exactly
    when [b = 0] and [e = 0], or [e < 0]; the error has code QNT503; in every
    other case it answers the integer [b ^ e]. *)
Theorem ipow_error_iff (b e : Z) :
  let r := builtinLambda numberToString "ipow" [RvInt b; RvInt e] in
  ((exists err, r = Returned (inl err)) <-> ((b = 0 /\ e = 0) \/ e < 0)) /\
  (forall err, r = Returned (inl err) -> code err = "QNT503") /\
  (~ ((b = 0 /\ e = 0) \/ e < 0) -> r = Returned (inr (RvInt (b ^ e)))).
Proof.
  cbn -[Z.pow Z.eqb Z.ltb].
  destruct (Z.eqb_spec b 0) as [Hb | Hb]; destruct (Z.eqb_spec e 0) as [He | He];
    destruct (Z.ltb_spec e 0) as [Hlt | Hge]; cbn -[Z.pow];
    repeat split; try lia;
    try (intros [err Herr]; discriminate Herr);
    try (intros _; eexists; reflexivity);
    try (intros err [= <-]; reflexivity);
    try (intros err Herr; discriminate Herr);
    try reflexivity;
    try (intros Hno; exfalso; apply Hno; lia).
Qed.

(** C10. For a list [l] (its size a safe integer, as every list size is)
    and an integer [i]: ['nth'] answers the element at the 0-based position
    [i] when [0 <= i < length l] and the QNT510 error otherwise; ['item'] does
    the same with 1-based positions.  Neither throws. *)
Theorem nth_item_total (l : list RuntimeValue) (i : Z) :
  Z.of_nat (length l) < 2 ^ 53 ->
  let nth := builtinLambda numberToString "nth" [RvList l; RvInt i] in
  let item := builtinLambda numberToString "item" [RvList l; RvInt i] in
  (forall x, 0 <= i -> l !! Z.to_nat i = Some x -> nth = Returned (inr x)) /\
  (i < 0 \/ Z.of_nat (length l) <= i ->
     exists msg, nth = Returned (inl (mkQuintError "QNT510" msg))) /\
  (forall x, 1 <= i -> l !! Z.to_nat (i - 1) = Some x -> item = Returned (inr x)) /\
  (i < 1 \/ Z.of_nat (length l) < i ->
     exists msg, item = Returned (inl (mkQuintError "QNT510" msg))).
Proof.
  intros Hsize nth item. subst nth item.
  cbn -[getListElem Number numSub Z.pow]. unfold Number, numSub.
  repeat split.
  - intros x Hi Hx. apply lookup_lt_Some in Hx as Hlt.
    rewrite roundToDouble_safe by lia.
    f_equal. apply getListElem_in_range; assumption.
  - intros Hout. eexists. f_equal. apply getListElem_out_of_range.
    destruct Hout as [Hneg | Hbig].
    + left. apply roundToDouble_negative. exact Hneg.
    + right. destruct (Z_lt_le_dec i (2 ^ 53)) as [Hsafe | Hlarge].
      * rewrite roundToDouble_safe by lia. exact Hbig.
      * pose proof (roundToDouble_large i Hlarge). lia.
  - intros x Hi Hx. apply lookup_lt_Some in Hx as Hlt.
    rewrite (roundToDouble_safe i) by lia.
    rewrite roundToDouble_safe by lia.
    f_equal. apply getListElem_in_range; [lia | assumption].
  - intros Hout. eexists. f_equal. apply getListElem_out_of_range.
    destruct Hout as [Hneg | Hbig].
    + left. destruct (Z_lt_le_dec (- 2 ^ 53) i) as [Hsafe | Hlarge].
      * rewrite (roundToDouble_safe i) by lia.
        apply roundToDouble_negative. lia.
      * pose proof (roundToDouble_negative i ltac:(lia)).
        apply roundToDouble_negative. lia.
    + right. destruct (Z_lt_le_dec i (2 ^ 53)) as [Hsafe | Hlarge].
      * rewrite (roundToDouble_safe i) by lia.
        rewrite roundToDouble_safe by lia. lia.
      * pose proof (roundToDouble_large i Hlarge) as Hn.
        destruct (Z_lt_le_dec (roundToDouble i - 1) (2 ^ 53)) as [Hs | Hl].
        -- rewrite roundToDouble_safe by lia. lia.
        -- pose proof (roundToDouble_large _ Hl). lia.
Qed.

End BuiltinFacts.

(** The tuple [(10, 20, 30)]: its second item, and its element at index 1. *)
Lemma nth_item_total_witness :
  Builtins.builtinLambda (fun _ => "") "nth"
    [Builtins.RvList [Builtins.RvInt 10; Builtins.RvInt 20; Builtins.RvInt 30]; Builtins.RvInt 1]
    = Returned (inr (Builtins.RvInt 20)) /\
  Builtins.builtinLambda (fun _ => "") "item"
    [Builtins.RvList [Builtins.RvInt 10; Builtins.RvInt 20; Builtins.RvInt 30]; Builtins.RvInt 2]
    = Returned (inr (Builtins.RvInt 20)).
Proof.
  split.
  - apply (nth_item_total (fun _ => "")
      [Builtins.RvInt 10; Builtins.RvInt 20; Builtins.RvInt 30] 1);
      [simpl; lia | lia | reflexivity].
  - apply (nth_item_total (fun _ => "")
      [Builtins.RvInt 10; Builtins.RvInt 20; Builtins.RvInt 30] 2);
      [simpl; lia | lia | reflexivity].
Defined.

(** * Facts about the unifier *)

(** ** Structural equality *)

Lemma Variables_nested_ind (P : Variables -> Prop) :
  (forall vars, P (VConcrete vars)) ->
  (forall n r, P (VQuantified n r)) ->
  (forall members, Forall P members -> P (VUnion members)) ->
  forall v, P v.
Proof.
  intros Hconcrete Hquantified Hunion.
  fix IH 1. intros [vars | n r | members].
  - apply Hconcrete.
  - apply Hquantified.
  - apply Hunion. induction members as [| m rest IHrest]; constructor.
    + apply IH.
    + exact IHrest.
Qed.

Lemma StateVariable_eqb_eq (a b : StateVariable) :
  StateVariable_eqb a b = true <-> a = b.
Proof.
  destruct a as [n1 r1], b as [n2 r2]. unfold StateVariable_eqb. simpl.
  rewrite andb_true_iff, String.eqb_eq, Z.eqb_eq.
  split; [intros [-> ->]; reflexivity | intros [= -> ->]; auto].
Qed.

Lemma option_Z_eqb_eq (a b : option Z) : option_Z_eqb a b = true <-> a = b.
Proof.
  destruct a, b; simpl; try (split; congruence).
  rewrite Z.eqb_eq. split; congruence.
Qed.

Lemma list_eqb_eq {A} (eqb : A -> A -> bool) (l1 l2 : list A) :
  Forall (fun x => forall y, eqb x y = true <-> x = y) l1 ->
  list_eqb eqb l1 l2 = true <-> l1 = l2.
Proof.
  intros Hall. revert l2.
  induction Hall as [| x l1 Hx _ IH]; intros [| y l2]; simpl;
    try (split; congruence).
  rewrite andb_true_iff, Hx, IH. split; [intros [-> ->] | intros [= -> ->]]; auto.
Qed.

(** [isEqual] decides equality of variables. *)
Lemma Variables_eqb_eq (v1 v2 : Variables) : Variables_eqb v1 v2 = true <-> v1 = v2.
Proof.
  revert v2. induction v1 as [vars | n r | members IH] using Variables_nested_ind;
    intros [vars2 | n2 r2 | members2]; simpl; try (split; congruence).
  - rewrite list_eqb_eq.
    + split; congruence.
    + apply Forall_forall. intros x _ y. apply StateVariable_eqb_eq.
  - rewrite andb_true_iff, String.eqb_eq, option_Z_eqb_eq.
    split; [intros [-> ->] | intros [= -> ->]]; auto.
  - revert members2.
    induction IH as [| m rest Hm _ IHrest]; intros [| m2 rest2];
      try (split; congruence).
    rewrite andb_true_iff, Hm, IHrest.
    split; [intros [-> [= ->]] | intros [= -> ->]]; auto.
Qed.

Lemma isEqual_false (v1 v2 : Variables) : v1 <> v2 -> isEqual v1 v2 = false.
Proof.
  intros Hne. unfold isEqual. destruct (Variables_eqb v1 v2) eqn:E; [| reflexivity].
  apply Variables_eqb_eq in E. contradiction.
Qed.

Lemma isEqual_refl (v : Variables) : isEqual v v = true.
Proof. apply Variables_eqb_eq. reflexivity. Qed.

Section UnifierFacts.

Context `{!Printing, !Simplification, !SubstitutionOps, !ErrorTrees}.

(** ** The occurs check *)

Lemma existsb_isName (k : NameKind) (s : string) (names : list Name) :
  In (mkName k s) names -> existsb (isName k s) names = true.
Proof.
  intros Hin. apply existsb_exists. exists (mkName k s). split; [exact Hin |].
  unfold isName. simpl. rewrite String.eqb_refl. destruct k; reflexivity.
Qed.

Lemma bindEffect_cyclical (name : string) (effect : Effect) :
  In (mkName NameEffect name) (effectNames effect) ->
  bindEffect name effect =
    inl ("Can't bind " +:+ name +:+ " to " +:+ effectToString effect +:+ ": cyclical binding").
Proof. intros Hin. unfold bindEffect. rewrite existsb_isName by exact Hin. reflexivity. Qed.

Lemma bindVariables_cyclical (name : string) (variables : Variables) :
  In (mkName NameVariable name) (variablesNames variables) ->
  bindVariables name variables =
    inl ("Can't bind " +:+ name +:+ " to " +:+ variablesToString variables
           +:+ ": cyclical binding").
Proof. intros Hin. unfold bindVariables. rewrite existsb_isName by exact Hin. reflexivity. Qed.

(** C6. Binding a name to a value in which the name occurs free, the
    value not being the quantified variable of that name, fails with a
    "cyclical binding" message and produces no substitution; this holds for
    effects and for variables. *)
Theorem bind_occurs_check (name : string) :
  (forall effect : Effect,
     In (mkName NameEffect name) (effectNames effect) ->
     effect <> EQuantified name ->
     bindEffect name effect =
       inl ("Can't bind " +:+ name +:+ " to " +:+ effectToString effect
              +:+ ": cyclical binding")) /\
  (forall variables : Variables,
     In (mkName NameVariable name) (variablesNames variables) ->
     (forall r, variables <> VQuantified name r) ->
     bindVariables name variables =
       inl ("Can't bind " +:+ name +:+ " to " +:+ variablesToString variables
              +:+ ": cyclical binding")).
Proof.
  split.
  - intros effect Hin _. apply bindEffect_cyclical. exact Hin.
  - intros variables Hin _. apply bindVariables_cyclical. exact Hin.
Qed.

(** ** Equal printed forms *)

(** C5. When the simplified effects print the same, [unify] succeeds with
    the empty substitution (given fuel for one step). *)
Theorem unify_equal_prints (fuel : nat) (a b : Effect) :
  effectToString (simplify a) = effectToString (simplify b) ->
  unify (S fuel) a b = Some (inr []).
Proof.
  intros Hprint. simpl. rewrite Hprint, String.eqb_refl. reflexivity.
Qed.

(** ** Unions of variables *)

(** C7, as amended. When both variables flatten to unions, [unifyVariables]
    answers the empty substitution if the two flattened unions are deeply
    equal, and otherwise fails with the "not implemented" error; either way
    it returns. *)
Theorem unifyVariables_unions (fuel : nat) (va vb : Variables)
    (members1 members2 : list Variables) :
  flattenUnions va = VUnion members1 ->
  flattenUnions vb = VUnion members2 ->
  (members1 = members2 -> unifyVariables (S fuel) va vb = Some (inr [])) /\
  (members1 <> members2 ->
     unifyVariables (S fuel) va vb =
       Some (inl (mkErrorTree
                    ("Trying to unify variables [" +:+ variablesToString (VUnion members1)
                       +:+ "] and [" +:+ variablesToString (VUnion members2) +:+ "]")
                    (Some "Unification for unions of variables is not implemented") []))).
Proof.
  intros Hva Hvb. simpl. rewrite Hva, Hvb. split.
  - intros ->. rewrite isEqual_refl. reflexivity.
  - intros Hne. rewrite isEqual_false by congruence. reflexivity.
Qed.

(** ** The interaction of component kinds *)


(** In the inner [reduce], a compatible pair composes the empty
    substitution into the substitutions found so far. *)
Lemma unifyComponentsStep_compatible (fuel : nat) (location : string)
    (found : Substitutions) (ca cb : EffectComponent) :
  kind ca <> kind cb -> areCompatible ca cb = true ->
  unifyComponentsStep fuel location ca (Some (inr found)) cb = Some (compose found []).
Proof.
  intros Hkinds Hcompatible. unfold unifyComponentsStep, unifyComponents. simpl.
  unfold areCompatible in *. simpl in *.
  destruct (kind ca), (kind cb); simpl in *; try congruence; reflexivity.
Qed.

End UnifierFacts.

(** ** Two concrete effects *)

Section ConcreteFacts.

Context `{!Printing, !Simplification, !SubstitutionOps, !ErrorTrees}.










End ConcreteFacts.

(** ** Unpacking *)

Section UnpackFacts.

Context `{!Printing, !Simplification, !SubstitutionOps, !ErrorTrees}.

Lemma collectByKind_groupByKind (effects : list Effect) :
  collectByKind effects = groupByKind (concreteComponents effects) [].
Proof.
  unfold collectByKind. generalize (@nil (ComponentKind * list Variables)) as m.
  induction effects as [| e rest IH]; intros m; simpl; [reflexivity |].
  rewrite IH. unfold groupByKind. rewrite fold_left_app.
  destruct e; reflexivity.
Qed.

Lemma pushByKind_entries (k k0 : ComponentKind) (v : Variables)
    (m : list (ComponentKind * list Variables)) :
  entriesOfKind k (pushByKind k0 v m) =
    if ComponentKind_eqb k0 k then
      match entriesOfKind k m with
      | [] => [(k0, [v])]
      | (k', vs) :: rest => (k', vs ++ [v]) :: rest
      end
    else entriesOfKind k m.
Proof.
  induction m as [| [k' vs] rest IH]; simpl.
  - destruct k0, k; reflexivity.
  - destruct (ComponentKind_eqb k' k0) eqn:E0; simpl.
    + destruct k', k0, k; simpl in *; try discriminate; reflexivity.
    + rewrite IH. destruct k', k0, k; simpl in *; try discriminate; reflexivity.
Qed.

Lemma groupByKind_entries (k : ComponentKind) (cs : list EffectComponent)
    (m : list (ComponentKind * list Variables)) :
  entriesOfKind k (groupByKind cs m) =
    match entriesOfKind k m, variablesOfKind k cs with
    | [], [] => []
    | [], v :: vs => [(k, v :: vs)]
    | (k', vs0) :: rest, vs => (k', vs0 ++ vs) :: rest
    end.
Proof.
  revert m. induction cs as [| c cs IH]; intros m.
  - simpl. destruct (entriesOfKind k m) as [| [k' vs0] rest]; [reflexivity |].
    rewrite app_nil_r. reflexivity.
  - change (groupByKind (c :: cs) m)
      with (groupByKind cs (pushByKind (kind c) (variables c) m)).
    rewrite IH, pushByKind_entries. unfold variablesOfKind. simpl.
    destruct (ComponentKind_eqb (kind c) k) eqn:Ek; simpl.
    + assert (kind c = k) as <- by (destruct (kind c), k; simpl in Ek; congruence).
      destruct (entriesOfKind (kind c) m) as [| [k' vs0] rest]; simpl.
      * reflexivity.
      * rewrite <- app_assoc. reflexivity.
    + reflexivity.
Qed.

Lemma componentsOfKind_entries (k : ComponentKind)
    (m : list (ComponentKind * list Variables)) :
  componentsOfKind k (map (fun '(k0, vs) => mkComponent k0 (VUnion vs)) m)
  = map (fun '(k0, vs) => mkComponent k0 (VUnion vs)) (entriesOfKind k m).
Proof.
  unfold componentsOfKind, entriesOfKind.
  induction m as [| [k0 vs] rest IH]; [reflexivity |].
  cbn [map List.filter kind fst]. rewrite IH.
  destruct (ComponentKind_eqb k0 k); reflexivity.
Qed.

(** The unpacked effect has one component for each kind that occurs, and
    its variables are the union of all the variables of that kind. *)
Lemma unpackedEffect_components (effects : list Effect) (k : ComponentKind) :
  exists components,
    unpackedEffect effects = EConcrete components /\
    componentsOfKind k components =
      match variablesOfKind k (concreteComponents effects) with
      | [] => []
      | v :: vs => [mkComponent k (VUnion (v :: vs))]
      end.
Proof.
  unfold unpackedEffect. eexists. split; [reflexivity |].
  rewrite collectByKind_groupByKind.
  pose proof (groupByKind_entries k (concreteComponents effects) []) as Hentries.
  simpl in Hentries.
  set (m := groupByKind (concreteComponents effects) []) in *.
  rewrite componentsOfKind_entries, Hentries.
  destruct (variablesOfKind k (concreteComponents effects)); reflexivity.
Qed.

(** The two lists that [unifyArrows] walks together have the same length. *)
Lemma tryToUnpack_lengths (location : string) (p1 p2 p1' p2' : list Effect) :
  tryToUnpack location p1 p2 = inr (p1', p2') -> length p1' = length p2'.
Proof.
  unfold tryToUnpack.
  destruct (length p2 <? length p1)%nat.
  - destruct (Nat.eqb_spec (length p2) 1) as [Hone |]; [| discriminate].
    intros [= <- <-]. exact Hone.
  - destruct (Nat.eqb_spec (length p1) 1) as [Hone |]; [| discriminate].
    intros [= <- <-]. exact Hone.
Qed.

Lemma simplifyArrowEffect_length (params : list Effect) (result : Effect) :
  length (arrowParams (fst (simplifyArrowEffect params result))) = length params.
Proof.
  unfold simplifyArrowEffect.
  destruct params as [| [cs | ps r | n] [| e rest]]; try reflexivity.
  destruct (String.eqb _ _); reflexivity.
Qed.

(** C3, as amended. For parameter lists of differing lengths, unpacking
    succeeds exactly when the shorter list has length 1, whatever its single
    element; it then answers the shorter list and the one effect that stands
    for the longer list; when all the effects of the longer list are
    concrete, that effect is the simplification of a concrete effect with,
    for each kind that occurs, one component whose variables are the union
    of the variables of that kind.  When the shorter list's length is not 1,
    it fails with "Expected N arguments, got M". *)
Theorem tryToUnpack_differing_lengths (location : string) (p1 p2 : list Effect) :
  length p1 <> length p2 ->
  let shorter := if (length p2 <? length p1)%nat then p2 else p1 in
  let longer := if (length p2 <? length p1)%nat then p1 else p2 in
  (length shorter = 1%nat ->
     tryToUnpack location p1 p2 = inr (shorter, [simplify (unpackedEffect longer)])) /\
  (length shorter <> 1%nat ->
     tryToUnpack location p1 p2 =
       inl (buildErrorLeaf location
              ("Expected " +:+ lengthToString (length longer) +:+ " arguments, got "
                 +:+ lengthToString (length shorter)))) /\
  (forallb isConcrete longer = true ->
     forall k, exists components,
       unpackedEffect longer = EConcrete components /\
       componentsOfKind k components =
         match variablesOfKind k (concreteComponents longer) with
         | [] => []
         | v :: vs => [mkComponent k (VUnion (v :: vs))]
         end).
Proof.
  intros _ shorter longer. subst shorter longer. unfold tryToUnpack.
  destruct (length p2 <? length p1)%nat; repeat split.
  - intros Hone. rewrite Hone. reflexivity.
  - intros Hmany. destruct (Nat.eqb_spec (length p2) 1); [contradiction | reflexivity].
  - intros _ k. apply unpackedEffect_components.
  - intros Hone. rewrite Hone. reflexivity.
  - intros Hmany. destruct (Nat.eqb_spec (length p1) 1); [contradiction | reflexivity].
  - intros _ k. apply unpackedEffect_components.
Qed.

End UnpackFacts.

(** ** Hashed variables *)

Lemma append_assoc (s1 s2 s3 : string) : (s1 +:+ s2) +:+ s3 = s1 +:+ (s2 +:+ s3).
Proof.
  induction s1 as [| a s1 IH]; [reflexivity |].
  apply (f_equal (String a)) in IH. exact IH.
Qed.

Lemma join_app (sep : string) (l1 l2 : list string) :
  l1 <> [] -> l2 <> [] ->
  join sep (l1 ++ l2) = join sep l1 +:+ sep +:+ join sep l2.
Proof.
  intros H1 H2. induction l1 as [| x rest IH]; [contradiction |].
  destruct rest as [| y rest].
  - simpl. destruct l2; [contradiction | reflexivity].
  - change (join sep ((x :: y :: rest) ++ l2))
      with (x +:+ sep +:+ join sep ((y :: rest) ++ l2)).
    rewrite IH by discriminate.
    change (join sep (x :: y :: rest)) with (x +:+ sep +:+ join sep (y :: rest)).
    rewrite !append_assoc. reflexivity.
Qed.

(** Joining joined groups is joining their concatenation. *)
Lemma join_concat (sep : string) (groups : list (list string)) :
  Forall (fun g => g <> []) groups ->
  join sep (map (join sep) groups) = join sep (concat groups).
Proof.
  induction 1 as [| g rest Hg Hrest IH]; [reflexivity |].
  destruct rest as [| g2 rest].
  - simpl. rewrite app_nil_r. reflexivity.
  - change (join sep (map (join sep) (g :: g2 :: rest)))
      with (join sep g +:+ sep +:+ join sep (map (join sep) (g2 :: rest))).
    rewrite IH.
    change (concat (g :: g2 :: rest)) with (g ++ concat (g2 :: rest)).
    rewrite join_app; [reflexivity | exact Hg |].
    inversion Hrest as [| ? ? Hg2 _]; subst.
    destruct g2; [contradiction | discriminate].
Qed.

(** The [reduce] of [hashVariables] splits the members into the names of
    the quantified ones and the others. *)
Lemma hash_partition (nested : list Variables) (names : list string)
    (others : list Variables) :
  fold_left
    (fun '(name, variables) v =>
       match v with
       | VQuantified n _ => (name ++ [n], variables)
       | _ => (name, variables ++ [v])
       end)
    nested (names, others)
  = (names ++ quantifiedMembers nested, others ++ otherMembers nested).
Proof.
  revert names others. induction nested as [| v rest IH]; intros names others; simpl.
  - rewrite !app_nil_r. reflexivity.
  - destruct v; rewrite IH; simpl; rewrite <- ?app_assoc; reflexivity.
Qed.

Lemma hashVariables_union (members : list Variables) :
  hashVariables (VUnion members) =
    let nested := map hashVariables members in
    match quantifiedMembers nested, otherMembers nested with
    | [], [] => emptyVariables
    | [], v :: vs => VUnion (v :: vs)
    | n :: ns, [] => VQuantified (join "#" (n :: ns)) None
    | n :: ns, v :: vs => VUnion (VQuantified (join "#" (n :: ns)) None :: v :: vs)
    end.
Proof.
  change (hashVariables (VUnion members)) with
    (let nested := map hashVariables members in
     let '(name, variables) :=
       fold_left
         (fun '(name, variables) v =>
            match v with
            | VQuantified n _ => (name ++ [n], variables)
            | _ => (name, variables ++ [v])
            end)
         nested ([], []) in
     match name, variables with
     | [], [] => emptyVariables
     | [], _ :: _ => VUnion variables
     | _ :: _, [] => VQuantified (join "#" name) None
     | _ :: _, _ :: _ => VUnion (VQuantified (join "#" name) None :: variables)
     end).
  cbv zeta. rewrite hash_partition. simpl.
  destruct (quantifiedMembers (map hashVariables members)),
    (otherMembers (map hashVariables members)); reflexivity.
Qed.

Lemma quantifiedNames_union (members : list Variables) :
  quantifiedNames (VUnion members) = concat (map quantifiedNames members).
Proof.
  unfold quantifiedNames. simpl.
  induction members as [| m rest IH]; simpl; [reflexivity |].
  rewrite map_app, IH. reflexivity.
Qed.

(** Variables made of quantified names only are hashed to one quantified
    variable, named by joining those names. *)
Lemma hashVariables_onlyQuantified (v : Variables) :
  onlyQuantified v = true ->
  quantifiedNames v <> [] /\
  exists r, hashVariables v = VQuantified (join "#" (quantifiedNames v)) r.
Proof.
  induction v as [vars | n r | members IH] using Variables_nested_ind; intros Honly.
  - discriminate.
  - split; [discriminate | exists r; reflexivity].
  - assert (Hne : members <> []) by (destruct members; [discriminate | discriminate]).
    assert (Hall : forallb onlyQuantified members = true)
      by (destruct members; [discriminate | exact Honly]).
    clear Honly.
    assert (Hmembers :
      Forall (fun g => g <> []) (map quantifiedNames members) /\
      quantifiedMembers (map hashVariables members)
        = map (join "#") (map quantifiedNames members) /\
      otherMembers (map hashVariables members) = []).
    { clear Hne. induction IH as [| m rest Hm _ IHrest]; simpl.
      - repeat split; constructor.
      - simpl in Hall. apply andb_true_iff in Hall as [Hm1 Hrest].
        destruct (Hm Hm1) as [Hnames [r Hr]].
        destruct (IHrest Hrest) as (Hgroups & Hq & Ho).
        rewrite Hr. simpl. rewrite Hq, Ho. repeat split.
        constructor; assumption. }
    destruct Hmembers as (Hgroups & Hq & Ho).
    rewrite quantifiedNames_union. split.
    + destruct members as [| m rest]; [contradiction |].
      inversion Hgroups as [| ? ? Hg _]; subst. simpl.
      destruct (quantifiedNames m); [contradiction | discriminate].
    + exists None. rewrite hashVariables_union. cbv zeta. rewrite Hq, Ho.
      destruct members as [| m rest]; [contradiction |].
      rewrite <- join_concat by exact Hgroups. reflexivity.
Qed.

Lemma hashVariables_leaf (v : Variables) : isLeaf v = true -> hashVariables v = v.
Proof. destruct v; [reflexivity | reflexivity | discriminate]. Qed.

Lemma map_hashVariables_leaves (members : list Variables) :
  forallb isLeaf members = true -> map hashVariables members = members.
Proof.
  induction members as [| m rest IH]; simpl; [reflexivity |].
  intros Hall. apply andb_true_iff in Hall as [Hm Hrest].
  rewrite hashVariables_leaf, IH by assumption. reflexivity.
Qed.

Lemma quantifiedNames_leaves (members : list Variables) :
  forallb isLeaf members = true ->
  quantifiedNames (VUnion members) = quantifiedMembers members.
Proof.
  rewrite quantifiedNames_union.
  induction members as [| m rest IH]; simpl; [reflexivity |].
  intros Hall. apply andb_true_iff in Hall as [Hm Hrest].
  rewrite IH by assumption. destruct m; [reflexivity | reflexivity | discriminate].
Qed.

(** A flat union that holds quantified names and state variables keeps the
    state variables beside the hashed variable. *)
Lemma hashVariables_mixed (members : list Variables) :
  forallb isLeaf members = true ->
  quantifiedNames (VUnion members) <> [] ->
  otherMembers members <> [] ->
  hashVariables (VUnion members) =
    VUnion (VQuantified (join "#" (quantifiedNames (VUnion members))) None
              :: otherMembers members).
Proof.
  intros Hflat Hnames Hothers.
  rewrite hashVariables_union. cbv zeta.
  rewrite map_hashVariables_leaves by exact Hflat.
  rewrite quantifiedNames_leaves in * by exact Hflat.
  destruct (quantifiedMembers members); [contradiction |].
  destruct (otherMembers members); [contradiction | reflexivity].
Qed.

Section ArrowFacts.

Context `{!Printing}.

(** C4, as amended. When the single parameter of a unary arrow is concrete
    and prints equal to the result, every component's variables are replaced
    by their hashed form and every quantified name of a component is bound
    to that component's hashed variables.  The hashed form of variables made
    of quantified names only is the hash variable, named by joining those
    names with [#]; the hashed form of a flat union that also holds state
    variables is the union of the hash variable and those state variables;
    state variables alone are unchanged. *)
Theorem simplifyArrowEffect_hashes (components : list EffectComponent) (result : Effect) :
  effectToString (EConcrete components) = effectToString result ->
  let simplified := simplifyArrowEffect [EConcrete components] result in
  arrowResult (fst simplified) = result /\
  arrowParams (fst simplified) =
    [EConcrete (map (fun c => mkComponent (kind c) (hashVariables (variables c)))
                  components)] /\
  snd simplified =
    flat_map (fun c => map (fun n => SubVariable n (hashVariables (variables c)))
                         (quantifiedNames (variables c)))
      components /\
  (forall c, In c components -> onlyQuantified (variables c) = true ->
     exists r, hashVariables (variables c)
               = VQuantified (join "#" (quantifiedNames (variables c))) r) /\
  (forall c members, In c components -> variables c = VUnion members ->
     forallb isLeaf members = true ->
     quantifiedNames (VUnion members) <> [] ->
     otherMembers members <> [] ->
     hashVariables (variables c) =
       VUnion (VQuantified (join "#" (quantifiedNames (VUnion members))) None
                 :: otherMembers members)) /\
  (forall c vars, In c components -> variables c = VConcrete vars ->
     hashVariables (variables c) = VConcrete vars).
Proof.
  intros Hprint simplified. subst simplified.
  unfold simplifyArrowEffect. rewrite Hprint, String.eqb_refl. simpl.
  repeat split.
  - clear Hprint. unfold hashBindings, quantifiedNames.
    induction components as [| c rest IH]; simpl; [reflexivity |].
    rewrite IH, map_map. reflexivity.
  - intros c _ Honly. apply hashVariables_onlyQuantified. exact Honly.
  - intros c members _ -> Hflat Hnames Hothers.
    apply hashVariables_mixed; assumption.
  - intros c vars _ ->. reflexivity.
Qed.

End ArrowFacts.

(** * Facts about the inferrer *)

(** ** Induction over expressions and definitions *)

Lemma QuintEx_nested_ind (P : QuintEx -> Prop) :
  (forall id name, P (QuintName id name)) ->
  (forall id b, P (QuintBool id b)) ->
  (forall id i, P (QuintInt id i)) ->
  (forall id s, P (QuintStr id s)) ->
  (forall id opcode args, Forall P args -> P (QuintApp id opcode args)) ->
  (forall id params body, P body -> P (QuintLambda id params body)) ->
  (forall id defId name defBody body,
     P defBody -> P body -> P (QuintLet id (mkOpDef defId name defBody) body)) ->
  forall e, P e.
Proof.
  intros Hname Hbool Hint Hstr Happ Hlambda Hlet.
  fix IH 1. intros [id name | id b | id i | id s | id opcode args | id params body
                   | id [defId name defBody] body].
  - apply Hname.
  - apply Hbool.
  - apply Hint.
  - apply Hstr.
  - apply Happ. induction args as [| a rest IHrest]; constructor; [apply IH | exact IHrest].
  - apply Hlambda. apply IH.
  - apply Hlet; apply IH.
Qed.

Lemma QuintDef_nested_ind (P : QuintDef -> Prop) :
  (forall def, P (DefOp def)) ->
  (forall id name, P (DefConst id name)) ->
  (forall id name, P (DefVar id name)) ->
  (forall id name, P (DefTypeDef id name)) ->
  (forall id name assumption, P (DefAssume id name assumption)) ->
  (forall id path, P (DefImport id path)) ->
  (forall id name overrides, P (DefInstance id name overrides)) ->
  (forall id name defs mid, Forall P defs -> P (DefModule id (mkModule name defs mid))) ->
  forall d, P d.
Proof.
  intros Hop Hconst Hvar Htype Hassume Himport Hinstance Hmodule.
  fix IH 1. intros [def | id name | id name | id name | id name assumption | id path
                   | id name overrides | id [name defs mid]].
  - apply Hop.
  - apply Hconst.
  - apply Hvar.
  - apply Htype.
  - apply Hassume.
  - apply Himport.
  - apply Hinstance.
  - apply Hmodule. induction defs as [| d rest IHrest]; constructor; [apply IH | exact IHrest].
Qed.

(** ** Sets of names *)

Lemma newSet_step_In (l acc : list string) (x : string) :
  In x (fold_left (fun s y => if existsb (String.eqb y) s then s else s ++ [y]) l acc)
  <-> In x acc \/ In x l.
Proof.
  revert acc. induction l as [| y rest IH]; intros acc; simpl.
  - tauto.
  - rewrite IH. destruct (existsb (String.eqb y) acc) eqn:E.
    + apply existsb_exists in E as (z & Hz & Heq). apply String.eqb_eq in Heq. subst z.
      split; [tauto |]. intros [H | [-> | H]]; auto.
    + rewrite in_app_iff. simpl. tauto.
Qed.

Lemma newSet_step_NoDup (l acc : list string) :
  List.NoDup acc ->
  List.NoDup (fold_left (fun s y => if existsb (String.eqb y) s then s else s ++ [y]) l acc).
Proof.
  revert acc. induction l as [| y rest IH]; intros acc Hacc; simpl; [exact Hacc |].
  apply IH. destruct (existsb (String.eqb y) acc) eqn:E; [exact Hacc |].
  apply List.NoDup_app; [exact Hacc | repeat constructor; intros [] |].
  intros z Hz [-> | []].
  assert (existsb (String.eqb z) acc = true); [| congruence].
  apply existsb_exists. exists z. split; [exact Hz | apply String.eqb_refl].
Qed.

Lemma newSet_In (l : list string) (x : string) : In x (Inferrer.newSet l) <-> In x l.
Proof. unfold Inferrer.newSet. rewrite newSet_step_In. simpl. tauto. Qed.

Lemma newSet_NoDup (l : list string) : List.NoDup (Inferrer.newSet l).
Proof. apply newSet_step_NoDup. constructor. Qed.

Lemma namesOfKind_In (k : NameKind) (e : Effect) (n : string) :
  In n (Inferrer.namesOfKind k e) <-> In (mkName k n) (effectNames e).
Proof.
  unfold Inferrer.namesOfKind. rewrite in_map_iff. split.
  - intros ([k' n'] & Hn & Hin). simpl in Hn. subst n'.
    apply filter_In in Hin as [Hin Hk]. simpl in Hk.
    destruct k', k; simpl in Hk; try discriminate; exact Hin.
  - intros Hin. exists (mkName k n). split; [reflexivity |].
    apply filter_In. split; [exact Hin | destruct k; reflexivity].
Qed.

(** The quantifier sets computed for a lambda hold exactly the names of the
    parameters of its arrow. *)
Lemma nonFreeNames_spec (params : list Effect) :
  (forall n, In n (fst (Inferrer.nonFreeNames params)) <->
             exists p, In p params /\ In (mkName NameEffect n) (effectNames p)) /\
  (forall n, In n (snd (Inferrer.nonFreeNames params)) <->
             exists p, In p params /\ In (mkName NameVariable n) (effectNames p)) /\
  List.NoDup (fst (Inferrer.nonFreeNames params)) /\
  List.NoDup (snd (Inferrer.nonFreeNames params)).
Proof.
  unfold Inferrer.nonFreeNames.
  assert (Hgen : forall (acc : list string * list string),
    List.NoDup (fst acc) -> List.NoDup (snd acc) ->
    let final :=
      fold_left
        (fun names p =>
           let '(effectVariables, entityVariables) := Inferrer.effectNamesSets p in
           (Inferrer.newSet (fst names ++ effectVariables),
            Inferrer.newSet (snd names ++ entityVariables)))
        params acc in
    (forall n, In n (fst final) <->
               In n (fst acc) \/
               exists p, In p params /\ In (mkName NameEffect n) (effectNames p)) /\
    (forall n, In n (snd final) <->
               In n (snd acc) \/
               exists p, In p params /\ In (mkName NameVariable n) (effectNames p)) /\
    List.NoDup (fst final) /\ List.NoDup (snd final)).
  { induction params as [| p rest IH]; intros acc Hfst Hsnd; simpl.
    - repeat split; try assumption; try tauto;
        intros [H | (p & [] & _)]; exact H.
    - destruct (IH (Inferrer.newSet (fst acc ++ Inferrer.newSet (Inferrer.namesOfKind NameEffect p)),
                    Inferrer.newSet (snd acc ++ Inferrer.newSet (Inferrer.namesOfKind NameVariable p)))
                  (newSet_NoDup _) (newSet_NoDup _)) as (He & Hv & Hd1 & Hd2).
      simpl in He, Hv, Hd1, Hd2. repeat split; try assumption.
      + intros Hin. apply He in Hin as [Hin | (q & Hq & Hn)].
        * apply newSet_In, in_app_iff in Hin as [Hin | Hin]; [left; exact Hin |].
          apply newSet_In, namesOfKind_In in Hin. right. eauto.
        * right. eauto.
      + intros Hin. apply He. destruct Hin as [Hin | (q & [<- | Hq] & Hn)].
        * left. apply newSet_In, in_app_iff. left. exact Hin.
        * left. apply newSet_In, in_app_iff. right. apply newSet_In, namesOfKind_In. exact Hn.
        * right. eauto.
      + intros Hin. apply Hv in Hin as [Hin | (q & Hq & Hn)].
        * apply newSet_In, in_app_iff in Hin as [Hin | Hin]; [left; exact Hin |].
          apply newSet_In, namesOfKind_In in Hin. right. eauto.
        * right. eauto.
      + intros Hin. apply Hv. destruct Hin as [Hin | (q & [<- | Hq] & Hn)].
        * left. apply newSet_In, in_app_iff. left. exact Hin.
        * left. apply newSet_In, in_app_iff. right. apply newSet_In, namesOfKind_In. exact Hn.
        * right. eauto. }
  destruct (Hgen ([], []) (List.NoDup_nil _) (List.NoDup_nil _)) as (He & Hv & Hd1 & Hd2).
  simpl in He, Hv. repeat split; try assumption.
  - intros Hin. apply He in Hin as [[] | Hin]. exact Hin.
  - intros Hin. apply He. right. exact Hin.
  - intros Hin. apply Hv in Hin as [[] | Hin]. exact Hin.
  - intros Hin. apply Hv. right. exact Hin.
Qed.

Section InferrerFacts.

Import Inferrer.

Context `{!Printing, !SubstitutionOps, !ErrorTrees, !InferrerEnv}.

Variable lookupTable : string -> option LookupTable.

(** ** Once an error is recorded *)

Lemma errorsPresent_recorded (st : InferState) (i : Z) (err : ErrorTree) :
  errors st !! i = Some err -> errorsPresent st = Returned (true, st).
Proof.
  intros Herr. unfold errorsPresent, gets.
  destruct (Nat.eqb_spec (size (errors st)) 0) as [Hzero | Hpos]; [| reflexivity].
  apply map_size_empty_iff in Hzero. rewrite Hzero, lookup_empty in Herr. discriminate.
Qed.

Lemma errorsPresent_none (st : InferState) :
  size (errors st) = 0%nat -> errorsPresent st = Returned (false, st).
Proof. intros Hzero. unfold errorsPresent, gets. rewrite Hzero. reflexivity. Qed.

Lemma onlyLiterals_refl (st : InferState) : onlyLiterals st st.
Proof. unfold onlyLiterals. auto. Qed.

Lemma onlyLiterals_trans (st1 st2 st3 : InferState) :
  onlyLiterals st1 st2 -> onlyLiterals st2 st3 -> onlyLiterals st1 st3.
Proof.
  intros (He1 & Hs1 & Hg1 & Hf1) (He2 & Hs2 & Hg2 & Hf2).
  repeat split; try congruence.
  intros i. destruct (Hf2 i) as [Hsame | Hpure]; [| right; exact Hpure].
  rewrite Hsame. apply Hf1.
Qed.

Lemma onlyLiterals_location (st : InferState) (l : string) :
  onlyLiterals st (setLocation l st).
Proof. unfold onlyLiterals. simpl. auto. Qed.

Lemma onlyLiterals_modules (st : InferState) stack current table tree :
  onlyLiterals st (setModules stack current table tree st).
Proof. unfold onlyLiterals. simpl. auto. Qed.

Lemma exitLiteral_onlyLiterals (id : Z) (st : InferState) :
  exists st', exitLiteral id st = Returned (tt, st') /\ onlyLiterals st st'.
Proof.
  eexists. split; [reflexivity |].
  unfold onlyLiterals. simpl. repeat split.
  intros i. destruct (decide (id = i)) as [-> | Hne].
  - right. apply lookup_insert_eq.
  - left. apply lookup_insert_ne. exact Hne.
Qed.

(** Recorded errors survive under [onlyLiterals]. *)
Lemma onlyLiterals_recorded (st st' : InferState) (i : Z) (err : ErrorTree) :
  onlyLiterals st st' -> errors st !! i = Some err -> errors st' !! i = Some err.
Proof. intros (He & _) Herr. rewrite He. exact Herr. Qed.

Lemma forEach_skipped {A} (f : A -> Infer unit) (l : list A) (i : Z) (err : ErrorTree) :
  Forall (fun x => forall st, errors st !! i = Some err -> skipped st f x) l ->
  forall st, errors st !! i = Some err ->
  exists st', forEach f l st = Returned (tt, st') /\ onlyLiterals st st'.
Proof.
  induction 1 as [| x rest Hx _ IH]; intros st Herr; simpl.
  - eexists. split; [reflexivity | apply onlyLiterals_refl].
  - destruct (Hx st Herr) as (st1 & Hrun1 & Hfrozen1).
    destruct (IH st1 (onlyLiterals_recorded _ _ _ _ Hfrozen1 Herr)) as (st2 & Hrun2 & Hfrozen2).
    exists st2. unfold bind. rewrite Hrun1. split; [exact Hrun2 |].
    apply (onlyLiterals_trans _ st1); assumption.
Qed.

Lemma bind_Returned {A B} (m : Infer A) (k : A -> Infer B) (st : InferState)
    (a : A) (st1 : InferState) :
  m st = Returned (a, st1) -> bind m k st = k a st1.
Proof. intros Hrun. unfold bind. rewrite Hrun. reflexivity. Qed.

Lemma bind_Threw {A B} (m : Infer A) (k : A -> Infer B) (st : InferState) (msg : string) :
  m st = Threw msg -> bind m k st = Threw msg.
Proof. intros Hrun. unfold bind. rewrite Hrun. reflexivity. Qed.

Lemma enterExpr_run (e : QuintEx) (st : InferState) :
  enterExpr e st
  = Returned (tt, setLocation ("Inferring effect for " +:+ expressionToString e) st).
Proof. reflexivity. Qed.

Ltac run H := rewrite (bind_Returned _ _ _ _ _ H).

(** The guard of the callbacks. *)
Lemma exitName_skipped (st : InferState) (i : Z) (err : ErrorTree) (id : Z) (name : string) :
  errors st !! i = Some err -> exitName id name st = Returned (tt, st).
Proof.
  intros Herr. unfold exitName. run (errorsPresent_recorded st i err Herr). reflexivity.
Qed.

Lemma exitApp_skipped (st : InferState) (i : Z) (err : ErrorTree) (id : Z) (opcode : string)
    (args : list QuintEx) (expr : QuintEx) :
  errors st !! i = Some err -> exitApp id opcode args expr st = Returned (tt, st).
Proof.
  intros Herr. unfold exitApp. run (errorsPresent_recorded st i err Herr). reflexivity.
Qed.

Lemma exitOpDef_skipped (st : InferState) (i : Z) (err : ErrorTree) (id : Z) (body : QuintEx) :
  errors st !! i = Some err -> exitOpDef id body st = Returned (tt, st).
Proof.
  intros Herr. unfold exitOpDef. run (errorsPresent_recorded st i err Herr). reflexivity.
Qed.

Lemma exitLet_skipped (st : InferState) (i : Z) (err : ErrorTree) (id : Z) (body : QuintEx) :
  errors st !! i = Some err -> exitLet id body st = Returned (tt, st).
Proof.
  intros Herr. unfold exitLet. run (errorsPresent_recorded st i err Herr). reflexivity.
Qed.

Lemma exitLambda_skipped (st : InferState) (i : Z) (err : ErrorTree) (id : Z)
    (params : list string) (body : QuintEx) :
  errors st !! i = Some err -> exitLambda id params body st = Returned (tt, st).
Proof.
  intros Herr. unfold exitLambda. run (errorsPresent_recorded st i err Herr). reflexivity.
Qed.

Lemma walkExpression_after_error (i : Z) (err : ErrorTree) (e : QuintEx) :
  forall st, errors st !! i = Some err -> skipped st walkExpression e.
Proof.
  unfold skipped.
  induction e as [id name | id b | id n | id s | id opcode args IH | id params body IH
                 | id defId name defBody body IHdef IHbody] using QuintEx_nested_ind;
    intros st Herr; cbn [walkExpression];
    match goal with |- context [enterExpr ?e] => run (enterExpr_run e st) end;
    match goal with |- context [setLocation ?l st] => set (st0 := setLocation l st) end;
    assert (Hloc : onlyLiterals st st0) by apply onlyLiterals_location;
    assert (Herr0 : errors st0 !! i = Some err) by exact Herr.
  - exists st0. split; [| exact Hloc]. apply (exitName_skipped st0 i err). exact Herr0.
  - destruct (exitLiteral_onlyLiterals id st0) as (st' & Hrun & Hfrozen).
    exists st'. split; [exact Hrun | apply (onlyLiterals_trans _ st0); assumption].
  - destruct (exitLiteral_onlyLiterals id st0) as (st' & Hrun & Hfrozen).
    exists st'. split; [exact Hrun | apply (onlyLiterals_trans _ st0); assumption].
  - destruct (exitLiteral_onlyLiterals id st0) as (st' & Hrun & Hfrozen).
    exists st'. split; [exact Hrun | apply (onlyLiterals_trans _ st0); assumption].
  - destruct (forEach_skipped walkExpression args i err IH st0 Herr0)
      as (st1 & Hrun1 & Hfrozen1).
    exists st1. split; [| apply (onlyLiterals_trans _ st0); assumption].
    run Hrun1. apply (exitApp_skipped st1 i err).
    apply (onlyLiterals_recorded st0 st1); assumption.
  - destruct (IH st0 Herr0) as (st1 & Hrun1 & Hfrozen1).
    exists st1. split; [| apply (onlyLiterals_trans _ st0); assumption].
    run Hrun1. apply (exitLambda_skipped st1 i err).
    apply (onlyLiterals_recorded st0 st1); assumption.
  - destruct (IHdef st0 Herr0) as (st1 & Hrun1 & Hfrozen1).
    pose proof (onlyLiterals_recorded _ _ _ _ Hfrozen1 Herr0) as Herr1.
    destruct (IHbody st1 Herr1) as (st2 & Hrun2 & Hfrozen2).
    pose proof (onlyLiterals_recorded _ _ _ _ Hfrozen2 Herr1) as Herr2.
    exists st2. split.
    + run Hrun1. run (exitOpDef_skipped st1 i err defId defBody Herr1).
      run Hrun2. apply (exitLet_skipped st2 i err). exact Herr2.
    + apply (onlyLiterals_trans _ st0); [exact Hloc |].
      apply (onlyLiterals_trans _ st1); assumption.
Qed.

Lemma exitModuleDef_onlyLiterals (st : InferState) :
  exists st', exitModuleDef lookupTable st = Returned (tt, st') /\ onlyLiterals st st'.
Proof.
  unfold exitModuleDef, modify. eexists. split; [reflexivity |].
  cbv zeta. destruct (last (removelast (moduleStack st))); apply onlyLiterals_modules.
Qed.

Lemma walkDefinition_after_error (i : Z) (err : ErrorTree) (d : QuintDef) :
  forall st, errors st !! i = Some err -> skipped st (walkDefinition lookupTable) d.
Proof.
  unfold skipped.
  induction d as [[id name body] | id name | id name | id name | id name assumption
                 | id path | id name overrides | id name defs mid IH]
    using QuintDef_nested_ind; intros st Herr;
    try (exists st; split; [reflexivity | apply onlyLiterals_refl]).
  - destruct (walkExpression_after_error i err body st Herr) as (st1 & Hrun1 & Hfrozen1).
    exists st1. split; [| exact Hfrozen1].
    cbn [walkDefinition]. run Hrun1. apply (exitOpDef_skipped st1 i err).
    apply (onlyLiterals_recorded st st1); assumption.
  - apply (walkExpression_after_error i err assumption st Herr).
  - cbn [walkDefinition].
    apply (forEach_skipped (fun o => walkExpression o.2) overrides i err); [| exact Herr].
    apply Forall_forall. intros o _ st0 Herr0.
    apply (walkExpression_after_error i err o.2 st0 Herr0).
  - set (st0 := setModules (moduleStack st ++ [mkModule name defs mid])
                  (Some (mkModule name defs mid)) (lookupTable name)
                  (treeFromModule (mkModule name defs mid)) st).
    assert (Henter : enterModuleDef lookupTable (mkModule name defs mid) st
                     = Returned (tt, st0)) by reflexivity.
    destruct (forEach_skipped (walkDefinition lookupTable) defs i err IH st0 Herr)
      as (st1 & Hrun1 & Hfrozen1).
    destruct (exitModuleDef_onlyLiterals st1) as (st2 & Hrun2 & Hfrozen2).
    exists st2. split.
    + cbn [walkDefinition]. run Henter. run Hrun1. exact Hrun2.
    + apply (onlyLiterals_trans _ st0); [apply onlyLiterals_modules |].
      apply (onlyLiterals_trans _ st1); assumption.
Qed.

(** C2, as amended. Once an error is recorded, every expression and every
    definition walked afterwards, sibling or parent, is skipped: the walk
    returns, the error map, the substitutions and the generator are left as
    they are, and the only results added are the Pure schemes of literals. *)
Theorem walk_after_error (st : InferState) (i : Z) (err : ErrorTree) :
  errors st !! i = Some err ->
  (forall e, exists st', walkExpression e st = Returned (tt, st') /\ onlyLiterals st st') /\
  (forall d, exists st',
     walkDefinition lookupTable d st = Returned (tt, st') /\ onlyLiterals st st').
Proof.
  intros Herr. split.
  - intros e. apply (walkExpression_after_error i err e st Herr).
  - intros d. apply (walkDefinition_after_error i err d st Herr).
Qed.

(** ** What a callback does to the state *)

Lemma sameButGenerator_refl (st : InferState) : sameButGenerator st st.
Proof. unfold sameButGenerator. destruct st; reflexivity. Qed.

Lemma sameButGenerator_trans (st1 st2 st3 : InferState) :
  sameButGenerator st1 st2 -> sameButGenerator st2 st3 -> sameButGenerator st1 st3.
Proof.
  unfold sameButGenerator. intros H12 H23. rewrite H23, H12. destruct st1; reflexivity.
Qed.

Lemma sameButGenerator_set (st : InferState) (g : FreshVarGenerator) :
  sameButGenerator st (setFreshVarGenerator g st).
Proof. unfold sameButGenerator. destruct st; reflexivity. Qed.

Lemma fetchResult_Returned (id : Z) (st st1 : InferState)
    (r : Either ErrorTree EffectScheme) :
  fetchResult id st = Returned (r, st1) ->
  st1 = st /\
  match r with
  | inl failed => errors st !! id = Some failed
  | inr successful => errors st !! id = None /\ effects st !! id = Some successful
  end.
Proof.
  unfold fetchResult, bind, gets, pure, throw.
  destruct (errors st !! id) as [failed |] eqn:Herrors;
    [| destruct (effects st !! id) as [successful |] eqn:Heffects];
    intros [= <- <-]; auto.
Qed.

Lemma nextFreshVar_state (prefix : string) (st st1 : InferState) (v : string) :
  nextFreshVar prefix st = Returned (v, st1) -> sameButGenerator st st1.
Proof.
  unfold nextFreshVar, bind, gets, modify, pure.
  destruct (freshVar prefix (freshVarGenerator st)) as [v' g'].
  intros [= _ <-]. apply sameButGenerator_set.
Qed.

Lemma mapInfer_state {A B} (f : A -> Infer B) (l : list A) :
  (forall x st st1 y, f x st = Returned (y, st1) -> sameButGenerator st st1) ->
  forall st st1 ys, mapInfer f l st = Returned (ys, st1) -> sameButGenerator st st1.
Proof.
  intros Hf. induction l as [| x rest IH]; intros st st1 ys; simpl.
  - intros [= _ <-]. apply sameButGenerator_refl.
  - unfold bind at 1. destruct (f x st) as [msg | [y sta]] eqn:Hx; [discriminate |].
    unfold bind at 1. destruct (mapInfer f rest sta) as [msg | [ys' stb]] eqn:Hrest;
      [discriminate |].
    intros [= _ <-].
    apply (sameButGenerator_trans _ sta); [eapply Hf | eapply IH]; eassumption.
Qed.

Lemma instantiate_state (effectSubs entitySubs : Substitutions) (scheme : EffectScheme)
    (st st1 : InferState) (e : Effect) :
  instantiate effectSubs entitySubs scheme st = Returned (e, st1) -> st1 = st.
Proof.
  unfold instantiate, throw, pure.
  destruct (chain _ _); [discriminate | intros [= _ <-]; reflexivity].
Qed.

Lemma newInstance_state (scheme : EffectScheme) (st st1 : InferState) (e : Effect) :
  newInstance scheme st = Returned (e, st1) -> sameButGenerator st st1.
Proof.
  unfold newInstance. unfold bind at 1.
  destruct (mapInfer _ (effectVariables scheme) st) as [msg | [effectSubs sta]] eqn:Ha;
    [discriminate |].
  unfold bind at 1.
  destruct (mapInfer _ (entityVariables scheme) sta) as [msg | [entitySubs stb]] eqn:Hb;
    [discriminate |].
  intros Hrun. apply instantiate_state in Hrun. subst st1.
  apply (sameButGenerator_trans _ sta).
  - eapply mapInfer_state; [| exact Ha].
    intros x s s1 y. unfold bind at 1.
    destruct (nextFreshVar "e" s) as [msg | [v s2]] eqn:Hv; [discriminate |].
    intros [= _ <-]. eapply nextFreshVar_state. exact Hv.
  - eapply mapInfer_state; [| exact Hb].
    intros x s s1 y. unfold bind at 1.
    destruct (nextFreshVar "v" s) as [msg | [v s2]] eqn:Hv; [discriminate |].
    intros [= _ <-]. eapply nextFreshVar_state. exact Hv.
Qed.

Lemma newInstanceUnbound_state (scheme : EffectScheme) (st st1 : InferState) (e : Effect) :
  newInstanceUnbound scheme st = Returned (e, st1) -> st1 = st.
Proof.
  unfold newInstanceUnbound.
  destruct (effectVariables scheme), (entityVariables scheme); try discriminate.
  apply instantiate_state.
Qed.

Lemma fetchSignature_state (opcode : string) (scope : Z) (arity : nat)
    (st st1 : InferState) (r : Either ErrorTree Effect) :
  fetchSignature opcode scope arity st = Returned (r, st1) -> sameButGenerator st st1.
Proof.
  unfold fetchSignature. destruct (String.eqb opcode "_").
  { unfold bind at 1. destruct (nextFreshVar "_e" st) as [msg | [v s2]] eqn:Hv;
      [discriminate |].
    intros [= _ <-]. eapply nextFreshVar_state. exact Hv. }
  destruct (getSignatures opcode) as [signatureFunction |].
  { unfold bind at 1.
    destruct (newInstance (signatureFunction arity) st) as [msg | [e s2]] eqn:He;
      [discriminate |].
    intros [= _ <-]. eapply newInstance_state. exact He. }
  unfold lookupCurrent, bind, gets, pure, throw.
  destruct (currentTable st) as [table |]; [| discriminate].
  destruct (lookupValue table (currentScopeTree st) opcode scope) as [def |];
    [| intros [= _ <-]; apply sameButGenerator_refl].
  destruct (truthy (defReference def)) as [id |];
    [| intros [= _ <-]; apply sameButGenerator_refl].
  pose proof (fetchResult_Returned id st) as Hfetch.
  destruct (defKind def); try (intros [= _ <-]; apply sameButGenerator_refl);
    (destruct (fetchResult id st) as [msg | [[failed | successful] sta]];
     [discriminate
     | destruct (Hfetch _ _ eq_refl) as [-> _]; intros [= _ <-]; apply sameButGenerator_refl
     | destruct (Hfetch _ _ eq_refl) as [-> _];
       destruct (newInstance successful st) as [msg | [e s2]] eqn:He; [discriminate |];
       intros [= _ <-]; eapply newInstance_state; exact He ]).
Qed.

Lemma lambdaParam_state (body : QuintEx) (p : string) (st st1 : InferState)
    (r : Either ErrorTree Effect) :
  lambdaParam body p st = Returned (r, st1) -> sameButGenerator st st1.
Proof.
  unfold lambdaParam. unfold bind at 1.
  destruct (fetchSignature p (exprId body) 2 st) as [msg | [signature sta]] eqn:Hsig;
    [discriminate |].
  intros [= _ <-]. eapply fetchSignature_state. exact Hsig.
Qed.

Lemma addToResults_effect (id : Z) (scheme : EffectScheme) (st : InferState) :
  addToResults id (inr scheme) st = Returned (tt, setEffects (insert id scheme) st).
Proof. reflexivity. Qed.

Lemma addToResults_error (id : Z) (err : Error) (st : InferState) :
  addToResults id (inl err) st
  = Returned (tt, setErrors (insert id (buildErrorTree (location st) err)) st).
Proof. reflexivity. Qed.

(** C8. [exitLambda] on a lambda whose body has a scheme, with no error
    recorded so far and with the effects of its parameters found.  When
    the body's scheme quantifies nothing, the callback returns and stores at
    the lambda's id the arrow from the parameters' effects to the body's
    effect, under the substitutions found so far, quantified over exactly
    the effect names and the entity names that occur in the parameters of
    that arrow, whatever occurs in its result.  When the body's scheme
    quantifies a name, [newInstance], passed to [map] without its object,
    throws: nothing is stored for the lambda. *)
Theorem exitLambda_by_body_scheme (id : Z) (params : list string) (body : QuintEx)
    (st st1 : InferState) (bodyScheme : EffectScheme)
    (fetched : list (Either ErrorTree Effect)) (paramEffects : list Effect) :
  size (errors st) = 0%nat ->
  effects st !! exprId body = Some bodyScheme ->
  mapInfer (lambdaParam body) params st = Returned (fetched, st1) ->
  mergeInMany fetched = inr paramEffects ->
  (effectVariables bodyScheme = [] -> entityVariables bodyScheme = [] ->
   forall instance ps r,
     instantiate [] [] (mkScheme (EArrow paramEffects (effect bodyScheme)) [] []) st1
       = Returned (instance, st1) ->
     applySubstitution (substitutions st) instance = inr (EArrow ps r) ->
     exitLambda id params body st
       = Returned (tt, setEffects
                         (insert id (mkScheme (EArrow ps r) (fst (nonFreeNames ps))
                                       (snd (nonFreeNames ps)))) st1) /\
     (forall n, In n (fst (nonFreeNames ps)) <->
                exists p, In p ps /\ In (mkName NameEffect n) (effectNames p)) /\
     (forall n, In n (snd (nonFreeNames ps)) <->
                exists p, In p ps /\ In (mkName NameVariable n) (effectNames p))) /\
  (effectVariables bodyScheme <> [] \/ entityVariables bodyScheme <> [] ->
   exitLambda id params body st
     = Threw "TypeError: Cannot read properties of undefined (reading 'freshVarGenerator')").
Proof.
  intros Hnone Hscheme Hparams Hmerge.
  assert (Herrors : errors st !! exprId body = None).
  { apply map_size_empty_iff in Hnone. rewrite Hnone. apply lookup_empty. }
  assert (Hbody : fetchResult (exprId body) st = Returned (inr bodyScheme, st)).
  { unfold fetchResult, bind, gets, pure. rewrite Herrors, Hscheme. reflexivity. }
  assert (Hsame : sameButGenerator st st1).
  { eapply mapInfer_state; [| exact Hparams]. intros x s s1 y. apply lambdaParam_state. }
  assert (Hsubs : substitutions st1 = substitutions st) by (rewrite Hsame; reflexivity).
  unfold exitLambda.
  rewrite (bind_Returned _ _ _ _ _ (errorsPresent_none st Hnone)).
  rewrite (bind_Returned _ _ _ _ _ Hbody).
  rewrite (bind_Returned _ _ _ _ _ Hparams).
  cbn [mapLeft chain]. rewrite Hmerge. cbn [mapLeft mapRight].
  split.
  - intros Heffect Hentity instance ps r Hinstance Happly.
    assert (Hunbound : newInstanceUnbound
                         (mkScheme (EArrow paramEffects (effect bodyScheme))
                            (effectVariables bodyScheme) (entityVariables bodyScheme)) st1
                       = Returned (instance, st1)).
    { unfold newInstanceUnbound. cbn [effectVariables entityVariables].
      rewrite Heffect, Hentity. exact Hinstance. }
    rewrite (bind_Returned _ _ _ _ _ Hunbound).
    unfold bind, gets. rewrite Hsubs, Happly.
    destruct (nonFreeNames ps) as [effectNames' entityNames'] eqn:Hnames.
    rewrite addToResults_effect.
    pose proof (nonFreeNames_spec ps) as (He & Hv & _ & _).
    rewrite Hnames in He, Hv. simpl in He, Hv. simpl.
    split; [reflexivity | split; assumption].
  - intros Hquantified. apply bind_Threw. unfold newInstanceUnbound.
    cbn [effectVariables entityVariables].
    destruct (effectVariables bodyScheme), (entityVariables bodyScheme);
      try reflexivity.
    destruct Hquantified as [Hq | Hq]; contradiction.
Qed.

End InferrerFacts.

(** * The facts at concrete inputs *)

Section Examples.

#[local] Existing Instance SpecModel.printing.
#[local] Existing Instance SpecModel.simplification.
#[local] Existing Instance SpecModel.substitutionOps.
#[local] Existing Instance SpecModel.errorTrees.

(** ** Built-ins *)

Example ipow_two_ten :
  Builtins.builtinLambda (fun _ => "") "ipow" [Builtins.RvInt 2; Builtins.RvInt 10]
  = Returned (inr (Builtins.RvInt 1024)).
Proof. reflexivity. Qed.

Example ipow_zero_zero :
  Builtins.builtinLambda (fun _ => "") "ipow" [Builtins.RvInt 0; Builtins.RvInt 0]
  = Returned (inl (Builtins.mkQuintError "QNT503" "0^0 is undefined")).
Proof. reflexivity. Qed.

Example roundToDouble_tie : Builtins.roundToDouble (2 ^ 53 + 1) = 2 ^ 53.
Proof. reflexivity. Qed.

(** ** Unification *)

(** [Read[v, v]] and [Read[v]] print the same once simplified. *)
Lemma unify_equal_prints_witness :
  effectToString (simplify (EConcrete [mkComponent Read (VUnion [q "v"; q "v"])]))
    = effectToString (simplify (EConcrete [mkComponent Read (q "v")])) /\
  unify 1 (EConcrete [mkComponent Read (VUnion [q "v"; q "v"])])
    (EConcrete [mkComponent Read (q "v")]) = Some (inr []).
Proof.
  split; [reflexivity |].
  apply (unify_equal_prints 0). reflexivity.
Defined.

(** [e] occurs in [(e) => Pure], and [v] in the union of [v] and ['x']. *)
Lemma bind_occurs_check_witness :
  bindEffect "e" (EArrow [EQuantified "e"] (EConcrete []))
    = inl "Can't bind e to (e) => Pure: cyclical binding" /\
  bindVariables "v" (VUnion [q "v"; VConcrete [varX]])
    = inl "Can't bind v to 'x', v: cyclical binding".
Proof.
  destruct (bind_occurs_check "e") as [Heffect _].
  destruct (bind_occurs_check "v") as [_ Hvariables].
  split.
  - apply Heffect; [simpl; auto | discriminate].
  - apply Hvariables; [simpl; auto | discriminate].
Defined.

(** A pair of compatible components alone does not make two effects
    unify: a kind that the other effect lacks has to be nullified. *)
Remark unify_read_update_alone :
  unify 3 (EConcrete [mkComponent Read (VConcrete [varX])])
    (EConcrete [mkComponent Update (VConcrete [varY])])
  = Some (inl (mkErrorTree "Trying to unify Read['x'] and Update['y']" None
                 [mkErrorTree "Trying to unify variables ['x'] and []"
                    (Some "Expected variables [x] and [] to be the same") []])).
Proof. reflexivity. Qed.

(** Two unions that differ. *)
Lemma unifyVariables_unions_witness :
  flattenUnions (VUnion [q "a"; q "b"]) = VUnion [q "a"; q "b"] /\
  flattenUnions (VUnion [q "a"; q "c"]) = VUnion [q "a"; q "c"] /\
  unifyVariables 1 (VUnion [q "a"; q "b"]) (VUnion [q "a"; q "c"])
  = Some (inl (mkErrorTree "Trying to unify variables [a, b] and [a, c]"
                 (Some "Unification for unions of variables is not implemented") [])).
Proof.
  split; [reflexivity |]. split; [reflexivity |].
  assert (Hab : flattenUnions (VUnion [q "a"; q "b"]) = VUnion [q "a"; q "b"])
    by reflexivity.
  assert (Hac : flattenUnions (VUnion [q "a"; q "c"]) = VUnion [q "a"; q "c"])
    by reflexivity.
  destruct (unifyVariables_unions 0 _ _ _ _ Hab Hac) as [_ Hdiffer].
  apply Hdiffer. discriminate.
Defined.

(** C7 fails as stated: a union of two members unifies with itself, with
    the empty substitution. *)
Lemma unifyVariables_equal_unions :
  flattenUnions (VUnion [q "a"; q "b"]) = VUnion [q "a"; q "b"] /\
  unifyVariables 1 (VUnion [q "a"; q "b"]) (VUnion [q "a"; q "b"]) = Some (inr []).
Proof. split; reflexivity. Qed.

(** One concrete effect unpacked against two. *)
Lemma tryToUnpack_differing_lengths_witness :
  length [EConcrete [mkComponent Read (q "r")]]
    <> length [EConcrete [mkComponent Read (q "a")];
               EConcrete [mkComponent Read (q "b"); mkComponent Update (q "c")]] /\
  tryToUnpack "here"
    [EConcrete [mkComponent Read (q "a")];
     EConcrete [mkComponent Read (q "b"); mkComponent Update (q "c")]]
    [EConcrete [mkComponent Read (q "r")]]
  = inr ([EConcrete [mkComponent Read (q "r")]],
         [EConcrete [mkComponent Read (VUnion [q "a"; q "b"]);
                     mkComponent Update (q "c")]]).
Proof.
  assert (Hlen : length [EConcrete [mkComponent Read (q "a")];
                         EConcrete [mkComponent Read (q "b"); mkComponent Update (q "c")]]
                 <> length [EConcrete [mkComponent Read (q "r")]])
    by (simpl; lia).
  split; [simpl; lia |].
  destruct (tryToUnpack_differing_lengths "here" _ _ Hlen) as (Hone & _ & _).
  apply Hone. reflexivity.
Defined.

(** C3 fails as stated: unpacking succeeds although the single element of
    the shorter list is not a concrete effect. *)
Lemma tryToUnpack_quantified_single :
  isConcrete (EQuantified "e") = false /\
  tryToUnpack "here" [EQuantified "e"]
    [EConcrete [mkComponent Read (q "a")]; EConcrete [mkComponent Read (q "b")]]
  = inr ([EQuantified "e"], [EConcrete [mkComponent Read (VUnion [q "a"; q "b"])]]).
Proof. split; reflexivity. Qed.

(** [(Read[a, b]) => Read[a, b]]. *)
Lemma simplifyArrowEffect_hashes_witness :
  effectToString (EConcrete [mkComponent Read (VUnion [q "a"; q "b"])])
    = effectToString (EConcrete [mkComponent Read (VUnion [q "a"; q "b"])]) /\
  arrowParams
    (fst (simplifyArrowEffect [EConcrete [mkComponent Read (VUnion [q "a"; q "b"])]]
            (EConcrete [mkComponent Read (VUnion [q "a"; q "b"])])))
  = [EConcrete [mkComponent Read (VQuantified "a#b" None)]] /\
  snd (simplifyArrowEffect [EConcrete [mkComponent Read (VUnion [q "a"; q "b"])]]
         (EConcrete [mkComponent Read (VUnion [q "a"; q "b"])]))
  = [SubVariable "a" (VQuantified "a#b" None); SubVariable "b" (VQuantified "a#b" None)].
Proof.
  split; [reflexivity |].
  assert (Hprint :
    effectToString (EConcrete [mkComponent Read (VUnion [q "a"; q "b"])])
    = effectToString (EConcrete [mkComponent Read (VUnion [q "a"; q "b"])]))
    by reflexivity.
  destruct (simplifyArrowEffect_hashes _ _ Hprint) as (_ & Hparams & Hsubs & _).
  split; [exact Hparams | exact Hsubs].
Defined.

(** C4 fails as stated: with state variables in the component, its
    variables become a union, not a hash variable, and the names are bound
    to that union; a component of state variables only gets no hash
    variable at all. *)
Lemma simplifyArrowEffect_state_variables :
  simplifyArrowEffect [EConcrete [mkComponent Read (VUnion [q "a"; q "b"; VConcrete [varX]])]]
    (EConcrete [mkComponent Read (VUnion [q "a"; q "b"; VConcrete [varX]])])
  = (mkArrow
       [EConcrete [mkComponent Read (VUnion [VQuantified "a#b" None; VConcrete [varX]])]]
       (EConcrete [mkComponent Read (VUnion [q "a"; q "b"; VConcrete [varX]])]),
     [SubVariable "a" (VUnion [VQuantified "a#b" None; VConcrete [varX]]);
      SubVariable "b" (VUnion [VQuantified "a#b" None; VConcrete [varX]])]) /\
  simplifyArrowEffect [EConcrete [mkComponent Read (VConcrete [varX])]]
    (EConcrete [mkComponent Read (VConcrete [varX])])
  = (mkArrow [EConcrete [mkComponent Read (VConcrete [varX])]]
       (EConcrete [mkComponent Read (VConcrete [varX])]), []).
Proof. split; reflexivity. Qed.



End Examples.

(** ** Inference *)

Section InferenceExamples.

#[local] Existing Instance SpecModel.printing.
#[local] Existing Instance SpecModel.substitutionOps.
#[local] Existing Instance SpecModel.errorTrees.
#[local] Existing Instance InferrerModel.env.

(** [def f(p) = p] gets the scheme of [(e_p_1) => e_p_1], quantified over
    [e_p_1], and [f(1)] is Pure. *)
Example inferEffects_identity :
  exists errs effs,
    InferrerModel.inferEffects InferrerModel.identityTable InferrerModel.identityModule = Returned (errs, effs) /\
    errs = ∅ /\
    effs !! 3 = Some (Inferrer.mkScheme (EArrow [EQuantified "e_p_1"] (EQuantified "e_p_1"))
                        ["e_p_1"] []) /\
    effs !! 5 = Some (Inferrer.toScheme (EConcrete [])).
Proof. eexists _, _. split; [vm_compute; reflexivity |]. repeat split. Qed.

(** The whole run on [def g(p) = (q) => q] dies at the outer lambda. *)
Example inferEffects_nested_lambda :
  InferrerModel.inferEffects NestedLambda.nestedTable NestedLambda.nestedModule
  = Threw "TypeError: Cannot read properties of undefined (reading 'freshVarGenerator')".
Proof. vm_compute. reflexivity. Qed.

(** The lambda of [def f(p) = p], whose body has the scheme of [e_p_1],
    gets its arrow; the outer lambda of [def g(p) = (q) => q], whose body
    has a scheme quantified over [e_q_1], throws. *)
Lemma exitLambda_by_body_scheme_witness :
  Inferrer.exitLambda 2 ["p"] (QuintName 1 "p") InferrerModel.stateBeforeLambda
    = Returned (tt, Inferrer.setEffects
                      (insert 2 (Inferrer.mkScheme
                                   (EArrow [EQuantified "e_p_1"] (EQuantified "e_p_1"))
                                   ["e_p_1"] []))
                      InferrerModel.stateBeforeLambda) /\
  Inferrer.effects NestedLambda.stateBeforeOuterLambda !! 2
    = Some (Inferrer.mkScheme (EArrow [EQuantified "e_q_1"] (EQuantified "e_q_1"))
              ["e_q_1"] []) /\
  Inferrer.exitLambda 3 ["p"] NestedLambda.innerLambda NestedLambda.stateBeforeOuterLambda
    = Threw "TypeError: Cannot read properties of undefined (reading 'freshVarGenerator')".
Proof.
  split; [| split].
  - assert (Hnone : size (Inferrer.errors InferrerModel.stateBeforeLambda) = 0%nat)
      by (vm_compute; reflexivity).
    assert (Hscheme : Inferrer.effects InferrerModel.stateBeforeLambda !! 1
                      = Some (Inferrer.toScheme (EQuantified "e_p_1")))
      by (vm_compute; reflexivity).
    assert (Hparams : Inferrer.mapInfer (Inferrer.lambdaParam (QuintName 1 "p")) ["p"]
                        InferrerModel.stateBeforeLambda
                      = Returned ([inr (EQuantified "e_p_1")], InferrerModel.stateBeforeLambda))
      by reflexivity.
    assert (Hmerge : mergeInMany [@inr ErrorTree Effect (EQuantified "e_p_1")]
                     = inr [EQuantified "e_p_1"]) by reflexivity.
    destruct (exitLambda_by_body_scheme 2 ["p"] (QuintName 1 "p")
                InferrerModel.stateBeforeLambda InferrerModel.stateBeforeLambda
                _ _ _ Hnone Hscheme Hparams Hmerge) as [Hstores _].
    destruct (Hstores eq_refl eq_refl
                (EArrow [EQuantified "e_p_1"] (EQuantified "e_p_1"))
                [EQuantified "e_p_1"] (EQuantified "e_p_1") eq_refl eq_refl)
      as [Hrun _].
    exact Hrun.
  - vm_compute. reflexivity.
  - assert (Hnone : size (Inferrer.errors NestedLambda.stateBeforeOuterLambda) = 0%nat)
      by (vm_compute; reflexivity).
    assert (Hscheme : Inferrer.effects NestedLambda.stateBeforeOuterLambda !! 2
                      = Some (Inferrer.mkScheme
                                (EArrow [EQuantified "e_q_1"] (EQuantified "e_q_1"))
                                ["e_q_1"] []))
      by (vm_compute; reflexivity).
    assert (Hparams : Inferrer.mapInfer (Inferrer.lambdaParam NestedLambda.innerLambda) ["p"]
                        NestedLambda.stateBeforeOuterLambda
                      = Returned ([inr (EQuantified "e_p_3")],
                                  NestedLambda.stateBeforeOuterLambda))
      by reflexivity.
    assert (Hmerge : mergeInMany [@inr ErrorTree Effect (EQuantified "e_p_3")]
                     = inr [EQuantified "e_p_3"]) by reflexivity.
    destruct (exitLambda_by_body_scheme 3 ["p"] NestedLambda.innerLambda
                NestedLambda.stateBeforeOuterLambda NestedLambda.stateBeforeOuterLambda
                _ _ _ Hnone Hscheme Hparams Hmerge) as [_ Hthrows].
    apply Hthrows. left. discriminate.
Defined.

(** After the error at [x], the name [y] is walked without a trace. *)
Lemma walk_after_error_witness :
  is_Some (Inferrer.errors InferrerModel.stateAfterFirstError !! 1) /\
  exists st',
    Inferrer.walkExpression (QuintName 3 "y") InferrerModel.stateAfterFirstError = Returned (tt, st') /\
    Inferrer.onlyLiterals InferrerModel.stateAfterFirstError st'.
Proof.
  assert (Herr : Inferrer.errors InferrerModel.stateAfterFirstError !! 1
                 = Some (mkErrorTree "Inferring effect for x" None
                           [mkErrorTree "Inferring effect for x"
                              (Some "Couldn't find x in the lookup table") []]))
    by (vm_compute; reflexivity).
  split; [rewrite Herr; eauto |].
  destruct (@walk_after_error _ _ _ InferrerModel.env InferrerModel.noTable
              InferrerModel.stateAfterFirstError 1 _ Herr) as [Hexpr _].
  apply Hexpr.
Defined.

(** C2 fails as stated: [val a = x] and [val b = y] are erroneous
    independently of each other ([y] alone is reported), yet a run over both
    reports [x] only. *)
Lemma sibling_error_not_collected :
  (exists errs effs,
     InferrerModel.inferEffects InferrerModel.noTable InferrerModel.twoUnknownNames = Returned (errs, effs) /\
     is_Some (errs !! 1) /\ errs !! 3 = None) /\
  (exists errs effs,
     InferrerModel.inferEffects InferrerModel.noTable InferrerModel.secondUnknownName = Returned (errs, effs) /\
     is_Some (errs !! 3)).
Proof.
  split.
  - eexists _, _. split; [vm_compute; reflexivity |]. split; [| reflexivity].
    eexists. reflexivity.
  - eexists _, _. split; [vm_compute; reflexivity |]. eexists. reflexivity.
Qed.

End InferenceExamples.

(** * Further facts about the evaluator built-ins *)

Section StrictFacts.

Import Builtins Evaluator.

Variable numberToString : Z -> string.

(** X1. ['idiv'] and ['imod'].  On a zero divisor ['idiv'] answers the
    QNT503 error, whereas ['imod'] has no check and throws.  For any other
    divisor they answer the quotient and the remainder of the division that
    truncates toward zero: [a = b * q + r], the remainder is smaller than the
    divisor in absolute value, and has the sign of the dividend unless it is
    zero. *)
Theorem idiv_imod_division (a b : Z) :
  (b = 0 ->
     builtinLambda numberToString "idiv" [RvInt a; RvInt b]
       = Returned (inl (mkQuintError "QNT503" "Division by zero")) /\
     imod a b = Threw "RangeError: Division by zero") /\
  (b <> 0 ->
     exists q r,
       builtinLambda numberToString "idiv" [RvInt a; RvInt b] = Returned (inr (RvInt q)) /\
       imod a b = Returned (inr (RvInt r)) /\
       a = b * q + r /\
       Z.abs r < Z.abs b /\
       (r = 0 \/ Z.sgn r = Z.sgn a)).
Proof.
  split.
  - intros ->. split; reflexivity.
  - intros Hb. exists (Z.quot a b), (Z.rem a b).
    cbn -[Z.quot Z.rem Z.eqb]. unfold imod.
    destruct (Z.eqb_spec b 0) as [Hzero | _]; [contradiction |].
    repeat split.
    + apply Z.quot_rem'.
    + apply Z.rem_bound_abs. exact Hb.
    + destruct (Z.eq_dec (Z.rem a b) 0) as [Hr | Hr]; [left; exact Hr | right].
      apply Z.rem_sign_nz; assumption.
Qed.

(** X2. ['head'] and ['tail'] answer the QNT505 error on the empty list;
    on any other list they answer its first element and the list of the
    others: the list is the head followed by the tail. *)
Theorem head_tail_decompose (l : list RuntimeValue) :
  (l = [] ->
     (exists msg, builtinLambda numberToString "head" [RvList l]
                  = Returned (inl (mkQuintError "QNT505" msg))) /\
     (exists msg, builtinLambda numberToString "tail" [RvList l]
                  = Returned (inl (mkQuintError "QNT505" msg)))) /\
  (l <> [] ->
     exists x rest,
       builtinLambda numberToString "head" [RvList l] = Returned (inr x) /\
       builtinLambda numberToString "tail" [RvList l] = Returned (inr (RvList rest)) /\
       l = x :: rest).
Proof.
  split.
  - intros ->. split; eexists; reflexivity.
  - intros Hne. destruct l as [| x rest]; [contradiction |].
    exists x, rest. repeat split.
Qed.

(** X3. ['replaceAt'] on a list (its size a safe integer) and an index [i]:
    out of the bounds [0 <= i < length l] it answers the QNT510 error; within
    them it answers a list of the same length that holds the new value at
    [i] and the old values everywhere else. *)
Theorem replaceAt_bounds (l : list RuntimeValue) (i : Z) (v : RuntimeValue) :
  Z.of_nat (length l) < 2 ^ 53 ->
  (i < 0 \/ Z.of_nat (length l) <= i ->
     exists msg, replaceAt numberToString l i v = inl (mkQuintError "QNT510" msg)) /\
  (0 <= i < Z.of_nat (length l) ->
     exists l',
       replaceAt numberToString l i v = inr (RvList l') /\
       length l' = length l /\
       l' !! Z.to_nat i = Some v /\
       forall j, j <> Z.to_nat i -> l' !! j = l !! j).
Proof.
  intros Hsize. unfold replaceAt, Number. split.
  - intros Hout. eexists.
    assert (Hidx : roundToDouble i < 0 \/ Z.of_nat (length l) <= roundToDouble i).
    { destruct Hout as [Hneg | Hbig].
      - left. apply roundToDouble_negative. exact Hneg.
      - right. destruct (Z_lt_le_dec i (2 ^ 53)) as [Hsafe | Hlarge].
        + rewrite roundToDouble_safe by lia. exact Hbig.
        + pose proof (roundToDouble_large i Hlarge). lia. }
    destruct (Z.ltb_spec (roundToDouble i) 0);
      destruct (Z.leb_spec (Z.of_nat (length l)) (roundToDouble i));
      simpl; try reflexivity; lia.
  - intros Hin. rewrite roundToDouble_safe by lia.
    destruct (Z.ltb_spec i 0); [lia |].
    destruct (Z.leb_spec (Z.of_nat (length l)) i); [lia |]. simpl.
    eexists. split; [reflexivity |]. repeat split.
    + apply length_insert.
    + apply list_lookup_insert_eq. lia.
    + intros j Hj. apply list_lookup_insert_ne. congruence.
Qed.

(** X4. ['slice'] on a list (its size a safe integer): it succeeds exactly
    when [0 <= s <= e <= length l], with the [e - s] elements from position
    [s] on; otherwise it answers the QNT506 error. *)
Theorem slice_bounds (l : list RuntimeValue) (s e : Z) :
  Z.of_nat (length l) < 2 ^ 53 ->
  (s < 0 \/ e < s \/ Z.of_nat (length l) < e ->
     exists msg, slice numberToString l s e = inl (mkQuintError "QNT506" msg)) /\
  (0 <= s <= e /\ e <= Z.of_nat (length l) ->
     exists l',
       slice numberToString l s e = inr (RvList l') /\
       Z.of_nat (length l') = e - s /\
       forall k, (k < length l')%nat -> l' !! k = l !! (Z.to_nat s + k)%nat).
Proof.
  intros Hsize. unfold slice, Number. split.
  - intros Hout. eexists.
    assert (Hbad : roundToDouble s < 0 \/ roundToDouble e < roundToDouble s
                   \/ Z.of_nat (length l) < roundToDouble e).
    { destruct (Z_lt_le_dec s 0) as [Hs | Hs];
        [left; apply roundToDouble_negative; exact Hs |].
      destruct (Z_lt_le_dec (Z.of_nat (length l)) e) as [He | He].
      { right. right. destruct (Z_lt_le_dec e (2 ^ 53)) as [Hsafe | Hlarge].
        - rewrite roundToDouble_safe by lia. exact He.
        - pose proof (roundToDouble_large e Hlarge). lia. }
      assert (Hes : e < s) by lia.
      right. left.
      destruct (Z_lt_le_dec e 0) as [Hneg | Hpos].
      - pose proof (roundToDouble_negative e Hneg).
        destruct (Z_lt_le_dec s (2 ^ 53)) as [Hsafe | Hlarge].
        + rewrite (roundToDouble_safe s) by lia. lia.
        + pose proof (roundToDouble_large s Hlarge). lia.
      - rewrite (roundToDouble_safe e) by lia.
        destruct (Z_lt_le_dec s (2 ^ 53)) as [Hsafe | Hlarge].
        + rewrite (roundToDouble_safe s) by lia. exact Hes.
        + pose proof (roundToDouble_large s Hlarge). lia. }
    destruct (Z.ltb_spec (roundToDouble s) 0);
      destruct (Z.ltb_spec (roundToDouble e) (roundToDouble s));
      destruct (Z.ltb_spec (Z.of_nat (length l)) (roundToDouble e));
      simpl; try reflexivity; lia.
  - intros [[Hs Hse] He].
    rewrite (roundToDouble_safe s), (roundToDouble_safe e) by lia.
    destruct (Z.ltb_spec s 0); [lia |].
    destruct (Z.ltb_spec e s); [lia |].
    destruct (Z.ltb_spec (Z.of_nat (length l)) e); [lia |]. simpl.
    eexists. split; [reflexivity |]. split.
    + rewrite length_take, length_drop. lia.
    + intros k Hk. rewrite length_take, length_drop in Hk.
      rewrite lookup_take_lt by lia. apply lookup_drop.
Qed.

End StrictFacts.

(** ** Folds *)

Section FoldFacts.

Import Builtins Evaluator.


Lemma foldReducer_threw (order : FoldOrder) (lambda : FoldLambda) (msg : string)
    (l : list RuntimeValue) :
  fold_left (foldReducer order lambda) l (Threw msg) = Threw msg.
Proof. induction l as [| x rest IH]; [reflexivity | exact IH]. Qed.



Lemma select_step (lam : RuntimeValue -> outcome (Either QuintError RuntimeValue))
    (p : RuntimeValue -> bool) (l : list RuntimeValue) :
  (forall x, In x l -> lam x = Returned (inr (RvBool (p x)))) ->
  forall kept,
    fold_left
      (foldReducer Fwd
         (fun args =>
            match args with
            | [acc; arg] =>
                obind (lam arg) (fun r =>
                  match r with
                  | inl err => Returned (inl err)
                  | inr condition =>
                      obind (toBool condition) (fun b =>
                        if b then
                          obind (toList acc) (fun l => Returned (inr (RvList (l ++ [arg]))))
                        else Returned (inr acc))
                  end)
            | _ => Threw "TypeError: Cannot read properties of undefined"
            end))
      l (Returned (inr (RvList kept)))
    = Returned (inr (RvList (kept ++ List.filter p l))).
Proof.
  induction l as [| x rest IH]; intros Hlam kept; simpl.
  - rewrite app_nil_r. reflexivity.
  - rewrite (Hlam x) by (left; reflexivity). simpl.
    destruct (p x); simpl.
    + rewrite IH by (intros y Hy; apply Hlam; right; exact Hy).
      rewrite <- app_assoc. reflexivity.
    + apply IH. intros y Hy. apply Hlam. right. exact Hy.
Qed.

(** X6. When the lambda answers a Boolean on every element of the list,
    ['select'] answers the list of the elements on which it answers true,
    in their order. *)
Theorem select_filters (lam : RuntimeValue -> outcome (Either QuintError RuntimeValue))
    (p : RuntimeValue -> bool) (l : list RuntimeValue) :
  (forall x, In x l -> lam x = Returned (inr (RvBool (p x)))) ->
  select l lam = Returned (inr (RvList (List.filter p l))).
Proof.
  intros Hlam. unfold select, applyFold.
  apply (select_step lam p l Hlam []).
Qed.

End FoldFacts.

(** ** Lazy operators *)

Section LazyFacts.

Import Builtins Evaluator.

Variable Context : Type.
Variable shift : Context -> Context.

(** Once the accumulated value stops the operator, or is an error, the
    arguments that follow are not evaluated. *)
Lemma lazyReducer_stopped (continue : bool) (args : list (EvalFunction Context))
    (acc : EvalFunction Context) (ctx ctx' : Context) :
  acc ctx = Returned (inr (RvBool (negb continue)), ctx') ->
  fold_left (lazyReducer Context continue) args acc ctx
  = Returned (inr (RvBool (negb continue)), ctx').
Proof.
  revert acc. induction args as [| f rest IH]; intros acc Hacc; [exact Hacc |].
  simpl. apply IH. unfold lazyReducer, evalChain, evalBind, evalBool.
  rewrite Hacc. simpl. destruct continue; reflexivity.
Qed.

Lemma lazyReducer_error (continue : bool) (args : list (EvalFunction Context))
    (acc : EvalFunction Context) (ctx ctx' : Context) (err : QuintError) :
  acc ctx = Returned (inl err, ctx') ->
  fold_left (lazyReducer Context continue) args acc ctx = Returned (inl err, ctx').
Proof.
  revert acc. induction args as [| f rest IH]; intros acc Hacc; [exact Hacc |].
  simpl. apply IH. unfold lazyReducer, evalChain, evalBind.
  rewrite Hacc. reflexivity.
Qed.

Lemma lazyReducer_continues (continue : bool) (args : list (EvalFunction Context))
    (acc : EvalFunction Context) (ctx mid ctx' : Context) :
  acc ctx = Returned (inr (RvBool continue), mid) ->
  allReturn Context (RvBool continue) args mid ctx' ->
  fold_left (lazyReducer Context continue) args acc ctx
  = Returned (inr (RvBool continue), ctx').
Proof.
  revert acc mid. induction args as [| f rest IH]; intros acc mid Hacc Hall; simpl in *.
  - subst ctx'. exact Hacc.
  - destruct Hall as (next & Hf & Hrest). apply (IH _ next); [| exact Hrest].
    unfold lazyReducer, evalChain, evalBind, evalBool.
    rewrite Hacc. simpl. rewrite Bool.eqb_reflx. exact Hf.
Qed.

Lemma lazyReducer_stops_at (continue : bool) (pre post : list (EvalFunction Context))
    (f : EvalFunction Context) (ctx mid ctx' : Context)
    (r : Either QuintError RuntimeValue) :
  allReturn Context (RvBool continue) pre ctx mid ->
  f mid = Returned (r, ctx') ->
  r = inr (RvBool (negb continue)) \/ (exists err, r = inl err) ->
  fold_left (lazyReducer Context continue) (pre ++ f :: post)
    (evalPure Context (inr (RvBool continue))) ctx
  = Returned (r, ctx').
Proof.
  intros Hpre Hf Hr.
  pose proof (lazyReducer_continues continue pre
                (evalPure Context (inr (RvBool continue))) ctx ctx mid eq_refl Hpre) as Hall.
  rewrite fold_left_app. cbn [fold_left].
  assert (Hstep : lazyReducer Context continue
                    (fold_left (lazyReducer Context continue) pre
                       (evalPure Context (inr (RvBool continue)))) f ctx
                  = Returned (r, ctx')).
  { unfold lazyReducer at 1. unfold evalChain, evalBind, evalBool. rewrite Hall.
    cbn [toBool]. rewrite Bool.eqb_reflx. exact Hf. }
  destruct Hr as [-> | [err ->]].
  - apply lazyReducer_stopped. exact Hstep.
  - apply lazyReducer_error. exact Hstep.
Qed.

Lemma and_or_cases :
  lazyBuiltinLambda Context shift "and"
    = Some (fun args => fold_left (lazyReducer Context true) args
                          (evalPure Context (inr (RvBool true)))) /\
  lazyBuiltinLambda Context shift "or"
    = Some (fun args => fold_left (lazyReducer Context false) args
                          (evalPure Context (inr (RvBool false)))).
Proof. split; reflexivity. Qed.

(** X7. ['and'] evaluates its arguments from left to right and stops at
    the first one that answers false or an error: with the arguments before
    it all answering true, the result is that false or that error, in the
    context that argument left, and the arguments after it are not
    evaluated.  When every argument answers true the result is true; with no
    argument it is true in the same context. *)
Theorem and_short_circuits (pre post : list (EvalFunction Context)) (f : EvalFunction Context)
    (ctx mid ctx' : Context) :
  allReturn Context (RvBool true) pre ctx mid ->
  (f mid = Returned (inr (RvBool false), ctx') ->
     (fun op => op (pre ++ f :: post) ctx) <$> lazyBuiltinLambda Context shift "and"
     = Some (Returned (inr (RvBool false), ctx'))) /\
  (forall err, f mid = Returned (inl err, ctx') ->
     (fun op => op (pre ++ f :: post) ctx) <$> lazyBuiltinLambda Context shift "and"
     = Some (Returned (inl err, ctx'))) /\
  (fun op => op pre ctx) <$> lazyBuiltinLambda Context shift "and"
  = Some (Returned (inr (RvBool true), mid)).
Proof.
  intros Hpre. destruct and_or_cases as [-> _]. cbn [fmap option_fmap option_map].
  repeat split.
  - intros Hf. f_equal. apply (lazyReducer_stops_at true pre post f ctx mid); auto.
  - intros err Hf. f_equal. apply (lazyReducer_stops_at true pre post f ctx mid); eauto.
  - f_equal. apply (lazyReducer_continues true pre _ ctx ctx mid); [reflexivity | exact Hpre].
Qed.

(** X8. ['or'] is the dual: it stops at the first argument that answers
    true or an error, and answers false when every argument answers
    false. *)
Theorem or_short_circuits (pre post : list (EvalFunction Context)) (f : EvalFunction Context)
    (ctx mid ctx' : Context) :
  allReturn Context (RvBool false) pre ctx mid ->
  (f mid = Returned (inr (RvBool true), ctx') ->
     (fun op => op (pre ++ f :: post) ctx) <$> lazyBuiltinLambda Context shift "or"
     = Some (Returned (inr (RvBool true), ctx'))) /\
  (forall err, f mid = Returned (inl err, ctx') ->
     (fun op => op (pre ++ f :: post) ctx) <$> lazyBuiltinLambda Context shift "or"
     = Some (Returned (inl err, ctx'))) /\
  (fun op => op pre ctx) <$> lazyBuiltinLambda Context shift "or"
  = Some (Returned (inr (RvBool false), mid)).
Proof.
  intros Hpre. destruct and_or_cases as [_ ->]. cbn [fmap option_fmap option_map].
  repeat split.
  - intros Hf. f_equal. apply (lazyReducer_stops_at false pre post f ctx mid); auto.
  - intros err Hf. f_equal. apply (lazyReducer_stops_at false pre post f ctx mid); eauto.
  - f_equal. apply (lazyReducer_continues false pre _ ctx ctx mid); [reflexivity | exact Hpre].
Qed.

(** X9. ['implies'] and ['ite'] evaluate their first argument and then at
    most one other: ['implies'] answers true without evaluating its second
    argument when the first answers false, and otherwise is its second
    argument evaluated in the context the first left; ['ite'] is its second
    argument when the condition answers true and its third when it answers
    false, the other branch being never evaluated. *)
Theorem implies_ite_one_branch (a b c : EvalFunction Context) (ctx mid : Context)
    (v : bool) :
  a ctx = Returned (inr (RvBool v), mid) ->
  (fun op => op [a; b] ctx) <$> lazyBuiltinLambda Context shift "implies"
    = Some (if v then b mid else Returned (inr (RvBool true), mid)) /\
  (fun op => op [a; b; c] ctx) <$> lazyBuiltinLambda Context shift "ite"
    = Some (if v then b mid else c mid).
Proof.
  intros Ha. split; simpl; f_equal;
    unfold evalChain, evalBind, evalBool, evalArg; simpl; rewrite Ha; simpl;
    destruct v; reflexivity.
Qed.

(** X10. ['then'] evaluates its second argument only when the first
    answers true, and then in the shifted context; when the first answers
    false it answers the QNT513 error in the context the first left, not
    shifted. *)
Theorem then_shifts (a b : EvalFunction Context) (ctx mid : Context) (v : bool) :
  a ctx = Returned (inr (RvBool v), mid) ->
  (fun op => op [a; b] ctx) <$> lazyBuiltinLambda Context shift "then"
    = Some (if v then b (shift mid)
            else Returned (inl (mkQuintError "QNT513"
                                  "Cannot continue in A.then(B), A evaluates to 'false'"),
                           mid)).
Proof.
  intros Ha. simpl. f_equal.
  unfold evalChain, evalBind, evalBool, evalArg. simpl. rewrite Ha. simpl.
  destruct v; reflexivity.
Qed.

End LazyFacts.

(** * Further facts about the unifier *)

Lemma existsb_isName_false (k : NameKind) (s : string) (names : list Name) :
  existsb (isName k s) names = false <-> ~ In (mkName k s) names.
Proof.
  split.
  - intros Hnone Hin. rewrite existsb_isName in Hnone by exact Hin. discriminate.
  - intros Hnot. destruct (existsb (isName k s) names) eqn:E; [| reflexivity].
    exfalso. apply Hnot. apply existsb_exists in E as ([k' s'] & Hin & Hname).
    unfold isName in Hname. simpl in Hname.
    apply andb_true_iff in Hname as [Hk Hs]. apply String.eqb_eq in Hs. subst s'.
    destruct k', k; simpl in Hk; try discriminate; exact Hin.
Qed.

Lemma sameNameSet_spec (a b : list string) :
  sameNameSet a b = true <-> (forall n, In n a <-> In n b).
Proof.
  unfold sameNameSet. rewrite andb_true_iff, !forallb_forall. split.
  - intros [Hab Hba] n. split; intros Hin.
    + apply Hab in Hin. apply existsb_exists in Hin as (m & Hm & Heq).
      apply String.eqb_eq in Heq. subst m. exact Hm.
    + apply Hba in Hin. apply existsb_exists in Hin as (m & Hm & Heq).
      apply String.eqb_eq in Heq. subst m. exact Hm.
  - intros Hsame. split; intros n Hin; apply existsb_exists; exists n;
      (split; [apply Hsame; exact Hin | apply String.eqb_refl]).
Qed.

Section UnifierMore.

Context `{!Printing, !Simplification, !SubstitutionOps, !ErrorTrees}.

Lemma bindEffect_free (name : string) (effect : Effect) :
  ~ In (mkName NameEffect name) (effectNames effect) ->
  bindEffect name effect = inr [SubEffect name effect].
Proof.
  intros Hfree. apply existsb_isName_false in Hfree. unfold bindEffect.
  rewrite Hfree. reflexivity.
Qed.

Lemma bindVariables_free (name : string) (variables : Variables) :
  ~ In (mkName NameVariable name) (variablesNames variables) ->
  bindVariables name variables = inr [SubVariable name variables].
Proof.
  intros Hfree. apply existsb_isName_false in Hfree. unfold bindVariables.
  rewrite Hfree. reflexivity.
Qed.

(** X11. Binding succeeds exactly when the occurs check passes: it answers
    the one binding of the name to the value if and only if the name does
    not occur in the value with its kind. *)
Theorem bind_succeeds_iff (name : string) :
  (forall effect : Effect,
     bindEffect name effect = inr [SubEffect name effect]
     <-> ~ In (mkName NameEffect name) (effectNames effect)) /\
  (forall variables : Variables,
     bindVariables name variables = inr [SubVariable name variables]
     <-> ~ In (mkName NameVariable name) (variablesNames variables)).
Proof.
  split; intros value; unfold bindEffect, bindVariables;
    rewrite <- existsb_isName_false;
    destruct (existsb _ _); split; intros Hx; try reflexivity; discriminate.
Qed.

(** X12. Two sets of state variables unify exactly when they hold the same
    names, whatever the order, the repetitions and the references: then
    with the empty substitution, and otherwise with an error. *)
Theorem unifyVariables_concrete (fuel : nat) (va vb : Variables)
    (vars1 vars2 : list StateVariable) :
  flattenUnions va = VConcrete vars1 ->
  flattenUnions vb = VConcrete vars2 ->
  ((forall n, In n (map name vars1) <-> In n (map name vars2)) ->
     unifyVariables (S fuel) va vb = Some (inr [])) /\
  (~ (forall n, In n (map name vars1) <-> In n (map name vars2)) ->
     exists err, unifyVariables (S fuel) va vb = Some (inl err)).
Proof.
  intros Hva Hvb. simpl. rewrite Hva, Hvb.
  destruct (sameNameSet (map name vars1) (map name vars2)) eqn:E.
  - split; [reflexivity |]. intros Hnot. exfalso. apply Hnot.
    apply sameNameSet_spec. exact E.
  - split; [| eauto]. intros Hsame. apply sameNameSet_spec in Hsame. congruence.
Qed.

(** X13. A quantified variable unifies with itself with the empty
    substitution, and is bound to any other variables in which it does not
    occur; when both sides are quantified it is the left one that is bound,
    and a quantified variable on the right is bound to a left side that is
    not quantified. *)
Theorem unifyVariables_quantified (fuel : nat) (va vb : Variables) (n : string)
    (r : option Z) :
  flattenUnions va = VQuantified n r ->
  (forall r', flattenUnions vb = VQuantified n r' ->
     unifyVariables (S fuel) va vb = Some (inr []) /\
     unifyVariables (S fuel) vb va = Some (inr [])) /\
  ((forall r', flattenUnions vb <> VQuantified n r') ->
   ~ In (mkName NameVariable n) (variablesNames (flattenUnions vb)) ->
     unifyVariables (S fuel) va vb = Some (inr [SubVariable n (flattenUnions vb)]) /\
     ((forall m r', flattenUnions vb <> VQuantified m r') ->
        unifyVariables (S fuel) vb va = Some (inr [SubVariable n (flattenUnions vb)]))).
Proof.
  intros Hva. split.
  - intros r' Hvb. simpl. rewrite Hva, Hvb, String.eqb_refl. split; reflexivity.
  - intros Hother Hfree.
    assert (Hbind : bindVariables n (flattenUnions vb)
                    = inr [SubVariable n (flattenUnions vb)])
      by (apply bindVariables_free; exact Hfree).
    split.
    + simpl. rewrite Hva. destruct (flattenUnions vb) as [vars | m r' | members] eqn:Hvb;
        try (rewrite Hbind; reflexivity).
      destruct (String.eqb_spec n m) as [-> | Hne].
      * exfalso. apply (Hother r'). reflexivity.
      * rewrite Hbind. reflexivity.
    + intros Hshape. simpl. rewrite Hva.
      destruct (flattenUnions vb) as [vars | m r' | members] eqn:Hvb;
        try (rewrite Hbind; reflexivity).
      exfalso. apply (Hshape m r'). reflexivity.
Qed.

(** X14. The branch of [unifyConcrete] that is commented "We should never
    reach this" is indeed never reached: two kinds are equal, compatible, or
    one dominates the other, so a pair of components adds either the
    unification of two variables or the empty substitution. *)
Theorem unifyComponents_covers (fuel : nat) (location : string) (subs : Substitutions)
    (ca cb : EffectComponent) :
  ComponentKind_eqb (kind ca) (kind cb) || areCompatible ca cb
    || isDominant ca cb || isDominant cb ca = true /\
  ((exists v1 v2,
      unifyComponents fuel location subs ca cb
      = fmapLeft ErrOne (unifyVariables fuel v1 v2)) \/
   unifyComponents fuel location subs ca cb = Some (inr [])).
Proof.
  unfold unifyComponents, areCompatible, isDominant.
  destruct ca as [k1 v1], cb as [k2 v2]. simpl.
  destruct k1, k2; simpl; split; try reflexivity; eauto.
Qed.

Lemma concreteComponents_filter (effects : list Effect) :
  concreteComponents (List.filter isConcrete effects) = concreteComponents effects.
Proof.
  induction effects as [| e rest IH]; [reflexivity |].
  destruct e; simpl; rewrite ?IH; reflexivity.
Qed.

(** X15. Unpacking against one effect succeeds whatever the effects of the
    other list are: those that are not concrete are ignored, the answer
    being the same as without them. *)
Theorem tryToUnpack_ignores_others (location : string) (e : Effect) (longer : list Effect) :
  longer <> [] ->
  tryToUnpack location [e] longer
  = inr ([e], [simplify (unpackedEffect (List.filter isConcrete longer))]).
Proof.
  intros Hne. unfold tryToUnpack.
  destruct longer as [| x rest]; [contradiction |]. simpl.
  do 3 f_equal. unfold unpackedEffect.
  rewrite !collectByKind_groupByKind.
  rewrite <- (concreteComponents_filter (x :: rest)). reflexivity.
Qed.

(** X16. An effect that simplifies to a quantified effect is bound to the
    simplified form of the other effect, when their printed forms differ and
    the name does not occur there; the same binding is found with the
    quantified effect on the right of an effect that is not quantified. *)
Theorem unify_binds_quantified (fuel : nat) (a b : Effect) (n : string) :
  simplify a = EQuantified n ->
  effectToString (simplify a) <> effectToString (simplify b) ->
  ~ In (mkName NameEffect n) (effectNames (simplify b)) ->
  unify (S fuel) a b = Some (inr [SubEffect n (simplify b)]) /\
  ((forall m, simplify b <> EQuantified m) ->
     unify (S fuel) b a = Some (inr [SubEffect n (simplify b)])).
Proof.
  intros Ha Hprint Hfree.
  assert (Hbind : bindEffect n (simplify b) = inr [SubEffect n (simplify b)])
    by (apply bindEffect_free; exact Hfree).
  split.
  - simpl.
    destruct (String.eqb_spec (effectToString (simplify a)) (effectToString (simplify b)));
      [contradiction |].
    rewrite Ha, Hbind. reflexivity.
  - intros Hshape. simpl.
    destruct (String.eqb_spec (effectToString (simplify b)) (effectToString (simplify a)));
      [congruence |].
    rewrite Ha. destruct (simplify b) as [cs | ps r | m] eqn:Hb.
    + rewrite Hbind. reflexivity.
    + rewrite Hbind. reflexivity.
    + exfalso. apply (Hshape m). reflexivity.
Qed.

End UnifierMore.

(** ** Hashing twice *)

Lemma otherMembers_no_quantified (l : list Variables) :
  quantifiedMembers (otherMembers l) = [] /\ otherMembers (otherMembers l) = otherMembers l.
Proof.
  unfold otherMembers. induction l as [| v rest [IHq IHo]]; [split; reflexivity |].
  destruct v; simpl; rewrite ?IHq, ?IHo; split; auto.
Qed.

Lemma map_fixed {A} (f : A -> A) (l : list A) :
  Forall (fun x => f x = x) l -> map f l = l.
Proof. induction 1 as [| x rest Hx _ IH]; simpl; [reflexivity | rewrite Hx, IH; reflexivity]. Qed.

Lemma otherMembers_fixed (f : Variables -> Variables) (l : list Variables) :
  Forall (fun x => f x = x) l -> Forall (fun x => f x = x) (otherMembers l).
Proof.
  unfold otherMembers. induction 1 as [| x rest Hx _ IH]; simpl; [constructor |].
  destruct (negb (isQuantified x)); [constructor; assumption | exact IH].
Qed.

(** X17. Hashing is idempotent: variables that were hashed are left as they
    are by another hashing. *)
Theorem hashVariables_idempotent (v : Variables) :
  hashVariables (hashVariables v) = hashVariables v.
Proof.
  induction v as [vars | n r | members IH] using Variables_nested_ind;
    [reflexivity | reflexivity |].
  assert (Hfixed : Forall (fun x => hashVariables x = x) (map hashVariables members)).
  { apply Forall_map. exact IH. }
  pose proof (otherMembers_fixed hashVariables _ Hfixed) as Hothers.
  pose proof (otherMembers_no_quantified (map hashVariables members)) as [Hq Ho].
  rewrite (hashVariables_union members). cbv zeta.
  destruct (quantifiedMembers (map hashVariables members)) as [| n ns] eqn:Hnames;
    destruct (otherMembers (map hashVariables members)) as [| o os] eqn:Hrest;
    try reflexivity.
  - rewrite hashVariables_union. cbv zeta.
    rewrite (map_fixed _ _ Hothers), Hq, Ho. reflexivity.
  - rewrite hashVariables_union. cbv zeta.
    change (map hashVariables (VQuantified (join "#" (n :: ns)) None :: o :: os))
      with (VQuantified (join "#" (n :: ns)) None :: map hashVariables (o :: os)).
    rewrite (map_fixed _ _ Hothers).
    change (quantifiedMembers (VQuantified (join "#" (n :: ns)) None :: o :: os))
      with (join "#" (n :: ns) :: quantifiedMembers (o :: os)).
    change (otherMembers (VQuantified (join "#" (n :: ns)) None :: o :: os))
      with (otherMembers (o :: os)).
    rewrite Hq, Ho. reflexivity.
Qed.

(** * Invariants of the inferrer *)

Section InferrerInvariantFacts.

Import Inferrer.

Context `{!Printing, !SubstitutionOps, !ErrorTrees, !InferrerEnv}.

Variable lookupTable : string -> option LookupTable.

(** ** The relation kept by the steps of a callback *)

Lemma writesAt_refl (touched : Z -> Prop) (st : InferState) : writesAt touched st st.
Proof. unfold writesAt, sameOutside, keepsResults, sameModules. auto 10. Qed.

Lemma writesAt_trans (touched : Z -> Prop) (st1 st2 st3 : InferState) :
  writesAt touched st1 st2 -> writesAt touched st2 st3 -> writesAt touched st1 st3.
Proof.
  intros (Ho1 & [Hf1 He1] & Hm1) (Ho2 & [Hf2 He2] & Hm2).
  split; [| split; [split |]].
  - intros j Hj. destruct (Ho1 j Hj), (Ho2 j Hj). split; congruence.
  - intros j Hj. apply Hf2, Hf1, Hj.
  - intros j Hj. apply He2, He1, Hj.
  - destruct Hm1 as (? & ? & ? & ?), Hm2 as (? & ? & ? & ?).
    unfold sameModules. repeat split; congruence.
Qed.

Lemma writesAt_mono (P Q : Z -> Prop) (st st' : InferState) :
  (forall j, P j -> Q j) -> writesAt P st st' -> writesAt Q st st'.
Proof.
  intros Hsub (Ho & Hk & Hm). split; [| split; assumption].
  intros j Hj. apply Ho. intros Hp. apply Hj, Hsub, Hp.
Qed.

Lemma writesAt_generator (touched : Z -> Prop) (st : InferState) (g : FreshVarGenerator) :
  writesAt touched st (setFreshVarGenerator g st).
Proof. unfold writesAt, sameOutside, keepsResults, sameModules. simpl. auto 10. Qed.

Lemma writesAt_location (touched : Z -> Prop) (st : InferState) (l : string) :
  writesAt touched st (setLocation l st).
Proof. unfold writesAt, sameOutside, keepsResults, sameModules. simpl. auto 10. Qed.

Lemma writesAt_substitutions (touched : Z -> Prop) (st : InferState) (s : Substitutions) :
  writesAt touched st (setSubstitutions s st).
Proof. unfold writesAt, sameOutside, keepsResults, sameModules. simpl. auto 10. Qed.

Lemma writesAt_effects (touched : Z -> Prop) (st : InferState) (i : Z) (s : EffectScheme) :
  touched i -> writesAt touched st (setEffects (insert i s) st).
Proof.
  intros Hi. unfold writesAt, sameOutside, keepsResults, sameModules. simpl.
  repeat split; auto.
  - apply lookup_insert_ne. intros ->. contradiction.
  - intros j Hj. destruct (decide (i = j)) as [-> | Hne].
    + rewrite lookup_insert_eq. eauto.
    + rewrite lookup_insert_ne by exact Hne. exact Hj.
Qed.

Lemma writesAt_errors (touched : Z -> Prop) (st : InferState) (i : Z) (e : ErrorTree) :
  touched i -> writesAt touched st (setErrors (insert i e) st).
Proof.
  intros Hi. unfold writesAt, sameOutside, keepsResults, sameModules. simpl.
  repeat split; auto.
  - apply lookup_insert_ne. intros ->. contradiction.
  - intros j Hj. destruct (decide (i = j)) as [-> | Hne].
    + rewrite lookup_insert_eq. eauto.
    + rewrite lookup_insert_ne by exact Hne. exact Hj.
Qed.

Lemma respects_mono {A} (P Q : Z -> Prop) (m : Infer A) :
  (forall j, P j -> Q j) -> respects (writesAt P) m -> respects (writesAt Q) m.
Proof. intros Hsub Hm st a st' Hrun. eapply writesAt_mono; [exact Hsub | eapply Hm, Hrun]. Qed.

(** ** The steps *)

Section Steps.

Variable touched : Z -> Prop.

Lemma writes_pure {A} (a : A) : respects (writesAt touched) (pure a).
Proof. intros st a' st' [= _ <-]. apply writesAt_refl. Qed.

Lemma writes_throw {A} (msg : string) : respects (writesAt touched) (@throw _ A msg).
Proof. intros st a st' Hrun. discriminate. Qed.

Lemma writes_gets {A} (f : InferState -> A) : respects (writesAt touched) (gets f).
Proof. intros st a st' [= _ <-]. apply writesAt_refl. Qed.

Lemma writes_bind {A B} (m : Infer A) (k : A -> Infer B) :
  respects (writesAt touched) m -> (forall a, respects (writesAt touched) (k a)) ->
  respects (writesAt touched) (bind m k).
Proof.
  intros Hm Hk st b st'. unfold bind.
  destruct (m st) as [msg | [a st1]] eqn:Hrun; [discriminate |].
  intros Hrest. apply (writesAt_trans _ _ st1); [eapply Hm | eapply Hk]; eassumption.
Qed.

Lemma writes_forEach {A} (f : A -> Infer unit) (l : list A) :
  (forall x, In x l -> respects (writesAt touched) (f x)) ->
  respects (writesAt touched) (forEach f l).
Proof.
  induction l as [| x rest IH]; intros Hf; simpl.
  - apply writes_pure.
  - apply writes_bind; [apply Hf; left; reflexivity |].
    intros _. apply IH. intros y Hy. apply Hf. right. exact Hy.
Qed.

Lemma writes_mapInfer {A B} (f : A -> Infer B) (l : list A) :
  (forall x, respects (writesAt touched) (f x)) ->
  respects (writesAt touched) (mapInfer f l).
Proof.
  intros Hf. induction l as [| x rest IH]; simpl.
  - apply writes_pure.
  - apply writes_bind; [apply Hf |]. intros y.
    apply writes_bind; [exact IH |]. intros ys. apply writes_pure.
Qed.

Lemma writes_sameButGenerator {A} (m : Infer A) :
  (forall st a st', m st = Returned (a, st') -> sameButGenerator st st') ->
  respects (writesAt touched) m.
Proof.
  intros Hm st a st' Hrun. apply Hm in Hrun. unfold sameButGenerator in Hrun.
  rewrite Hrun. apply writesAt_generator.
Qed.

Lemma writes_location (l : string) : respects (writesAt touched) (modify (setLocation l)).
Proof. intros st a st' [= _ <-]. apply writesAt_location. Qed.

Lemma writes_substitutions (s : Substitutions) :
  respects (writesAt touched) (modify (setSubstitutions s)).
Proof. intros st a st' [= _ <-]. apply writesAt_substitutions. Qed.

Lemma writes_nextFreshVar (prefix : string) : respects (writesAt touched) (nextFreshVar prefix).
Proof. apply writes_sameButGenerator. intros st a st'. apply nextFreshVar_state. Qed.

Lemma writes_newInstance (scheme : EffectScheme) :
  respects (writesAt touched) (newInstance scheme).
Proof. apply writes_sameButGenerator. intros st a st'. apply newInstance_state. Qed.

Lemma writes_newInstanceUnbound (scheme : EffectScheme) :
  respects (writesAt touched) (newInstanceUnbound scheme).
Proof.
  intros st a st' Hrun. apply newInstanceUnbound_state in Hrun. subst st'.
  apply writesAt_refl.
Qed.

Lemma writes_fetchSignature (opcode : string) (scope : Z) (arity : nat) :
  respects (writesAt touched) (fetchSignature opcode scope arity).
Proof. apply writes_sameButGenerator. intros st a st'. apply fetchSignature_state. Qed.

Lemma writes_lambdaParam (body : QuintEx) (p : string) :
  respects (writesAt touched) (lambdaParam body p).
Proof. apply writes_sameButGenerator. intros st a st'. apply lambdaParam_state. Qed.

Lemma writes_fetchResult (id : Z) : respects (writesAt touched) (fetchResult id).
Proof.
  intros st a st' Hrun. apply fetchResult_Returned in Hrun as [-> _]. apply writesAt_refl.
Qed.

Lemma writes_lookupCurrent (name : string) (scope : Z) :
  respects (writesAt touched) (lookupCurrent name scope).
Proof.
  intros st a st'. unfold lookupCurrent, bind, gets, pure, throw.
  destruct (currentTable st); [| discriminate]. intros [= _ <-]. apply writesAt_refl.
Qed.

Lemma writes_addToResults (id : Z) (result : Either Error EffectScheme) :
  touched id -> respects (writesAt touched) (addToResults id result).
Proof.
  intros Hid st a st'. destruct result as [err | scheme].
  - rewrite addToResults_error. intros [= _ <-]. apply writesAt_errors. exact Hid.
  - rewrite addToResults_effect. intros [= _ <-]. apply writesAt_effects. exact Hid.
Qed.

Lemma writes_refreshArguments (s : Substitutions) (effects : list Effect) (ids : list Z) :
  (forall i, In i ids -> touched i) ->
  respects (writesAt touched) (refreshArguments s effects ids).
Proof.
  intros Hids. unfold refreshArguments. apply writes_forEach. intros [effect id] Hin.
  destruct (id =? 0); [apply writes_throw |].
  apply writes_addToResults, Hids.
  apply list_elem_of_In. apply list_elem_of_In in Hin.
  eapply elem_of_zip_r. exact Hin.
Qed.

End Steps.

Ltac writes :=
  repeat first
    [ apply writes_pure
    | apply writes_throw
    | apply writes_location
    | apply writes_substitutions
    | apply writes_fetchResult
    | apply writes_nextFreshVar
    | apply writes_newInstance
    | apply writes_newInstanceUnbound
    | apply writes_fetchSignature
    | apply writes_lambdaParam
    | apply writes_lookupCurrent
    | apply writes_gets
    | apply writes_addToResults; solve [auto]
    | apply writes_mapInfer; intros ?
    | apply writes_bind; [| intros ?]
    | match goal with
      | |- respects _ (match ?x with _ => _ end) => destruct x
      end
    | progress cbv beta zeta ].

Lemma exitName_writes (id : Z) (name : string) :
  respects (writesAt (eq id)) (exitName id name).
Proof. unfold exitName, errorsPresent. writes. Qed.

Lemma exitLiteral_writes (id : Z) : respects (writesAt (eq id)) (exitLiteral id).
Proof. unfold exitLiteral. writes. Qed.

Lemma exitOpDef_writes (id : Z) (body : QuintEx) :
  respects (writesAt (eq id)) (exitOpDef id body).
Proof. unfold exitOpDef, errorsPresent. writes. Qed.

Lemma exitLet_writes (id : Z) (body : QuintEx) :
  respects (writesAt (eq id)) (exitLet id body).
Proof. unfold exitLet, errorsPresent. writes. Qed.

Lemma exitLambda_writes (id : Z) (params : list string) (body : QuintEx) :
  respects (writesAt (eq id)) (exitLambda id params body).
Proof. unfold exitLambda, errorsPresent. writes. Qed.

Lemma exitApp_writes (id : Z) (opcode : string) (args : list QuintEx) (expr : QuintEx) :
  respects (writesAt (fun j => j = id \/ In j (map exprId args)))
    (exitApp id opcode args expr).
Proof.
  unfold exitApp, errorsPresent. writes.
  apply writes_refreshArguments. auto.
Qed.

(** X18. A callback writes results at the id of its node only, and
    [exitApp] also at the ids of the arguments, whose results it refreshes:
    the effects and the errors of every other id are left as they are, no id
    loses its result, and the current module is not changed. *)
Theorem callbacks_write_own_ids (id : Z) (name opcode : string) (args : list QuintEx)
    (expr body : QuintEx) (params : list string) :
  respects (writesAt (eq id)) (exitName id name) /\
  respects (writesAt (eq id)) (exitLiteral id) /\
  respects (writesAt (eq id)) (exitOpDef id body) /\
  respects (writesAt (eq id)) (exitLet id body) /\
  respects (writesAt (eq id)) (exitLambda id params body) /\
  respects (writesAt (fun j => j = id \/ In j (map exprId args)))
    (exitApp id opcode args expr).
Proof.
  split; [apply exitName_writes |].
  split; [apply exitLiteral_writes |].
  split; [apply exitOpDef_writes |].
  split; [apply exitLet_writes |].
  split; [apply exitLambda_writes | apply exitApp_writes].
Qed.

(** ** The walk *)

Lemma exprId_nodeIds (e : QuintEx) : In (exprId e) (nodeIds e).
Proof. destruct e as [| | | | | | id [defId name defBody] body]; simpl; auto. Qed.

Lemma walkExpression_writes (e : QuintEx) :
  respects (writesAt (fun j => In j (nodeIds e))) (walkExpression e).
Proof.
  induction e as [id name | id b | id n | id s | id opcode args IH | id params body IH
                 | id defId name defBody body IHdef IHbody] using QuintEx_nested_ind;
    cbn [walkExpression]; (apply writes_bind; [apply writes_location | intros _]).
  - eapply respects_mono; [| apply exitName_writes]. intros j <-. simpl. auto.
  - eapply respects_mono; [| apply exitLiteral_writes]. intros j <-. simpl. auto.
  - eapply respects_mono; [| apply exitLiteral_writes]. intros j <-. simpl. auto.
  - eapply respects_mono; [| apply exitLiteral_writes]. intros j <-. simpl. auto.
  - apply writes_bind; [| intros _].
    + apply writes_forEach. intros a Ha.
      eapply respects_mono; [| exact (proj1 (List.Forall_forall _ _) IH a Ha)].
      intros j Hj. cbn [nodeIds]. right. apply List.in_concat.
      exists (nodeIds a). split; [apply in_map; exact Ha | exact Hj].
    + eapply respects_mono; [| apply exitApp_writes].
      intros j [-> | Hj]; cbn [nodeIds]; [left; reflexivity | right].
      apply in_map_iff in Hj as (a & <- & Ha). apply List.in_concat.
      exists (nodeIds a). split; [apply in_map; exact Ha | apply exprId_nodeIds].
  - apply writes_bind; [| intros _].
    + eapply respects_mono; [| exact IH]. intros j Hj. cbn [nodeIds]. right. exact Hj.
    + eapply respects_mono; [| apply exitLambda_writes]. intros j <-. simpl. auto.
  - apply writes_bind; [| intros _].
    { eapply respects_mono; [| exact IHdef]. intros j Hj. cbn [nodeIds].
      right. right. apply in_or_app. left. exact Hj. }
    apply writes_bind; [| intros _].
    { eapply respects_mono; [| apply exitOpDef_writes]. intros j <-. simpl. auto. }
    apply writes_bind; [| intros _].
    { eapply respects_mono; [| exact IHbody]. intros j Hj. cbn [nodeIds].
      right. right. apply in_or_app. right. exact Hj. }
    eapply respects_mono; [| apply exitLet_writes]. intros j <-. simpl. auto.
Qed.

(** X19. Walking an expression writes results at the ids of its own nodes
    only: whatever was inferred for the rest of the module is left as it
    is, no id loses its result, and the walk ends in the module in which it
    started. *)
Theorem walkExpression_frame (e : QuintEx) (st st' : InferState) :
  walkExpression e st = Returned (tt, st') ->
  (forall j, ~ In j (nodeIds e) ->
     effects st' !! j = effects st !! j /\ errors st' !! j = errors st !! j) /\
  keepsResults st st' /\
  sameModules st st'.
Proof. intros Hrun. exact (walkExpression_writes e st tt st' Hrun). Qed.

(** What a definition keeps. *)
Lemma defStep_writes (P : Z -> Prop) (st st' : InferState) :
  writesAt P st st' ->
  keepsResults st st' /\ moduleStack st' = moduleStack st /\
  (moduleStack st <> [] -> inModule lookupTable st -> sameModules st st').
Proof. intros (_ & Hkeeps & Hmodules). split; [| split]; auto. apply Hmodules. Qed.

Lemma keepsResults_trans (st1 st2 st3 : InferState) :
  keepsResults st1 st2 -> keepsResults st2 st3 -> keepsResults st1 st3.
Proof. intros [Hf1 He1] [Hf2 He2]. split; intros j Hj; auto. Qed.

Lemma inModule_sameModules (st st' : InferState) :
  sameModules st st' -> inModule lookupTable st -> inModule lookupTable st'.
Proof.
  intros (Hstack & Hcurrent & Htable & Htree). unfold inModule.
  rewrite Hstack, Hcurrent, Htable, Htree. auto.
Qed.

Lemma forEach_defStep (defs : list QuintDef) :
  Forall (fun d => forall st st',
            walkDefinition lookupTable d st = Returned (tt, st') ->
            keepsResults st st' /\ moduleStack st' = moduleStack st /\
            (moduleStack st <> [] -> inModule lookupTable st -> sameModules st st')) defs ->
  forall st st',
    forEach (walkDefinition lookupTable) defs st = Returned (tt, st') ->
    keepsResults st st' /\ moduleStack st' = moduleStack st.
Proof.
  induction 1 as [| d rest Hd _ IH]; intros st st'; simpl.
  - intros [= <-]. split; [split; auto | reflexivity].
  - unfold bind at 1.
    destruct (walkDefinition lookupTable d st) as [msg | [[] st1]] eqn:Hrun; [discriminate |].
    intros Hrest. destruct (Hd _ _ Hrun) as (Hk1 & Hs1 & _).
    destruct (IH _ _ Hrest) as (Hk2 & Hs2).
    split; [apply (keepsResults_trans _ st1); assumption | congruence].
Qed.

(** X20. Walking a definition drops no result and leaves the stack of
    modules as it found it; when the walk starts inside a module, which is
    then the current one, it also ends there, with the table and the scope
    tree of that module: a nested module is left when its definitions are
    done. *)
Theorem walkDefinition_modules (d : QuintDef) (st st' : InferState) :
  walkDefinition lookupTable d st = Returned (tt, st') ->
  keepsResults st st' /\
  moduleStack st' = moduleStack st /\
  (moduleStack st <> [] -> inModule lookupTable st -> sameModules st st').
Proof.
  revert st st'.
  induction d as [[id name body] | id name | id name | id name | id name assumption
                 | id path | id name overrides | id name defs mid IH]
    using QuintDef_nested_ind; intros st st' Hrun;
    try (injection Hrun as <-; apply (defStep_writes (fun _ => True)), writesAt_refl).
  - apply (defStep_writes (fun _ => True)). revert Hrun. cbn [walkDefinition].
    apply writes_bind; [| intros _].
    + eapply respects_mono; [| apply walkExpression_writes]. auto.
    + eapply respects_mono; [| apply exitOpDef_writes]. auto.
  - apply (defStep_writes (fun _ => True)). revert Hrun. cbn [walkDefinition].
    eapply respects_mono; [| apply walkExpression_writes]. auto.
  - apply (defStep_writes (fun _ => True)). revert Hrun. cbn [walkDefinition].
    apply writes_forEach. intros o _.
    eapply respects_mono; [| apply walkExpression_writes]. auto.
  - cbn [walkDefinition] in Hrun. unfold bind at 1 in Hrun.
    unfold enterModuleDef, modify in Hrun. cbv zeta in Hrun.
    match type of Hrun with context [setModules ?a ?b ?c ?t st] =>
      set (st0 := setModules a b c t st) in Hrun end.
    unfold bind at 1 in Hrun.
    destruct (forEach (walkDefinition lookupTable) defs st0) as [msg | [[] st1]] eqn:Hdefs;
      [discriminate |].
    destruct (forEach_defStep defs IH _ _ Hdefs) as ([Hf He] & Hstack1).
    assert (Hpop : removelast (moduleStack st1) = moduleStack st).
    { rewrite Hstack1. subst st0. simpl. apply removelast_last. }
    unfold exitModuleDef, modify in Hrun. cbv zeta in Hrun. rewrite Hpop in Hrun.
    destruct (last (moduleStack st)) as [current |] eqn:Hlast;
      injection Hrun as <-; simpl; (split; [split; [exact Hf | exact He] |]);
      (split; [reflexivity |]).
    + intros _ Hin. unfold inModule in Hin. rewrite Hlast in Hin.
      destruct Hin as (Hcurrent & Htable & Htree).
      unfold sameModules. simpl. auto.
    + intros Hne. apply last_None in Hlast. contradiction.
Qed.

(** ** A result for every node *)

Lemma records_bind {A} (id : Z) (m : Infer A) (k : A -> Infer unit) :
  (forall a, records id (k a)) -> records id (bind m k).
Proof.
  intros Hk st st'. unfold bind. destruct (m st) as [msg | [a st1]]; [discriminate |].
  apply Hk.
Qed.

Lemma records_throw (id : Z) (msg : string) : records id (throw msg).
Proof. intros st st' Hrun. discriminate. Qed.

Lemma records_addToResults (id : Z) (result : Either Error EffectScheme) :
  records id (addToResults id result).
Proof.
  intros st st'. destruct result as [err | scheme].
  - rewrite addToResults_error. intros [= <-]. right. simpl.
    rewrite lookup_insert_eq. eauto.
  - rewrite addToResults_effect. intros [= <-]. left. simpl.
    rewrite lookup_insert_eq. eauto.
Qed.

Ltac records :=
  repeat first
    [ apply records_addToResults
    | apply records_throw
    | apply records_bind; intros ?
    | match goal with
      | |- records _ (match ?x with _ => _ end) => destruct x
      end
    | progress cbv beta zeta ].

Ltac guarded i Hnone Hrun :=
  rewrite (bind_Returned _ _ _ _ _ (errorsPresent_none _ Hnone)) in Hrun;
  cbv beta iota in Hrun;
  match type of Hrun with
  | ?m _ = _ => cut (records i m); [intros Hrecords; exact (Hrecords _ _ Hrun) |]
  end.

(** X21. Every application, lambda, let and operator definition whose
    callback runs without an error recorded so far, and returns, has a
    result afterwards: an effect or an error is stored at its id. *)
Theorem callbacks_record_result (id : Z) (opcode : string) (args : list QuintEx)
    (expr body : QuintEx) (params : list string) (st st' : InferState) :
  size (errors st) = 0%nat ->
  exitApp id opcode args expr st = Returned (tt, st') \/
  exitLambda id params body st = Returned (tt, st') \/
  exitOpDef id body st = Returned (tt, st') \/
  exitLet id body st = Returned (tt, st') ->
  hasResult st' id.
Proof.
  intros Hnone [Hrun | [Hrun | [Hrun | Hrun]]].
  - unfold exitApp in Hrun. guarded id Hnone Hrun. records.
  - unfold exitLambda in Hrun. guarded id Hnone Hrun. records.
  - unfold exitOpDef in Hrun. guarded id Hnone Hrun. records.
  - unfold exitLet in Hrun. guarded id Hnone Hrun. records.
Qed.

(** X22. A let and an operator definition take the scheme of their body:
    without an error recorded so far, both callbacks store the scheme found
    at the body's id at their own id, and both throw when the body has no
    scheme. *)
Theorem definition_copies_body (id : Z) (body : QuintEx) (st : InferState) :
  size (errors st) = 0%nat ->
  exitLet id body st = exitOpDef id body st /\
  (forall scheme, effects st !! exprId body = Some scheme ->
     exitOpDef id body st = Returned (tt, setEffects (insert id scheme) st)) /\
  (effects st !! exprId body = None -> exists msg, exitOpDef id body st = Threw msg).
Proof.
  intros Hnone. split; [reflexivity |].
  assert (Herrors : errors st !! exprId body = None).
  { apply map_size_empty_iff in Hnone. rewrite Hnone. apply lookup_empty. }
  unfold exitOpDef. rewrite (bind_Returned _ _ _ _ _ (errorsPresent_none st Hnone)).
  unfold fetchResult, bind, gets. rewrite Herrors. split.
  - intros scheme Hscheme. rewrite Hscheme. reflexivity.
  - intros Hmissing. rewrite Hmissing. eexists. reflexivity.
Qed.

(** X23. The rules for names.  With no error recorded so far, a name that
    the lookup table resolves gets its scheme by the kind of its
    definition: a constant is Pure, a state variable reads itself (with the
    id of the name as reference), and a lambda parameter with a reference
    [r] gets the effect variable [e_<name>_<r>]; a parameter without
    reference and a name that the table does not resolve get an error, and
    no effect. *)
Theorem exitName_rules (id : Z) (name : string) (st : InferState) (table : LookupTable) :
  size (errors st) = 0%nat ->
  currentTable st = Some table ->
  (forall def, lookupValue table (currentScopeTree st) name id = Some def ->
     (defKind def = KindConst ->
        exitName id name st
        = Returned (tt, setEffects (insert id (toScheme (EConcrete []))) st)) /\
     (defKind def = KindVar ->
        exitName id name st
        = Returned (tt, setEffects
                          (insert id (toScheme
                             (EConcrete [mkComponent Read
                                           (VConcrete [mkStateVariable name id])]))) st)) /\
     (forall r, defKind def = KindParam -> defReference def = Some r -> r <> 0 ->
        exitName id name st
        = Returned (tt, setEffects
                          (insert id (toScheme
                             (EQuantified ("e_" +:+ name +:+ "_" +:+ pretty r)))) st)) /\
     (defKind def = KindParam -> defReference def = None \/ defReference def = Some 0 ->
        exists st', exitName id name st = Returned (tt, st') /\
                    effects st' = effects st /\ is_Some (errors st' !! id))) /\
  (lookupValue table (currentScopeTree st) name id = None ->
     exists st', exitName id name st = Returned (tt, st') /\
                 effects st' = effects st /\ is_Some (errors st' !! id)).
Proof.
  intros Hnone Htable.
  unfold exitName. rewrite (bind_Returned _ _ _ _ _ (errorsPresent_none st Hnone)).
  unfold lookupCurrent, bind, gets, pure. rewrite Htable. split.
  - intros def ->. repeat split.
    + intros ->. reflexivity.
    + intros ->. reflexivity.
    + intros r -> -> Hr. unfold truthy.
      destruct (Z.eqb_spec r 0) as [Hzero | _]; [contradiction | reflexivity].
    + intros -> Href.
      destruct Href as [-> | ->]; (eexists; split; [reflexivity |]);
        simpl; rewrite lookup_insert_eq; eauto.
  - intros ->. eexists. split; [reflexivity |]. simpl. rewrite lookup_insert_eq. eauto.
Qed.
End InferrerInvariantFacts.

(** * The further facts at concrete inputs *)

Section EvaluatorExamples.

Import Builtins Evaluator.

(** [replaceAt] at index 1 of [(10, 20, 30)]. *)
Lemma replaceAt_bounds_witness :
  exists l',
    replaceAt (fun _ => "") [RvInt 10; RvInt 20; RvInt 30] 1 (RvInt 0) = inr (RvList l') /\
    length l' = 3%nat /\
    l' !! 1%nat = Some (RvInt 0).
Proof.
  destruct (replaceAt_bounds (fun _ => "") [RvInt 10; RvInt 20; RvInt 30] 1 (RvInt 0))
    as [_ Hinside]; [simpl; lia |].
  destruct Hinside as (l' & Hrun & Hlength & Hnew & _); [simpl; lia |].
  exists l'. split; [exact Hrun |]. split; [exact Hlength | exact Hnew].
Defined.

(** The slice from 1 to 3 of [(10, 20, 30)]. *)
Lemma slice_bounds_witness :
  exists l',
    slice (fun _ => "") [RvInt 10; RvInt 20; RvInt 30] 1 3 = inr (RvList l') /\
    Z.of_nat (length l') = 2.
Proof.
  destruct (slice_bounds (fun _ => "") [RvInt 10; RvInt 20; RvInt 30] 1 3)
    as [_ Hinside]; [simpl; lia |].
  destruct Hinside as (l' & Hrun & Hlength & _); [simpl; lia |].
  exists l'. split; [exact Hrun | exact Hlength].
Defined.


(** The elements of [(1, 2, 3)] that are greater than one. *)
Lemma select_filters_witness :
  select [RvInt 1; RvInt 2; RvInt 3] (fun x => Returned (inr (RvBool (greaterThanOne x))))
  = Returned (inr (RvList [RvInt 2; RvInt 3])).
Proof.
  apply (select_filters (fun x => Returned (inr (RvBool (greaterThanOne x)))) greaterThanOne
           [RvInt 1; RvInt 2; RvInt 3]).
  intros x _. reflexivity.
Defined.

(** [and(true, false, true)]: two arguments are evaluated. *)
Lemma and_short_circuits_witness :
  (fun op => op [tick true; tick false; tick true] 0%nat) <$> lazyBuiltinLambda nat S "and"
  = Some (Returned (inr (RvBool false), 2%nat)).
Proof.
  apply (and_short_circuits nat S [tick true] [tick true] (tick false) 0%nat 1%nat 2%nat).
  - exists 1%nat. split; reflexivity.
  - reflexivity.
Defined.

(** [or(false, true, false)]: two arguments are evaluated. *)
Lemma or_short_circuits_witness :
  (fun op => op [tick false; tick true; tick false] 0%nat) <$> lazyBuiltinLambda nat S "or"
  = Some (Returned (inr (RvBool true), 2%nat)).
Proof.
  apply (or_short_circuits nat S [tick false] [tick false] (tick true) 0%nat 1%nat 2%nat).
  - exists 1%nat. split; reflexivity.
  - reflexivity.
Defined.

(** [false implies true] evaluates one argument, and
    [if (false) true else false] two. *)
Lemma implies_ite_one_branch_witness :
  (fun op => op [tick false; tick true] 0%nat) <$> lazyBuiltinLambda nat S "implies"
    = Some (Returned (inr (RvBool true), 1%nat)) /\
  (fun op => op [tick false; tick true; tick false] 0%nat) <$> lazyBuiltinLambda nat S "ite"
    = Some (Returned (inr (RvBool false), 2%nat)).
Proof.
  apply (implies_ite_one_branch nat S (tick false) (tick true) (tick false) 0%nat 1%nat false).
  reflexivity.
Defined.

(** [true.then(true)]: the second argument starts from the shifted
    context. *)
Lemma then_shifts_witness :
  (fun op => op [tick true; tick true] 0%nat) <$> lazyBuiltinLambda nat S "then"
  = Some (Returned (inr (RvBool true), 3%nat)).
Proof.
  apply (then_shifts nat S (tick true) (tick true) 0%nat 1%nat true). reflexivity.
Defined.

End EvaluatorExamples.

Section UnifierExamples.

#[local] Existing Instance SpecModel.printing.
#[local] Existing Instance SpecModel.simplification.
#[local] Existing Instance SpecModel.substitutionOps.
#[local] Existing Instance SpecModel.errorTrees.

(** ['x', 'y'] and ['y', 'x', 'x'] hold the same names. *)
Lemma unifyVariables_concrete_witness :
  unifyVariables 1 (VConcrete [varX; varY]) (VConcrete [varY; varX; varX]) = Some (inr []).
Proof.
  assert (Hleft : flattenUnions (VConcrete [varX; varY]) = VConcrete [varX; varY])
    by reflexivity.
  assert (Hright : flattenUnions (VConcrete [varY; varX; varX])
                   = VConcrete [varY; varX; varX]) by reflexivity.
  destruct (unifyVariables_concrete 0 _ _ _ _ Hleft Hright) as [Hsame _].
  apply Hsame. intros n. simpl. tauto.
Defined.

(** [a] is bound to ['x'], on either side. *)
Lemma unifyVariables_quantified_witness :
  unifyVariables 1 (q "a") (VConcrete [varX])
    = Some (inr [SubVariable "a" (VConcrete [varX])]) /\
  unifyVariables 1 (VConcrete [varX]) (q "a")
    = Some (inr [SubVariable "a" (VConcrete [varX])]).
Proof.
  assert (Hquantified : flattenUnions (q "a") = VQuantified "a" None) by reflexivity.
  destruct (unifyVariables_quantified 0 (q "a") (VConcrete [varX]) "a" None Hquantified)
    as [_ Hother].
  destruct Hother as [Hleft Hright].
  - intros r'. discriminate.
  - simpl. tauto.
  - split; [exact Hleft |]. apply Hright. intros m r'. discriminate.
Defined.

(** The quantified effect among the two is ignored. *)
Lemma tryToUnpack_ignores_others_witness :
  tryToUnpack "" [EQuantified "e"]
    [EQuantified "e1"; EConcrete [mkComponent Read (VConcrete [varX])]]
  = inr ([EQuantified "e"],
         [simplify (unpackedEffect [EConcrete [mkComponent Read (VConcrete [varX])]])]).
Proof.
  apply (tryToUnpack_ignores_others "" (EQuantified "e")
           [EQuantified "e1"; EConcrete [mkComponent Read (VConcrete [varX])]]).
  discriminate.
Defined.

(** [e] is bound to [Read['x']], on either side. *)
Lemma unify_binds_quantified_witness :
  unify 1 (EQuantified "e") (EConcrete [mkComponent Read (VConcrete [varX])])
    = Some (inr [SubEffect "e" (EConcrete [mkComponent Read (VConcrete [varX])])]) /\
  unify 1 (EConcrete [mkComponent Read (VConcrete [varX])]) (EQuantified "e")
    = Some (inr [SubEffect "e" (EConcrete [mkComponent Read (VConcrete [varX])])]).
Proof.
  assert (Hquantified : simplify (EQuantified "e") = EQuantified "e") by reflexivity.
  destruct (unify_binds_quantified 0 (EQuantified "e")
              (EConcrete [mkComponent Read (VConcrete [varX])]) "e" Hquantified)
    as [Hleft Hright].
  - vm_compute. discriminate.
  - vm_compute. tauto.
  - split; [exact Hleft |]. apply Hright. intros m. vm_compute. discriminate.
Defined.

End UnifierExamples.

Section InferrerExamples.

#[local] Existing Instance SpecModel.printing.
#[local] Existing Instance SpecModel.substitutionOps.
#[local] Existing Instance SpecModel.errorTrees.
#[local] Existing Instance InferrerModel.env.

(** Walking [(p) => p] writes at the ids 1 and 2. *)
Lemma walkExpression_frame_witness :
  Inferrer.walkExpression InferrerRuns.identityLambda InferrerRuns.stateInModule
    = Returned (tt, InferrerRuns.stateAfterIdentityLambda) /\
  (forall j, j <> 2 -> j <> 1 ->
     Inferrer.effects InferrerRuns.stateAfterIdentityLambda !! j
     = Inferrer.effects InferrerRuns.stateInModule !! j) /\
  sameModules InferrerRuns.stateInModule InferrerRuns.stateAfterIdentityLambda.
Proof.
  assert (Hrun : Inferrer.walkExpression InferrerRuns.identityLambda InferrerRuns.stateInModule
                 = Returned (tt, InferrerRuns.stateAfterIdentityLambda)) by reflexivity.
  split; [exact Hrun |].
  destruct (walkExpression_frame InferrerRuns.identityLambda _ _ Hrun)
    as (Houtside & _ & Hmodules).
  split; [| exact Hmodules].
  intros j Hlambda Hname. apply Houtside. simpl. intros [? | [? | []]]; congruence.
Defined.

(** After the nested module [N] the inferrer is back in [M]. *)
Lemma walkDefinition_modules_witness :
  Inferrer.walkDefinition InferrerModel.identityTable InferrerRuns.nestedModule
    InferrerRuns.stateInModule
    = Returned (tt, InferrerRuns.stateAfterNestedModule) /\
  Inferrer.currentModule InferrerRuns.stateAfterNestedModule
    = Some InferrerModel.identityModule /\
  Inferrer.moduleStack InferrerRuns.stateAfterNestedModule = [InferrerModel.identityModule].
Proof.
  assert (Hrun : Inferrer.walkDefinition InferrerModel.identityTable InferrerRuns.nestedModule
                   InferrerRuns.stateInModule
                 = Returned (tt, InferrerRuns.stateAfterNestedModule)) by reflexivity.
  split; [exact Hrun |].
  destruct (@walkDefinition_modules _ _ _ InferrerModel.env InferrerModel.identityTable
              InferrerRuns.nestedModule _ _ Hrun) as (_ & Hstack & Hmodules).
  destruct Hmodules as (_ & Hcurrent & _).
  - discriminate.
  - repeat split.
  - split; [rewrite Hcurrent; reflexivity | rewrite Hstack; reflexivity].
Defined.

(** The lambda of [def f(p) = p] has a result. *)
Lemma callbacks_record_result_witness :
  hasResult InferrerModel.stateAfterLambda 2.
Proof.
  assert (Hnone : size (Inferrer.errors InferrerModel.stateBeforeLambda) = 0%nat)
    by (vm_compute; reflexivity).
  assert (Hrun : Inferrer.exitLambda 2 ["p"] (QuintName 1 "p") InferrerModel.stateBeforeLambda
                 = Returned (tt, InferrerModel.stateAfterLambda)) by reflexivity.
  apply (callbacks_record_result 2 "f" [] (QuintName 1 "p") (QuintName 1 "p") ["p"]
           InferrerModel.stateBeforeLambda InferrerModel.stateAfterLambda Hnone).
  right. left. exact Hrun.
Defined.

(** [def f] takes the scheme of its lambda. *)
Lemma definition_copies_body_witness :
  Inferrer.exitOpDef 3 InferrerRuns.identityLambda InferrerModel.stateAfterLambda
  = Returned (tt, Inferrer.setEffects
                    (insert 3 (Inferrer.mkScheme
                                 (EArrow [EQuantified "e_p_1"] (EQuantified "e_p_1"))
                                 ["e_p_1"] []))
                    InferrerModel.stateAfterLambda).
Proof.
  assert (Hnone : size (Inferrer.errors InferrerModel.stateAfterLambda) = 0%nat)
    by (vm_compute; reflexivity).
  destruct (definition_copies_body 3 InferrerRuns.identityLambda
              InferrerModel.stateAfterLambda Hnone) as (_ & Hcopy & _).
  apply Hcopy. vm_compute. reflexivity.
Defined.

(** The parameter [p] of [def f(p) = p], defined at the id 1. *)
Lemma exitName_rules_witness :
  Inferrer.exitName 1 "p" InferrerRuns.stateInModule
  = Returned (tt, Inferrer.setEffects
                    (insert 1 (Inferrer.toScheme (EQuantified "e_p_1")))
                    InferrerRuns.stateInModule).
Proof.
  assert (Hnone : size (Inferrer.errors InferrerRuns.stateInModule) = 0%nat)
    by (vm_compute; reflexivity).
  assert (Htable : Inferrer.currentTable InferrerRuns.stateInModule
                   = Some [("p", Inferrer.mkValueDefinition Inferrer.KindParam (Some 1));
                           ("f", Inferrer.mkValueDefinition Inferrer.KindDef (Some 3))])
    by reflexivity.
  destruct (exitName_rules 1 "p" InferrerRuns.stateInModule _ Hnone Htable) as [Hfound _].
  destruct (Hfound (Inferrer.mkValueDefinition Inferrer.KindParam (Some 1)) eq_refl)
    as (_ & _ & Hparam & _).
  apply (Hparam 1); [reflexivity | reflexivity | lia].
Defined.

End InferrerExamples.
